(** * xkcd-db: incremental mirror of the xkcd catalogue

    A shallow embedding of the two source files of the repository,

    - [src/xkcd.go]: the archive root is the constant ["./xkcdDB/"], the
      missing comics are cut into blocks of 200 by [splitSlice] and the blocks
      are downloaded one after the other (module [Batched]);
    - [src/unnamed/part_000]: the archive root and the limit come from the
      command line, and one fan-out is bounded by a counting semaphore, a
      buffered channel of [rateLimit] tokens (module [Semaphore]).

    The operating system and the network are not code of the repository.
    They are modelled by a flat file table (path to node), an oracle for HTTP
    and JSON decoding, and a fault oracle that may make any single system
    call fail.  Go's [int] is modelled by [Z]: the only arithmetic is the loop
    counter of [missingComics], which stays below [numComics + 1].  *)

From Stdlib Require Import ZArith String Ascii List Lia Sorted DecimalString DecimalZ DecimalPos.
From stdpp Require Import base option list gmap strings.

(** ** Strings *)

(** [strconv.Itoa]. *)
Definition itoa (i : Z) : string := NilZero.string_of_int (Z.to_int i).

(** [strings.Split(s, "/")]: one more part than there are separators; the
    empty string splits into one empty part. *)
Fixpoint split_slash (s : string) : list string :=
  match s with
  | EmptyString => [EmptyString]
  | String c s' =>
      if Ascii.eqb c "/" then EmptyString :: split_slash s'
      else match split_slash s' with
           | [] => [String c EmptyString]
           | seg :: rest => String c seg :: rest
           end
  end.

(** [s[i]]: the byte at index [i]; [None] when the index is out of range
    (a run-time panic). *)
Definition byte_at (s : string) (i : Z) : option ascii :=
  if decide (0 ≤ i)%Z then String.get (Z.to_nat i) s else None.

(** [len(s)]. *)
Definition len (s : string) : Z := Z.of_nat (String.length s).

(** Path resolution ignores trailing separators: ["a/1/"] and ["a/1"] name the
    same entry. *)
Fixpoint clean (p : string) : string :=
  match p with
  | EmptyString => EmptyString
  | String c p' =>
      match clean p' with
      | EmptyString => if Ascii.eqb c "/" then EmptyString else String c EmptyString
      | r => String c r
      end
  end.

(** ** The world: files, network, faults *)

Inductive node :=
  | Dir
  | File (data : string).

Inductive errno := ENOENT | EEXIST | EISDIR | EACCES.

Inductive error :=
  | ErrTransport
  | ErrDecode
  | ErrFs (e : errno).

#[global] Instance node_eq_dec : EqDecision node.
Proof. solve_decision. Defined.
#[global] Instance errno_eq_dec : EqDecision errno.
Proof. solve_decision. Defined.
#[global] Instance error_eq_dec : EqDecision error.
Proof. solve_decision. Defined.

(** [os.IsNotExist(err)]; false on [nil]. *)
Definition IsNotExist (err : option error) : bool :=
  match err with
  | Some (ErrFs ENOENT) => true
  | _ => false
  end.

(** The [Comic] struct. *)
Record Comic := mkComic {
  Num : Z;
  Img : string;
  Transcript : string;
  Alt : string }.

Inductive io_op := OpStat | OpMkdir | OpCreate | OpWrite | OpCopy.

(** What the program cannot decide: the answers of the network, of the JSON
    decoder, which system calls fail for a reason of the environment
    (permissions, full disk), and the largest capacity the run time accepts
    for a [[]string]: beyond it [make] panics with "makeslice: cap out of
    range" (the allocation limit of the platform divided by the size of a
    string header).  Memory that runs out below that limit is not
    modelled. *)
Record Env := mkEnv {
  http_get : string → option string;
  json_decode : string → option Comic;
  io_fault : io_op → string → bool;
  max_cap : Z }.

(** The lines the program prints with [fmt.Printf] and [fmt.Println], by
    format string. *)
Inductive message :=
  | MsgCreating (dbPath : string)   (* "%s does not exist. Creating..." *)
  | MsgNoMissing                    (* "Found no missing comics" *)
  | MsgFound (n : nat)              (* "Found %d missing comics" *)
  | MsgDownloaded (n : nat)         (* "Downloaded %d missing comics" *)
  | MsgFetching (item : string)     (* "Fetching Comic #%s ..." *)
  | MsgDecodeError (item : string)  (* "JSON decoding error: Comic %s" *)
  | MsgNoImage (item : string).     (* "Comic %s has no image." *)

(** Everything the program does to the outside, in the order it happens. *)
Inductive event :=
  | EvPrint (line : message)
  | EvLog (e : option error)
  | EvHttpGet (url : string)
  | EvStat (path : string)
  | EvMkdir (path : string) (err : option error)
  | EvCreate (path : string) (err : option error)
  | EvWrite (path data : string) (err : option error)
  | EvCopy (path data : string) (err : option error).

(** A call that changes the archive came back with an error. *)
Definition fs_failure (e : event) : bool :=
  match e with
  | EvMkdir _ (Some _) | EvCreate _ (Some _)
  | EvWrite _ _ (Some _) | EvCopy _ _ (Some _) => true
  | _ => false
  end.

Definition is_io (e : event) : bool :=
  match e with
  | EvPrint _ | EvLog _ => false
  | _ => true
  end.

Record world := World {
  files : gmap string node;
  trace : list event }.

(** ** A state and exit monad *)

Inductive result (A : Type) :=
  | Ok (a : A)
  | Exit (code : Z)
  | Panic.
Arguments Ok {A} a.
Arguments Exit {A} code.
Arguments Panic {A}.

Definition M (A : Type) : Type := world → result A * world.

Definition ret {A} (a : A) : M A := fun w => (Ok a, w).

Definition bind {A B} (m : M A) (k : A → M B) : M B :=
  fun w =>
    match m w with
    | (Ok a, w') => k a w'
    | (Exit c, w') => (Exit c, w')
    | (Panic, w') => (Panic, w')
    end.

Notation "'let*' x ':=' c1 'in' c2" := (bind c1 (fun x => c2))
  (at level 10, x name, c1 at level 100, c2 at level 200).
Notation "'do' c1 'then' c2" := (bind c1 (fun _ => c2))
  (at level 10, c1 at level 100, c2 at level 200).

Definition emit (e : event) : M unit :=
  fun w => (Ok tt, World (files w) (trace w ++ [e])).

Definition panic {A} : M A := fun w => (Panic, w).

(** [log.Println(err)]. *)
Definition log_Println (e : option error) : M unit := emit (EvLog e).

(** [log.Fatalln(err)]: prints, then [os.Exit(1)]. *)
Definition log_Fatalln {A} (e : option error) : M A :=
  fun w => (Exit 1%Z, World (files w) (trace w ++ [EvLog e])).

Definition printf (line : message) : M unit := emit (EvPrint line).

Section Syscalls.
Context (E : Env).

(** The error of [os.Stat(p)] on a file table. *)
Definition stat_err (fs : gmap string node) (p : string) : option error :=
  if io_fault E OpStat p then Some (ErrFs EACCES)
  else match fs !! clean p with
       | Some _ => None
       | None => Some (ErrFs ENOENT)
       end.

Definition os_Stat (p : string) : M (option error) :=
  fun w => (Ok (stat_err (files w) p), World (files w) (trace w ++ [EvStat p])).

(** [os.Mkdir(p, 0755)]: fails when the entry exists. *)
Definition mkdir_fs (fs : gmap string node) (p : string)
  : option error * gmap string node :=
  if io_fault E OpMkdir p then (Some (ErrFs EACCES), fs)
  else match fs !! clean p with
       | Some _ => (Some (ErrFs EEXIST), fs)
       | None => (None, <[clean p := Dir]> fs)
       end.

Definition os_Mkdir (p : string) : M (option error) :=
  fun w => let '(e, fs) := mkdir_fs (files w) p in
           (Ok e, World fs (trace w ++ [EvMkdir p e])).

(** [os.Create(p)]: creates or truncates a regular file. *)
Definition create_fs (fs : gmap string node) (p : string)
  : option error * gmap string node :=
  if io_fault E OpCreate p then (Some (ErrFs EACCES), fs)
  else match fs !! clean p with
       | Some Dir => (Some (ErrFs EISDIR), fs)
       | _ => (None, <[clean p := File EmptyString]> fs)
       end.

Definition os_Create (p : string) : M (option error) :=
  fun w => let '(e, fs) := create_fs (files w) p in
           (Ok e, World fs (trace w ++ [EvCreate p e])).

(** Appending to the file opened at [p] ([WriteString], [io.Copy]). *)
Definition append_fs (o : io_op) (fs : gmap string node) (p data : string)
  : option error * gmap string node :=
  if io_fault E o p then (Some (ErrFs EACCES), fs)
  else match fs !! clean p with
       | Some (File old) => (None, <[clean p := File (old +:+ data)]> fs)
       | _ => (Some (ErrFs EISDIR), fs)
       end.

Definition file_WriteString (p data : string) : M (option error) :=
  fun w => let '(e, fs) := append_fs OpWrite (files w) p data in
           (Ok e, World fs (trace w ++ [EvWrite p data e])).

Definition io_Copy (p data : string) : M (option error) :=
  fun w => let '(e, fs) := append_fs OpCopy (files w) p data in
           (Ok e, World fs (trace w ++ [EvCopy p data e])).

(** [http.Get(url)]: the body of the response, or a transport error. *)
Definition http_Get (url : string) : M (option string) :=
  fun w => (Ok (http_get E url), World (files w) (trace w ++ [EvHttpGet url])).
End Syscalls.

(** ** The program, common part *)

Definition xkcdURL : string := "https://xkcd.com/".
Definition jsonFile : string := "info.0.json".

Section Program.
Context (E : Env).

Definition latestComicNum : M (Z * option error) :=
  let url := xkcdURL +:+ jsonFile in
  let* resp := http_Get E url in
  match resp with
  | None => ret (0%Z, Some ErrTransport)
  | Some body =>
      match json_decode E body with
      | None => ret (0%Z, Some ErrDecode)
      | Some comicData => ret (Num comicData, None)
      end
  end.

(** The loop of [missingComics], [n] iterations left, counter at [i]. *)
Fixpoint missingComics_loop (n : nat) (i : Z) (dbPath : string)
    (dlList : list string) : M (list string) :=
  match n with
  | O => ret dlList
  | S n' =>
      if decide (i = 404%Z) then missingComics_loop n' (i + 1)%Z dbPath dlList
      else
        let comicPath := dbPath +:+ itoa i in
        let* err := os_Stat E comicPath in
        if IsNotExist err
        then missingComics_loop n' (i + 1)%Z dbPath (dlList ++ [itoa i])
        else missingComics_loop n' (i + 1)%Z dbPath dlList
  end.

(** [make([]string, 0, numComics)] panics on a negative capacity and on one
    that is out of range. *)
Definition missingComics (numComics : Z) (dbPath : string) : M (list string) :=
  if decide (numComics < 0 ∨ max_cap E < numComics)%Z then panic
  else missingComics_loop (Z.to_nat numComics) 1%Z dbPath [].
End Program.

(** ** The body of one download goroutine *)

(** How the goroutine body came to its [return]. *)
Inductive outcome :=
  | MetaTransportFailed   (* metadata [http.Get] failed *)
  | MetaDecodeFailed      (* metadata did not decode *)
  | AssetTransportFailed  (* image [http.Get] failed *)
  | NoImage               (* "has no image" *)
  | Saved.                (* image written *)

#[global] Instance outcome_eq_dec : EqDecision outcome.
Proof. solve_decision. Defined.

Section Worker.
Context (E : Env).

(** [os.Create] followed by [WriteString], each fatal on error.  On a write
    error the source passes [err], which is [nil] there, to [log.Fatalln]. *)
Definition write_field (path data : string) : M unit :=
  let* err := os_Create E path in
  match err with
  | Some _ => log_Fatalln err
  | None =>
      let* writeErr := file_WriteString E path data in
      match writeErr with
      | Some _ => log_Fatalln err
      | None => ret tt
      end
  end.

(** "Write image files": the part of the body after the metadata files. *)
Definition write_image (savePath item : string) (comicData : Comic) : M outcome :=
  let* imgResp := http_Get E (Img comicData) in
  match imgResp with
  | None => do log_Println (Some ErrTransport) then ret AssetTransportFailed
  | Some body =>
      let splitUrl := split_slash (Img comicData) in
      match last splitUrl with
      | None => panic
      | Some imgName =>
          if decide (imgName = EmptyString)
          then do printf (MsgNoImage item) then ret NoImage
          else
            let imgPath := savePath +:+ imgName in
            let* err := os_Create E imgPath in
            match err with
            | Some _ => log_Fatalln err
            | None =>
                let* err := io_Copy E imgPath body in
                match err with
                | Some _ => log_Fatalln err
                | None => ret Saved
                end
            end
      end
  end.

(** The body after its first line, up to and including [os.Mkdir], then the
    files; [write_meta] is the part that differs between the two source
    files. *)
Definition after_first_line (write_meta : string → string → Comic → M unit)
    (dbPath item : string) : M outcome :=
  let url := xkcdURL +:+ item +:+ "/" +:+ jsonFile in
  let* resp := http_Get E url in
  match resp with
  | None => do log_Println (Some ErrTransport) then ret MetaTransportFailed
  | Some body =>
      match json_decode E body with
      | None =>
          do printf (MsgDecodeError item) then
          do log_Println (Some ErrDecode) then
          ret MetaDecodeFailed
      | Some comicData =>
          let savePath := dbPath +:+ item +:+ "/" in
          let* err := os_Mkdir E savePath in
          match err with
          | Some _ => log_Fatalln err
          | None =>
              do write_meta savePath item comicData then
              write_image savePath item comicData
          end
      end
  end.

(** The whole body, from "Fetching Comic" on. *)
Definition worker_with (write_meta : string → string → Comic → M unit)
    (dbPath item : string) : M outcome :=
  do printf (MsgFetching item) then
  after_first_line write_meta dbPath item.
End Worker.

(** ** The pool of goroutines of [getComic] *)

Inductive wstate :=
  | Spawned                 (* [go func] started, before [tokens <- struct{}{}] *)
  | Running                 (* past the send, body not yet run *)
  | Returned (o : outcome)  (* body returned, deferred calls pending *)
  | Finished (o : outcome)  (* [wg.Done()] and [<-tokens] done *)
  | Died.                   (* the body ended the process *)

#[global] Instance wstate_eq_dec : EqDecision wstate.
Proof. solve_decision. Defined.

(** In flight: between acquiring and giving back. *)
Definition holding (st : wstate) : bool :=
  match st with
  | Running | Returned _ => true
  | _ => false
  end.

(** The body has been entered. *)
Definition ran (st : wstate) : bool :=
  match st with
  | Returned _ | Finished _ | Died => true
  | _ => false
  end.

Definition finished (st : wstate) : bool :=
  match st with
  | Finished _ => true
  | _ => false
  end.

Record pool := Pool {
  workers : list (string * wstate);  (* one goroutine per element of [dlList] *)
  tokens : nat;                      (* elements in the channel buffer *)
  pworld : world;
  exited : option Z }.               (* exit status, once the process is gone *)

Definition init_pool (dlList : list string) (w : world) : pool :=
  Pool ((λ item, (item, Spawned)) <$> dlList) 0 w None.

Definition in_flight (s : pool) : nat :=
  length (filter (λ x, holding x.2) (workers s)).

(** [wg.Wait()] returns. *)
Definition all_finished (s : pool) : Prop :=
  Forall (λ x, finished x.2) (workers s).

Section Pool.
(** [body item] is the goroutine body; [cap] is the capacity of the token
    channel, [None] when there is no channel (src/xkcd.go). *)
Context (body : string → M outcome) (cap : option nat).

(** A send on a buffered channel blocks while the buffer is full; a
    receive blocks while it is empty. *)
Definition can_send (n : nat) : Prop :=
  match cap with Some c => n < c | None => True end.
Definition after_send (n : nat) : nat :=
  match cap with Some _ => S n | None => n end.
Definition can_recv (n : nat) : Prop :=
  match cap with Some _ => 0 < n | None => True end.
Definition after_recv (n : nat) : nat :=
  match cap with Some _ => pred n | None => n end.

Inductive step : pool → pool → Prop :=
  | step_acquire s k item :
      exited s = None →
      workers s !! k = Some (item, Spawned) →
      can_send (tokens s) →
      step s (Pool (<[k := (item, Running)]> (workers s))
                   (after_send (tokens s)) (pworld s) None)
  | step_body s k item o w' :
      exited s = None →
      workers s !! k = Some (item, Running) →
      body item (pworld s) = (Ok o, w') →
      step s (Pool (<[k := (item, Returned o)]> (workers s))
                   (tokens s) w' None)
  | step_exit s k item c w' :
      exited s = None →
      workers s !! k = Some (item, Running) →
      body item (pworld s) = (Exit c, w') →
      step s (Pool (<[k := (item, Died)]> (workers s))
                   (tokens s) w' (Some c))
  | step_panic s k item w' :
      exited s = None →
      workers s !! k = Some (item, Running) →
      body item (pworld s) = (Panic, w') →
      step s (Pool (<[k := (item, Died)]> (workers s))
                   (tokens s) w' (Some 2%Z))
  | step_release s k item o :
      exited s = None →
      workers s !! k = Some (item, Returned o) →
      can_recv (tokens s) →
      step s (Pool (<[k := (item, Finished o)]> (workers s))
                   (after_recv (tokens s)) (pworld s) None).

(** Steps left before every goroutine has finished. *)
Definition rank (st : wstate) : nat :=
  match st with
  | Spawned => 3
  | Running => 2
  | Returned _ => 1
  | Finished _ | Died => 0
  end.

Definition steps_left (s : pool) : nat :=
  sum_list ((λ x, rank x.2) <$> workers s).
End Pool.

(** The items whose "Fetching Comic" line is in a trace, in order. *)
Fixpoint fetch_lines (tr : list event) : list string :=
  match tr with
  | [] => []
  | EvPrint (MsgFetching item) :: tr' => item :: fetch_lines tr'
  | _ :: tr' => fetch_lines tr'
  end.

(** ** src/xkcd.go: blocks of [rateLimit] comics *)

Module Batched.
Definition dbPath : string := "./xkcdDB/".

(** [input[lo:hi]]; [None] when the bounds are out of range. *)
Definition slice (input : list string) (lo hi : Z) : option (list string) :=
  if decide (0 ≤ lo ∧ lo ≤ hi ∧ hi ≤ Z.of_nat (length input))%Z
  then Some (take (Z.to_nat (hi - lo)) (drop (Z.to_nat lo) input))
  else None.

(** The first loop of [splitSlice], [n] iterations left. *)
Fixpoint splitSlice_loop (n : nat) (block : Z) (input : list string)
    (blockSize : Z) (output : list (list string)) : option (list (list string)) :=
  match n with
  | O => Some output
  | S n' =>
      let index := (block * blockSize)%Z in
      match slice input index (index + blockSize) with
      | None => None
      | Some b => splitSlice_loop n' (block + 1)%Z input blockSize (output ++ [b])
      end
  end.

(** [None] is a run-time panic: division by zero, a negative capacity for
    [make], or a slice out of range. *)
Definition splitSlice (input : list string) (blockSize : Z)
  : option (list (list string)) :=
  if decide (blockSize = 0)%Z then None
  else
    let nFullBlocks := Z.quot (Z.of_nat (length input)) blockSize in
    let rem := Z.rem (Z.of_nat (length input)) blockSize in
    if decide (nFullBlocks + 1 < 0)%Z then None
    else
      match splitSlice_loop (Z.to_nat nFullBlocks) 0%Z input blockSize [] with
      | None => None
      | Some output =>
          if decide (rem ≠ 0)%Z
          then
            let index := (nFullBlocks * blockSize)%Z in
            match slice input index (index + rem) with
            | None => None
            | Some b => Some (output ++ [b])
            end
          else Some output
      end.

Section WithEnv.
Context (E : Env).

(** Lines 163 to 183: both metadata files are created and written,
    whatever the fields hold. *)
Definition write_meta (savePath item : string) (comicData : Comic) : M unit :=
  do write_field E (savePath +:+ item +:+ "-alt") (Alt comicData) then
  write_field E (savePath +:+ item +:+ "-transcript") (Transcript comicData).

(** The goroutine of [getComic]. *)
Definition worker (item : string) : M outcome :=
  worker_with E write_meta dbPath item.

(** One call of [getComic]: a pool without a token channel. *)
Definition getComic_step : pool → pool → Prop := step worker None.

(** [main] up to the loop over the blocks: the blocks to download, or
    [None] when [main] has returned. *)
Definition main_prologue : M (option (list (list string))) :=
  let* r := latestComicNum E in
  let '(numComics, err) := r in
  match err with
  | Some _ => log_Fatalln err
  | None =>
      let rateLimit := 200%Z in
      let* err := os_Stat E dbPath in
      do (if IsNotExist err
          then
            do printf (MsgCreating dbPath) then
            let* err := os_Mkdir E dbPath in
            match err with
            | Some _ => log_Fatalln err
            | None => ret tt
            end
          else ret tt) then
      let* missing := missingComics E numComics dbPath in
      if decide (length missing = 0)
      then do printf MsgNoMissing then ret None
      else
        do printf (MsgFound (length missing)) then
        match splitSlice missing rateLimit with
        | None => panic
        | Some dlList => ret (Some dlList)
        end
  end.

(** The loop [for _, comics := range dlList { getComic(comics) }]: the
    blocks still to come and the pool of the current call. *)
Record loop_state := Loop {
  pending : list (list string);
  current : pool }.

Inductive loop_step : loop_state → loop_state → Prop :=
  | loop_inner bs s s' :
      getComic_step s s' →
      loop_step (Loop bs s) (Loop bs s')
  | loop_next b bs s :
      exited s = None →
      all_finished s →
      loop_step (Loop (b :: bs) s) (Loop bs (init_pool b (pworld s))).

Definition loop_init (dlList : list (list string)) (w : world) : loop_state :=
  Loop dlList (init_pool [] w).

(** A whole run of the program from a world to its end. *)
Inductive main_run (w : world) : result unit → world → Prop :=
  | main_exit c w' :
      main_prologue w = (Exit c, w') → main_run w (Exit c) w'
  | main_panic w' :
      main_prologue w = (Panic, w') → main_run w Panic w'
  | main_return w' :
      main_prologue w = (Ok None, w') → main_run w (Ok tt) w'
  | main_loop_done dlList w' s :
      main_prologue w = (Ok (Some dlList), w') →
      rtc loop_step (loop_init dlList w') (Loop [] s) →
      exited s = None → all_finished s →
      main_run w (Ok tt) (pworld s)
  | main_loop_exit dlList w' bs s c :
      main_prologue w = (Ok (Some dlList), w') →
      rtc loop_step (loop_init dlList w') (Loop bs s) →
      exited s = Some c →
      main_run w (Exit c) (pworld s).
End WithEnv.
End Batched.

(** ** src/unnamed/part_000: a counting semaphore *)

Module Semaphore.
(** "Add trailing /": [None] is the panic of the index expression. *)
Definition add_trailing_slash (dbPath : string) : option string :=
  match byte_at dbPath (len dbPath - 1) with
  | None => None
  | Some c => if decide (c ≠ "/"%char) then Some (dbPath +:+ "/") else Some dbPath
  end.

Section WithEnv.
Context (E : Env).

(** Lines 150 to 176: a metadata file only for a field that is not
    empty. *)
Definition write_meta (savePath item : string) (comicData : Comic) : M unit :=
  do (if decide (Alt comicData ≠ EmptyString)
      then write_field E (savePath +:+ item +:+ "-alt") (Alt comicData)
      else ret tt) then
  if decide (Transcript comicData ≠ EmptyString)
  then write_field E (savePath +:+ item +:+ "-transcript") (Transcript comicData)
  else ret tt.

(** The goroutine of [getComic], between acquiring and releasing its
    token. *)
Definition worker (dbPath item : string) : M outcome :=
  worker_with E write_meta dbPath item.

(** [getComic(dlList, dbPath, tokens)] with a channel of capacity
    [rateLimit]. *)
Definition getComic_step (dbPath : string) (rateLimit : nat)
  : pool → pool → Prop :=
  step (worker dbPath) (Some rateLimit).

(** [main] up to the call of [getComic]: the normalised path and the
    missing comics, or [None] when [main] has returned.  [make] panics
    on a negative channel capacity. *)
Definition main_prologue (rateLimit : Z) (dbPath : string)
  : M (option (string * list string)) :=
  match add_trailing_slash dbPath with
  | None => panic
  | Some dbPath =>
      let* r := latestComicNum E in
      let '(numComics, err) := r in
      match err with
      | Some _ => log_Fatalln err
      | None =>
          let* err := os_Stat E dbPath in
          do (if IsNotExist err
              then
                do printf (MsgCreating dbPath) then
                let* err := os_Mkdir E dbPath in
                match err with
                | Some _ => log_Fatalln err
                | None => ret tt
                end
              else ret tt) then
          let* missing := missingComics E numComics dbPath in
          if decide (length missing = 0)
          then do printf MsgNoMissing then ret None
          else
            if decide (rateLimit < 0)%Z then panic
            else ret (Some (dbPath, missing))
      end
  end.

(** A whole run of the program.  When no goroutine can move and some have
    not finished, the Go run time stops the process ("all goroutines are
    asleep"), exit status 2. *)
Inductive main_run (rateLimit : Z) (dbPath : string) (w : world)
  : result unit → world → Prop :=
  | main_exit c w' :
      main_prologue rateLimit dbPath w = (Exit c, w') →
      main_run rateLimit dbPath w (Exit c) w'
  | main_panic w' :
      main_prologue rateLimit dbPath w = (Panic, w') →
      main_run rateLimit dbPath w Panic w'
  | main_return w' :
      main_prologue rateLimit dbPath w = (Ok None, w') →
      main_run rateLimit dbPath w (Ok tt) w'
  | main_pool_done dbPath' missing w' s :
      main_prologue rateLimit dbPath w = (Ok (Some (dbPath', missing)), w') →
      rtc (getComic_step dbPath' (Z.to_nat rateLimit)) (init_pool missing w') s →
      exited s = None → all_finished s →
      main_run rateLimit dbPath w (Ok tt)
        (World (files (pworld s))
               (trace (pworld s) ++ [EvPrint (MsgDownloaded (length missing))]))
  | main_pool_exit dbPath' missing w' s c :
      main_prologue rateLimit dbPath w = (Ok (Some (dbPath', missing)), w') →
      rtc (getComic_step dbPath' (Z.to_nat rateLimit)) (init_pool missing w') s →
      exited s = Some c →
      main_run rateLimit dbPath w (Exit c) (pworld s)
  | main_pool_deadlock dbPath' missing w' s :
      main_prologue rateLimit dbPath w = (Ok (Some (dbPath', missing)), w') →
      rtc (getComic_step dbPath' (Z.to_nat rateLimit)) (init_pool missing w') s →
      exited s = None → ¬ all_finished s →
      (∀ s', ¬ getComic_step dbPath' (Z.to_nat rateLimit) s s') →
      main_run rateLimit dbPath w (Exit 2%Z) (pworld s).
End WithEnv.
End Semaphore.

(** ** Vocabulary of the statements *)

(** [os.Stat] on the directory of comic [i] reports that it does not exist. *)
Definition absent (E : Env) (fs : gmap string node) (dbPath : string) (i : Z) : Prop :=
  stat_err E fs (dbPath +:+ itoa i) = Some (ErrFs ENOENT).

#[global] Instance absent_dec E fs dbPath i : Decision (absent E fs dbPath i).
Proof. unfold absent. apply _. Defined.

(** The existence checks of a scan over the indices [idx]. *)
Definition scan_events (dbPath : string) (idx : list Z) : list event :=
  (λ i, EvStat (dbPath +:+ itoa i)) <$> idx.

(** The [k]-th full block of [input] for blocks of [b] elements. *)
Definition block_at (input : list string) (b k : nat) : list string :=
  take b (drop (k * b) input).

(** The events of [w'] that came after those of [w]. *)
Definition events_since (w w' : world) : list event :=
  drop (length (trace w)) (trace w').

(** Entries are never removed, and a directory stays a directory. *)
Definition grows (fs fs' : gmap string node) : Prop :=
  ∀ p, (is_Some (fs !! p) → is_Some (fs' !! p))
       ∧ (fs !! p = Some Dir → fs' !! p = Some Dir).

Definition has_failure (evs : list event) : Prop :=
  Exists (λ e, fs_failure e) evs.

(** What every piece of the goroutine body after its first line does: it
    appends to the trace, only adds to the archive, never panics, exits only
    with status 1 and exactly when a call that changes the archive failed,
    and prints no "Fetching Comic" line. *)
Definition orderly {A} (m : M A) : Prop :=
  ∀ w, ∃ evs,
    trace (m w).2 = trace w ++ evs
    ∧ grows (files w) (files (m w).2)
    ∧ (m w).1 ≠ Panic
    ∧ (∀ c, (m w).1 = Exit c → c = 1%Z)
    ∧ (has_failure evs ↔ ∃ c, (m w).1 = Exit c)
    ∧ fetch_lines evs = [].

(** The invariant of a pool with a channel of capacity [cap] (or none),
    started on [dlList] in the world [w0]. *)
Record pool_inv (cap : option nat) (dlList : list string) (w0 : world)
    (s : pool) : Prop := {
  inv_items : (workers s).*1 = dlList;
  inv_tokens : ∀ c, cap = Some c →
    in_flight s ≤ tokens s ∧ tokens s ≤ c
    ∧ (exited s = None → tokens s = in_flight s);
  inv_died : exited s = None → Forall (λ x, x.2 ≠ Died) (workers s);
  inv_code : ∀ c, exited s = Some c → c = 1%Z;
  inv_lines : ∃ evs, trace (pworld s) = trace w0 ++ evs
              ∧ fetch_lines evs ≡ₚ (filter (λ x, ran x.2) (workers s)).*1;
  inv_grows : grows (files w0) (files (pworld s)) }.

(** The invariant of the loop over the blocks of src/xkcd.go: the blocks
    already downloaded, the block of the current pool and the blocks to
    come make up the missing comics, and no block is longer than the block
    size. *)
Definition loop_inv (blockSize : nat) (missing : list string) (w0 : world)
    (st : Batched.loop_state) : Prop :=
  ∃ (done cur : list string) (wc : world),
    missing = done ++ cur ++ concat (Batched.pending st)
    ∧ length cur ≤ blockSize
    ∧ Forall (λ b, length b ≤ blockSize) (Batched.pending st)
    ∧ pool_inv None cur wc (Batched.current st)
    ∧ (∃ evs, trace wc = trace w0 ++ evs ∧ fetch_lines evs ≡ₚ done)
    ∧ grows (files w0) (files wc).

(** The metadata of [item] cannot be fetched or does not decode. *)
Definition meta_fails (E : Env) (item : string) : Prop :=
  http_get E (xkcdURL +:+ item +:+ "/" +:+ jsonFile) = None
  ∨ ∃ body, http_get E (xkcdURL +:+ item +:+ "/" +:+ jsonFile) = Some body
            ∧ json_decode E body = None.

(** A call that creates a directory or a file, or writes to one. *)
Definition changes_archive (e : event) : bool :=
  match e with
  | EvMkdir _ _ | EvCreate _ _ | EvWrite _ _ _ | EvCopy _ _ _ => true
  | _ => false
  end.

(** Every entry lies in a directory that exists. *)
Definition tidy (fs : gmap string node) : Prop :=
  ∀ d name, is_Some (fs !! clean (d +:+ "/" +:+ name)) → is_Some (fs !! clean d).

(** A regular file at [p]. *)
Definition is_file (fs : gmap string node) (p : string) : Prop :=
  ∃ data, fs !! clean p = Some (File data).

(** A file name: not empty and not ending in a separator. *)
Definition plain (name : string) : Prop :=
  ∃ q c, name = q +:+ String c EmptyString ∧ c ≠ "/"%char.

(** What every piece of [main] before [getComic] does: it appends to the
    trace, only adds to the archive, prints no "Fetching Comic" line, and
    exits only with status 1. *)
Definition quiet {A} (m : M A) : Prop :=
  ∀ w, ∃ evs,
    trace (m w).2 = trace w ++ evs
    ∧ grows (files w) (files (m w).2)
    ∧ fetch_lines evs = []
    ∧ (∀ c, (m w).1 = Exit c → c = 1%Z).

(** The answer to the request for the latest comic cannot be used: the GET
    fails or its body does not decode. *)
Definition probe_fails (E : Env) (e : error) : Prop :=
  (http_get E (xkcdURL +:+ jsonFile) = None ∧ e = ErrTransport)
  ∨ (∃ body, http_get E (xkcdURL +:+ jsonFile) = Some body
             ∧ json_decode E body = None ∧ e = ErrDecode).

(** [m] changes no entry of the archive outside the paths [P]. *)
Definition confined {A} (P : string → Prop) (m : M A) : Prop :=
  ∀ w p, ¬ P p → files (m w).2 !! p = files w !! p.

(** The paths that begin with [prefix], as the system calls take them. *)
Definition below (prefix : string) (p : string) : Prop :=
  ∃ rest, p = clean (prefix +:+ rest).

(** The exit status of the process for the way [main] ended: 0 when it
    returns, the argument of [os.Exit], and 2 after a panic, which nothing in
    the program recovers. *)
Definition exit_status (r : result unit) : Z :=
  match r with
  | Ok _ => 0
  | Exit c => c
  | Panic => 2
  end.

(** ** Example worlds *)

(** A catalogue of five comics: 1 has an image and alt text; 2 has an image
    URL ending in a separator; the metadata of 3 cannot be fetched; 4 has an
    empty image URL, which the HTTP client rejects; the metadata of 5 does
    not decode. *)
Definition demo_http (url : string) : option string :=
  if decide (url = "https://xkcd.com/info.0.json") then Some "latest"
  else if decide (url = "https://xkcd.com/1/info.0.json") then Some "one"
  else if decide (url = "https://xkcd.com/2/info.0.json") then Some "two"
  else if decide (url = "https://xkcd.com/4/info.0.json") then Some "four"
  else if decide (url = "https://xkcd.com/5/info.0.json") then Some "junk"
  else if decide (url = "https://imgs.xkcd.com/comics/a.png") then Some "PNG"
  else if decide (url = "https://imgs.xkcd.com/comics/") then Some "forbidden"
  else None.

Definition demo_json (body : string) : option Comic :=
  if decide (body = "latest") then Some (mkComic 5 "" "" "")
  else if decide (body = "one")
  then Some (mkComic 1 "https://imgs.xkcd.com/comics/a.png" "" "alt text")
  else if decide (body = "two")
  then Some (mkComic 2 "https://imgs.xkcd.com/comics/" "transcript" "")
  else if decide (body = "four") then Some (mkComic 4 "" "" "alt text")
  else None.

(** The capacity limit of a [[]string] on 64-bit Linux: 2^48 bytes of
    address space, 16 bytes for a string header. *)
Definition demo_max_cap : Z := 17592186044416.

(** No system call fails for a reason of the environment. *)
Definition demo_env : Env := mkEnv demo_http demo_json (λ _ _, false) demo_max_cap.

(** The same catalogue, but no directory can be created. *)
Definition readonly_env : Env :=
  mkEnv demo_http demo_json
        (λ o _, match o with OpMkdir => true | _ => false end) demo_max_cap.

(** A comic whose image is named like its own alt file, and which has no alt
    text and no transcript. *)
Definition clash_env : Env :=
  mkEnv (λ url, if decide (url = "https://xkcd.com/7/info.0.json") then Some "seven"
                else if decide (url = "https://imgs.xkcd.com/comics/7-alt")
                then Some "PNG" else None)
        (λ body, if decide (body = "seven")
                 then Some (mkComic 7 "https://imgs.xkcd.com/comics/7-alt" "" "")
                 else None)
        (λ _ _, false) demo_max_cap.

(** A catalogue of one comic, whose metadata cannot be fetched. *)
Definition offline_env : Env :=
  mkEnv (λ url, if decide (url = "https://xkcd.com/info.0.json") then Some "latest"
                else None)
        (λ body, if decide (body = "latest") then Some (mkComic 1 "" "" "") else None)
        (λ _ _, false) demo_max_cap.

(** An archive root [db] without comics. *)
Definition empty_archive : world := World {["db" := Dir]} [].

(** * Theorems *)

(** ** Strings *)

Lemma clean_app_slash p : clean (p +:+ "/") = clean p.
Proof.
  induction p as [|c p IH]; [reflexivity|].
  simpl. now rewrite IH.
Qed.

Lemma itoa_inj i j : itoa i = itoa j → i = j.
Proof.
  unfold itoa. intros H.
  assert (Hnz : ∀ z, Z.to_int z ≠ Decimal.Pos Decimal.Nil
                     ∧ Z.to_int z ≠ Decimal.Neg Decimal.Nil).
  { intros [|p|p]; cbn; split; try discriminate;
      intros [= Hp]; now apply (Unsigned.to_uint_nonnil p). }
  apply DecimalZ.to_int_inj.
  pose proof (NilZero.isi (Z.to_int i) (proj1 (Hnz i)) (proj2 (Hnz i))) as Hi.
  pose proof (NilZero.isi (Z.to_int j) (proj1 (Hnz j)) (proj2 (Hnz j))) as Hj.
  rewrite H in Hi. congruence.
Qed.

Lemma world_eta w : World (files w) (trace w) = w.
Proof. now destruct w. Qed.

(** ** The archive scanner *)

Section Scanner.
Context (E : Env) (dbPath : string).

Lemma missingComics_loop_eq n i dlList w :
  missingComics_loop E n i dbPath dlList w =
  (Ok (dlList ++ (itoa <$> filter (λ j, j ≠ 404%Z ∧ absent E (files w) dbPath j)
                             (seqZ i (Z.of_nat n)))),
   World (files w)
         (trace w ++ scan_events dbPath (filter (λ j, j ≠ 404%Z) (seqZ i (Z.of_nat n))))).
Proof.
  revert i dlList w. induction n as [|n IH]; intros i dlList w.
  - cbn. now rewrite !app_nil_r, world_eta.
  - rewrite seqZ_cons by lia.
    replace (Z.pred (Z.of_nat (S n))) with (Z.of_nat n) by lia.
    replace (Z.succ i) with (i + 1)%Z by lia.
    cbn [missingComics_loop]. rewrite !filter_cons.
    destruct (decide (i = 404%Z)) as [->|Hi].
    + rewrite IH. rewrite decide_False by tauto. rewrite decide_False by tauto.
      reflexivity.
    + unfold bind at 1. cbn [os_Stat]. rewrite (decide_True _ _ Hi).
      destruct (decide (absent E (files w) dbPath i)) as [Ha|Ha].
      * rewrite decide_True by tauto. rewrite Ha. cbn [IsNotExist].
        rewrite IH. cbn [files trace]. unfold scan_events.
        rewrite fmap_cons, <- !app_assoc. reflexivity.
      * rewrite decide_False by tauto.
        assert (IsNotExist (stat_err E (files w) (dbPath +:+ itoa i)) = false) as ->.
        { unfold absent in Ha.
          destruct (stat_err E (files w) (dbPath +:+ itoa i)) as [[| |[]]|];
            cbn; congruence. }
        rewrite IH. cbn [files trace]. unfold scan_events.
        rewrite fmap_cons, <- !app_assoc. reflexivity.
Qed.

Lemma seqZ_sorted m n : StronglySorted Z.lt (seqZ m n).
Proof.
  destruct (decide (n ≤ 0)%Z) as [Hn|Hn]; [rewrite seqZ_nil by lia; constructor|].
  rewrite <- (Z2Nat.id n) by lia. generalize (Z.to_nat n) as k. clear.
  intros k. revert m. induction k as [|k IH]; intros m; [constructor|].
  rewrite seqZ_cons by lia.
  replace (Z.pred (Z.of_nat (S k))) with (Z.of_nat k) by lia.
  constructor; [apply IH|].
  apply Forall_seqZ. lia.
Qed.

Lemma filter_sorted (P : Z → Prop) `{∀ x, Decision (P x)} l :
  StronglySorted Z.lt l → StronglySorted Z.lt (filter P l).
Proof.
  induction 1 as [|x l Hs IH Hx]; [constructor|].
  rewrite filter_cons. destruct (decide (P x)); [|assumption].
  constructor; [assumption|].
  apply List.Forall_forall. intros y Hy. rewrite <- list_elem_of_In in Hy.
  apply list_elem_of_filter in Hy as [_ Hy].
  rewrite List.Forall_forall in Hx. now apply Hx, list_elem_of_In.
Qed.

(** C1, as amended.  For every bound [N ≥ 1] that [make] accepts as a
    capacity and every archive, [missingComics] returns, without touching
    the files and with one existence check per index other than 404, the
    decimal strings of exactly the indices of [1..N] other than 404 for which
    [os.Stat] fails with a not-exist error, in increasing order; ["404"] is
    never among them, and the result is the empty list when no check fails
    in that way.  Where the check itself does not fail for another reason,
    it fails in that way exactly when the archive has no entry of that name,
    be it a directory or a regular file.  For a bound beyond the capacity
    that [make] accepts the call panics before any check. *)
Theorem missingComics_correct (N : Z) (w : world) :
  (1 ≤ N)%Z →
  ((N ≤ max_cap E)%Z →
   ∃ idx : list Z,
     missingComics E N dbPath w =
       (Ok (itoa <$> idx),
        World (files w)
              (trace w ++ scan_events dbPath (filter (λ j, j ≠ 404%Z) (seqZ 1 N))))
     ∧ StronglySorted Z.lt idx
     ∧ (∀ i, i ∈ idx ↔ (1 ≤ i ≤ N)%Z ∧ i ≠ 404%Z ∧ absent E (files w) dbPath i)
     ∧ ("404"%string ∉ itoa <$> idx)
     ∧ ((∀ i, (1 ≤ i ≤ N)%Z → i ≠ 404%Z → ¬ absent E (files w) dbPath i) → idx = [])
     ∧ (∀ i, io_fault E OpStat (dbPath +:+ itoa i) = false →
          absent E (files w) dbPath i ↔ files w !! clean (dbPath +:+ itoa i) = None))
  ∧ ((max_cap E < N)%Z → missingComics E N dbPath w = (Panic, w)).
Proof.
  intros HN. split.
  2:{ intros Hbig. unfold missingComics. now rewrite decide_True by lia. }
  intros Hcap.
  exists (filter (λ j, j ≠ 404%Z ∧ absent E (files w) dbPath j) (seqZ 1 N)).
  assert (Hmem : ∀ i, i ∈ filter (λ j, j ≠ 404%Z ∧ absent E (files w) dbPath j) (seqZ 1 N)
                      ↔ (1 ≤ i ≤ N)%Z ∧ i ≠ 404%Z ∧ absent E (files w) dbPath i).
  { intros i. rewrite list_elem_of_filter, elem_of_seqZ. intuition lia. }
  split_and!.
  - unfold missingComics. rewrite decide_False by lia.
    rewrite missingComics_loop_eq, Z2Nat.id by lia. reflexivity.
  - apply filter_sorted, seqZ_sorted.
  - exact Hmem.
  - intros (i & Hi & Hin)%list_elem_of_fmap.
    change "404"%string with (itoa 404) in Hi. apply itoa_inj in Hi. subst i.
    apply Hmem in Hin. tauto.
  - intros Hall. apply elem_of_nil_inv. intros i Hin%Hmem.
    destruct Hin as (Hr & Hne & Ha). exact (Hall i Hr Hne Ha).
  - intros i Hok. unfold absent, stat_err. rewrite Hok.
    destruct (files w !! clean (dbPath +:+ itoa i)); split; congruence.
Qed.

End Scanner.

(** ** The batcher *)

Section Batcher.
Context (input : list string) (b : nat).
Hypothesis b_pos : 0 < b.

Lemma slice_block k :
  (S k * b ≤ length input)%nat →
  Batched.slice input (Z.of_nat k * Z.of_nat b) (Z.of_nat k * Z.of_nat b + Z.of_nat b)
  = Some (block_at input b k).
Proof.
  intros Hk. unfold Batched.slice, block_at.
  rewrite decide_True by nia. f_equal.
  replace (Z.to_nat (Z.of_nat k * Z.of_nat b + Z.of_nat b - Z.of_nat k * Z.of_nat b))
    with b by lia.
  replace (Z.to_nat (Z.of_nat k * Z.of_nat b)) with (k * b)%nat by lia.
  reflexivity.
Qed.

Lemma splitSlice_loop_eq n k output :
  ((k + n) * b ≤ length input)%nat →
  Batched.splitSlice_loop n (Z.of_nat k) input (Z.of_nat b) output
  = Some (output ++ (block_at input b <$> seq k n)).
Proof.
  revert k output. induction n as [|n IH]; intros k output Hn.
  - cbn. now rewrite app_nil_r.
  - cbn [Batched.splitSlice_loop]. rewrite slice_block by nia.
    replace (Z.of_nat k + 1)%Z with (Z.of_nat (S k)) by lia.
    rewrite IH by nia. cbn [seq fmap list_fmap]. now rewrite <- app_assoc.
Qed.

Lemma concat_blocks n :
  concat (block_at input b <$> seq 0 n) = take (n * b) input.
Proof.
  induction n as [|n IH]; [reflexivity|].
  rewrite seq_S, fmap_app, concat_app, IH. cbn [fmap list_fmap concat].
  rewrite app_nil_r. unfold block_at. cbn [Nat.add].
  rewrite take_take_drop. f_equal. lia.
Qed.

Lemma length_block k :
  (S k * b ≤ length input)%nat → length (block_at input b k) = b.
Proof.
  intros Hk. unfold block_at. rewrite length_take, length_drop. nia.
Qed.

(** The blocks [splitSlice] returns, in closed form. *)
Lemma splitSlice_eq :
  Batched.splitSlice input (Z.of_nat b) =
  Some ((block_at input b <$> seq 0 (length input / b)) ++
        (if decide (length input mod b = 0)%nat then []
         else [take (length input mod b) (drop (length input / b * b) input)])).
Proof.
  pose proof (Nat.div_mod_eq (length input) b) as Hdm.
  pose proof (Nat.mod_upper_bound (length input) b ltac:(lia)) as Hlt.
  unfold Batched.splitSlice.
  rewrite decide_False by lia.
  rewrite Z.quot_div_nonneg, Z.rem_mod_nonneg by lia.
  rewrite <- Nat2Z.inj_div, <- Nat2Z.inj_mod.
  rewrite decide_False by lia.
  rewrite Nat2Z.id.
  rewrite (splitSlice_loop_eq _ 0 []) by (cbn; nia).
  cbn [app].
  destruct (decide (length input mod b = 0)%nat) as [Hr|Hr].
  - rewrite decide_False by lia. now rewrite app_nil_r.
  - rewrite decide_True by lia.
    unfold Batched.slice. rewrite decide_True by nia.
    generalize (length input `div` b) (length input `mod` b). intros q r.
    replace (Z.to_nat (Z.of_nat q * Z.of_nat b + Z.of_nat r - Z.of_nat q * Z.of_nat b))
      with r by lia.
    replace (Z.to_nat (Z.of_nat q * Z.of_nat b)) with (q * b)%nat by lia.
    reflexivity.
Qed.

End Batcher.

(** C7.  For every input of length [L] and every block size [B ≥ 1],
    [splitSlice] returns [ceil(L/B)] blocks; every block but the last has
    [B] elements, the last one has between 1 and [B] elements ([L mod B] of
    them when that is not zero, [B] otherwise), and the blocks concatenated
    in order are the input. *)
Theorem splitSlice_correct (input : list string) (B : Z) :
  (1 ≤ B)%Z →
  ∃ chunks : list (list string),
    Batched.splitSlice input B = Some chunks
    ∧ Z.of_nat (length chunks) = ((Z.of_nat (length input) + B - 1) / B)%Z
    ∧ (∀ k c, chunks !! k = Some c → S k < length chunks → Z.of_nat (length c) = B)
    ∧ (∀ c, last chunks = Some c →
         (1 ≤ Z.of_nat (length c) ≤ B)%Z
         ∧ Z.of_nat (length c) =
             if decide (Z.of_nat (length input) mod B = 0)%Z then B
             else (Z.of_nat (length input) mod B)%Z)
    ∧ concat chunks = input.
Proof.
  intros HB.
  set (b := Z.to_nat B). assert (Hb : 0 < b) by lia.
  replace B with (Z.of_nat b) by lia. clearbody b. clear HB B.
  pose proof (Nat.div_mod_eq (length input) b) as Hdm.
  pose proof (Nat.mod_upper_bound (length input) b ltac:(lia)) as Hlt.
  set (q := (length input / b)%nat) in *. set (r := (length input mod b)%nat) in *.
  eexists. split; [apply splitSlice_eq; assumption|].
  fold q r.
  assert (Hceil : ((Z.of_nat (length input) + Z.of_nat b - 1) / Z.of_nat b)%Z
                  = Z.of_nat (q + if decide (r = 0)%nat then 0 else 1)).
  { symmetry. destruct (decide (r = 0)%nat) as [Hr|Hr].
    - apply (Z.div_unique_pos _ _ _ (Z.of_nat b - 1)); lia.
    - apply (Z.div_unique_pos _ _ _ (Z.of_nat r - 1)); lia. }
  assert (Hmod : (Z.of_nat (length input) mod Z.of_nat b)%Z = Z.of_nat r).
  { unfold r. now rewrite Nat2Z.inj_mod. }
  assert (Hblk : ∀ k, k < q → length (block_at input b k) = b).
  { intros k Hk. apply length_block; [assumption|]. nia. }
  split; [|split; [|split]].
  - rewrite Hceil, length_app, length_fmap, length_seq.
    destruct (decide (r = 0)%nat); cbn [length]; lia.
  - intros k c Hk Hlen.
    rewrite length_app, length_fmap, length_seq in Hlen.
    rewrite lookup_app_l in Hk.
    2:{ rewrite length_fmap, length_seq. destruct (decide (r = 0)%nat); cbn in Hlen; lia. }
    rewrite list_lookup_fmap in Hk.
    destruct (seq 0 q !! k) as [k'|] eqn:Hs; [|discriminate].
    apply lookup_seq in Hs as [-> Hkq]. injection Hk as <-.
    rewrite Hblk by lia. reflexivity.
  - intros c Hc. rewrite Hmod.
    destruct (decide (r = 0)%nat) as [Hr|Hr].
    + rewrite app_nil_r, fmap_last in Hc.
      rewrite decide_True by lia.
      destruct q as [|q']; [discriminate|].
      rewrite seq_S, last_snoc in Hc. injection Hc as <-.
      rewrite Hblk by lia. lia.
    + rewrite last_snoc in Hc. injection Hc as <-.
      rewrite decide_False by lia.
      rewrite length_take, length_drop. lia.
  - rewrite concat_app, concat_blocks by assumption.
    destruct (decide (r = 0)%nat) as [Hr|Hr]; cbn [concat].
    + rewrite app_nil_r. apply take_ge. lia.
    + rewrite app_nil_r, take_take_drop. apply take_ge. lia.
Qed.

(** ** The goroutine body: what holds on every path *)

Lemma grows_refl fs : grows fs fs.
Proof. intros p. tauto. Qed.

Lemma grows_trans fs1 fs2 fs3 : grows fs1 fs2 → grows fs2 fs3 → grows fs1 fs3.
Proof.
  intros H12 H23 p. destruct (H12 p) as [Ha Hb], (H23 p) as [Hc Hd]. split; auto.
Qed.

Lemma grows_insert_fresh fs p n : fs !! p = None → grows fs (<[p := n]> fs).
Proof.
  intros Hp q. destruct (decide (p = q)) as [<-|Hne].
  - rewrite Hp. split; [intros [? [=]]|discriminate].
  - rewrite lookup_insert_ne by assumption. tauto.
Qed.

Lemma grows_insert_file fs p n : fs !! p ≠ Some Dir → grows fs (<[p := n]> fs).
Proof.
  intros Hp q. destruct (decide (p = q)) as [<-|Hne].
  - rewrite lookup_insert_eq. split; [eauto|congruence].
  - rewrite lookup_insert_ne by assumption. tauto.
Qed.

Lemma fetch_lines_app tr1 tr2 :
  fetch_lines (tr1 ++ tr2) = fetch_lines tr1 ++ fetch_lines tr2.
Proof.
  induction tr1 as [|e tr1 IH]; [reflexivity|].
  destruct e as [[]| | | | | | |]; cbn; now rewrite ?IH.
Qed.

Lemma has_failure_app evs1 evs2 :
  has_failure (evs1 ++ evs2) ↔ has_failure evs1 ∨ has_failure evs2.
Proof. apply Exists_app. Qed.

Lemma has_failure_nil : ¬ has_failure [].
Proof. intros H. inversion H. Qed.

Lemma has_failure_one e : has_failure [e] ↔ fs_failure e.
Proof.
  split; [|now constructor].
  intros H. inversion H as [? ? He|? ? He]; [exact He|inversion He].
Qed.

Create HintDb orderly.

Lemma orderly_ret {A} (a : A) : orderly (ret a).
Proof.
  intros w. exists []. cbn. rewrite app_nil_r. split_and!.
  - reflexivity.
  - apply grows_refl.
  - discriminate.
  - discriminate.
  - split; [intros H; now apply has_failure_nil in H|intros [c [=]]].
  - reflexivity.
Qed.

Lemma orderly_bind {A B} (m : M A) (k : A → M B) :
  orderly m → (∀ a, orderly (k a)) → orderly (bind m k).
Proof.
  intros Hm Hk w. destruct (Hm w) as (evs1 & Ht1 & Hg1 & Hp1 & Hc1 & Hf1 & Hl1).
  unfold bind. destruct (m w) as [[a|c|] w1]; cbn [fst snd] in *.
  - destruct (Hk a w1) as (evs2 & Ht2 & Hg2 & Hp2 & Hc2 & Hf2 & Hl2).
    exists (evs1 ++ evs2). rewrite Ht2, Ht1, app_assoc. split_and!.
    + reflexivity.
    + eapply grows_trans; eassumption.
    + assumption.
    + assumption.
    + rewrite has_failure_app, <- Hf2. split; [|tauto].
      intros [H|H]; [|assumption]. apply Hf1 in H as [c [=]].
    + now rewrite fetch_lines_app, Hl1, Hl2.
  - exists evs1. split_and!; try assumption.
    + discriminate.
    + intros c0 [= <-]. now apply (Hc1 c).
    + split; [intros _; eauto|intros _; apply Hf1; eauto].
  - congruence.
Qed.

Lemma orderly_emit e :
  fs_failure e = false → fetch_lines [e] = [] → orderly (emit e).
Proof.
  intros Hf Hl w. exists [e]. cbn. split_and!.
  - reflexivity.
  - apply grows_refl.
  - discriminate.
  - discriminate.
  - rewrite has_failure_one, Hf. split; [contradiction|intros [c [=]]].
  - assumption.
Qed.

Lemma orderly_http_Get E url : orderly (http_Get E url).
Proof.
  intros w. exists [EvHttpGet url]. cbn. split_and!.
  - reflexivity.
  - apply grows_refl.
  - discriminate.
  - discriminate.
  - rewrite has_failure_one. split; [contradiction|intros [c [=]]].
  - reflexivity.
Qed.

(** A call that changes the archive, followed by [log.Fatalln] when it
    failed. *)
Lemma orderly_checked {A} (call : M (option error)) (f : option error → M A)
    (ev : option error → event) :
  (∀ w, (∃ fs', call w = (Ok None, World fs' (trace w ++ [ev None]))
                ∧ grows (files w) fs')
        ∨ (∃ e, call w = (Ok (Some e), World (files w) (trace w ++ [ev (Some e)])))) →
  (∀ e, fs_failure (ev (Some e)) = true) → fs_failure (ev None) = false →
  (∀ o, fetch_lines [ev o] = []) →
  (∀ e, ∃ bad, f (Some e) = log_Fatalln bad) →
  orderly (f None) →
  orderly (bind call f).
Proof.
  intros Hcall Hbad Hgood Hl Hfatal Hk w. unfold bind.
  destruct (Hcall w) as [[fs' [-> Hg]]|[e ->]].
  - destruct (Hk (World fs' (trace w ++ [ev None])))
      as (evs & Ht & Hg2 & Hp & Hc & Hf & Hl2). cbn [files trace] in *.
    exists (ev None :: evs). rewrite Ht, <- app_assoc. cbn [app]. split_and!.
    + reflexivity.
    + eapply grows_trans; eassumption.
    + assumption.
    + assumption.
    + rewrite <- Hf. unfold has_failure. rewrite Exists_cons, Hgood.
      split; [intros [[]|H]; exact H|tauto].
    + change (ev None :: evs) with ([ev None] ++ evs).
      now rewrite fetch_lines_app, Hl, Hl2.
  - destruct (Hfatal e) as [bad ->].
    exists [ev (Some e); EvLog bad]. unfold log_Fatalln.
    cbn [fst snd files trace]. rewrite <- app_assoc. cbn [app]. split_and!.
    + reflexivity.
    + apply grows_refl.
    + discriminate.
    + now intros c [= <-].
    + split; [eauto|]. intros _. constructor. now rewrite Hbad.
    + change [ev (Some e); EvLog bad] with ([ev (Some e)] ++ [EvLog bad]).
      now rewrite fetch_lines_app, Hl.
Qed.

Section Calls.
Context (E : Env).

Lemma os_Mkdir_call p w :
  (∃ fs', os_Mkdir E p w = (Ok None, World fs' (trace w ++ [EvMkdir p None]))
          ∧ grows (files w) fs')
  ∨ (∃ e, os_Mkdir E p w = (Ok (Some e), World (files w) (trace w ++ [EvMkdir p (Some e)]))).
Proof.
  unfold os_Mkdir, mkdir_fs. destruct (io_fault E OpMkdir p); [right; eauto|].
  destruct (files w !! clean p) eqn:Hp; [right; eauto|].
  left. eexists. split; [reflexivity|]. now apply grows_insert_fresh.
Qed.

Lemma os_Create_call p w :
  (∃ fs', os_Create E p w = (Ok None, World fs' (trace w ++ [EvCreate p None]))
          ∧ grows (files w) fs')
  ∨ (∃ e, os_Create E p w = (Ok (Some e), World (files w) (trace w ++ [EvCreate p (Some e)]))).
Proof.
  unfold os_Create, create_fs. destruct (io_fault E OpCreate p); [right; eauto|].
  destruct (files w !! clean p) as [[|d]|] eqn:Hp; [right; eauto| |];
    (left; eexists; split; [reflexivity|]; apply grows_insert_file; congruence).
Qed.

Lemma append_call o p data w :
  let '(e, fs') := append_fs E o (files w) p data in
  grows (files w) fs' ∧ (e ≠ None → fs' = files w).
Proof.
  unfold append_fs. destruct (io_fault E o p); [split; [apply grows_refl|reflexivity]|].
  destruct (files w !! clean p) as [[|d]|] eqn:Hp;
    try (split; [apply grows_refl|reflexivity]).
  split; [|congruence]. apply grows_insert_file. congruence.
Qed.

Lemma file_WriteString_call p data w :
  (∃ fs', file_WriteString E p data w
          = (Ok None, World fs' (trace w ++ [EvWrite p data None]))
          ∧ grows (files w) fs')
  ∨ (∃ e, file_WriteString E p data w
          = (Ok (Some e), World (files w) (trace w ++ [EvWrite p data (Some e)]))).
Proof.
  unfold file_WriteString. pose proof (append_call OpWrite p data w) as H.
  destruct (append_fs E OpWrite (files w) p data) as [[e|] fs'].
  - right. exists e. destruct H as [_ H]. now rewrite H.
  - left. exists fs'. tauto.
Qed.

Lemma io_Copy_call p data w :
  (∃ fs', io_Copy E p data w
          = (Ok None, World fs' (trace w ++ [EvCopy p data None]))
          ∧ grows (files w) fs')
  ∨ (∃ e, io_Copy E p data w
          = (Ok (Some e), World (files w) (trace w ++ [EvCopy p data (Some e)]))).
Proof.
  unfold io_Copy. pose proof (append_call OpCopy p data w) as H.
  destruct (append_fs E OpCopy (files w) p data) as [[e|] fs'].
  - right. exists e. destruct H as [_ H]. now rewrite H.
  - left. exists fs'. tauto.
Qed.

Ltac checked_call H :=
  eapply orderly_checked;
  [ intros w; apply H
  | reflexivity | reflexivity | intros []; reflexivity
  | intros e; eexists; reflexivity
  | ].

Lemma orderly_write_field p data : orderly (write_field E p data).
Proof.
  unfold write_field.
  checked_call os_Create_call. checked_call file_WriteString_call.
  apply orderly_ret.
Qed.

Lemma split_slash_nonempty s : split_slash s ≠ [].
Proof.
  destruct s as [|c s]; [discriminate|]. cbn [split_slash].
  destruct (Ascii.eqb c "/"); [discriminate|].
  destruct (split_slash s); discriminate.
Qed.

Lemma split_slash_last s : ∃ seg, last (split_slash s) = Some seg.
Proof.
  destruct (last (split_slash s)) as [seg|] eqn:Hl; [eauto|].
  apply last_None in Hl. now apply split_slash_nonempty in Hl.
Qed.

Lemma orderly_printf msg :
  (∀ item, msg ≠ MsgFetching item) → orderly (printf msg).
Proof.
  intros H. apply orderly_emit; [reflexivity|].
  destruct msg as [| | | |item| |]; try reflexivity. now destruct (H item).
Qed.

Lemma orderly_log_Println e : orderly (log_Println e).
Proof. now apply orderly_emit. Qed.

Lemma orderly_write_image savePath item comicData :
  orderly (write_image E savePath item comicData).
Proof.
  unfold write_image. apply orderly_bind; [apply orderly_http_Get|].
  intros [body|].
  - destruct (split_slash_last (Img comicData)) as [seg ->].
    destruct (decide (seg = EmptyString)).
    + apply orderly_bind; [now apply orderly_printf|intros _; apply orderly_ret].
    + checked_call os_Create_call. checked_call io_Copy_call. apply orderly_ret.
  - apply orderly_bind; [apply orderly_log_Println|intros _; apply orderly_ret].
Qed.

Lemma orderly_write_meta_batched savePath item comicData :
  orderly (Batched.write_meta E savePath item comicData).
Proof.
  unfold Batched.write_meta.
  apply orderly_bind; intros; apply orderly_write_field.
Qed.

Lemma orderly_write_meta_semaphore savePath item comicData :
  orderly (Semaphore.write_meta E savePath item comicData).
Proof.
  unfold Semaphore.write_meta. apply orderly_bind.
  - destruct (decide _); [apply orderly_write_field|apply orderly_ret].
  - intros _. destruct (decide _); [apply orderly_write_field|apply orderly_ret].
Qed.

Lemma orderly_after_first_line write_meta dbPath item :
  (∀ savePath item comicData, orderly (write_meta savePath item comicData)) →
  orderly (after_first_line E write_meta dbPath item).
Proof.
  intros Hwm. unfold after_first_line.
  apply orderly_bind; [apply orderly_http_Get|]. intros [body|].
  - destruct (json_decode E body) as [comicData|].
    + checked_call os_Mkdir_call.
      apply orderly_bind; [apply Hwm|intros _; apply orderly_write_image].
    + apply orderly_bind; [now apply orderly_printf|intros _].
      apply orderly_bind; [apply orderly_log_Println|intros _; apply orderly_ret].
  - apply orderly_bind; [apply orderly_log_Println|intros _; apply orderly_ret].
Qed.

(** Every run of the goroutine body: one "Fetching Comic" line, then only
    additions to the archive; a fatal exit, with status 1, exactly when a
    call that changes the archive failed; never a panic. *)
Lemma worker_with_run write_meta dbPath item w :
  (∀ savePath item comicData, orderly (write_meta savePath item comicData)) →
  ∃ evs,
    trace (worker_with E write_meta dbPath item w).2
      = trace w ++ EvPrint (MsgFetching item) :: evs
    ∧ grows (files w) (files (worker_with E write_meta dbPath item w).2)
    ∧ (worker_with E write_meta dbPath item w).1 ≠ Panic
    ∧ (∀ c, (worker_with E write_meta dbPath item w).1 = Exit c → c = 1%Z)
    ∧ (has_failure evs ↔ ∃ c, (worker_with E write_meta dbPath item w).1 = Exit c)
    ∧ fetch_lines evs = [].
Proof.
  intros Hwm. unfold worker_with. unfold bind at 1. cbn [printf emit].
  destruct (orderly_after_first_line write_meta dbPath item Hwm
              (World (files w) (trace w ++ [EvPrint (MsgFetching item)])))
    as (evs & Ht & Hg & Hp & Hc & Hf & Hl).
  cbn [files trace] in *. exists evs.
  rewrite Ht, <- app_assoc. cbn [app]. tauto.
Qed.

End Calls.

(** ** The pool of goroutines *)

Lemma insert_split {A} (l : list A) k x y :
  l !! k = Some x → ∃ l1 l2, l = l1 ++ x :: l2 ∧ <[k := y]> l = l1 ++ y :: l2.
Proof.
  intros Hk. exists (take k l), (drop (S k) l). split.
  - symmetry. now apply take_drop_middle.
  - apply insert_take_drop. eapply lookup_lt_Some, Hk.
Qed.

Lemma sum_list_middle l1 n l2 : sum_list (l1 ++ n :: l2) = n + sum_list (l1 ++ l2).
Proof. induction l1 as [|m l1 IH]; cbn; [reflexivity|]. rewrite IH. lia. Qed.

Ltac decide_bools :=
  cbn [Is_true]; repeat (case_decide; try (exfalso; tauto)).

(** How many workers satisfy a test on their state. *)
Lemma count_insert (f : wstate → bool) (l : list (string * wstate)) k item st st' :
  l !! k = Some (item, st) →
  length (filter (λ x, f x.2) (<[k := (item, st')]> l)) + (if f st then 1 else 0)
  = length (filter (λ x, f x.2) l) + (if f st' then 1 else 0).
Proof.
  intros Hk. destruct (insert_split l k _ (item, st') Hk) as (l1 & l2 & -> & ->).
  rewrite !filter_app, !filter_cons, !length_app. cbn [snd].
  destruct (f st), (f st'); decide_bools; cbn [length]; lia.
Qed.

Lemma items_insert (l : list (string * wstate)) k item st st' :
  l !! k = Some (item, st) → (<[k := (item, st')]> l).*1 = l.*1.
Proof.
  intros Hk. destruct (insert_split l k _ (item, st') Hk) as (l1 & l2 & -> & ->).
  now rewrite !fmap_app.
Qed.

Lemma ran_insert_same (l : list (string * wstate)) k item st st' :
  l !! k = Some (item, st) → ran st = ran st' →
  (filter (λ x, ran x.2) (<[k := (item, st')]> l)).*1 = (filter (λ x, ran x.2) l).*1.
Proof.
  intros Hk Hr. destruct (insert_split l k _ (item, st') Hk) as (l1 & l2 & -> & ->).
  rewrite !filter_app, !filter_cons, !fmap_app. cbn [snd]. rewrite Hr.
  destruct (ran st'); decide_bools; reflexivity.
Qed.

Lemma ran_insert_new (l : list (string * wstate)) k item st st' :
  l !! k = Some (item, st) → ran st = false → ran st' = true →
  (filter (λ x, ran x.2) (<[k := (item, st')]> l)).*1
  ≡ₚ (filter (λ x, ran x.2) l).*1 ++ [item].
Proof.
  intros Hk Hr Hr'. destruct (insert_split l k _ (item, st') Hk) as (l1 & l2 & -> & ->).
  rewrite !filter_app, !filter_cons, !fmap_app. cbn [snd]. rewrite Hr, Hr'.
  decide_bools. cbn [fmap list_fmap fst]. rewrite <- app_assoc. apply Permutation_app_head.
  change (item :: ?l) with ([item] ++ l). apply Permutation_app_comm.
Qed.

Section PoolFacts.
Context (body : string → M outcome) (cap : option nat).

(** What the pool needs to know of the body (see [worker_with_run]). *)
Hypothesis body_run : ∀ item w, ∃ evs,
  trace (body item w).2 = trace w ++ EvPrint (MsgFetching item) :: evs
  ∧ grows (files w) (files (body item w).2)
  ∧ (body item w).1 ≠ Panic
  ∧ (∀ c, (body item w).1 = Exit c → c = 1%Z)
  ∧ (has_failure evs ↔ ∃ c, (body item w).1 = Exit c)
  ∧ fetch_lines evs = [].

Lemma body_fetch_lines item w tr0 evs0 :
  trace w = tr0 ++ evs0 →
  ∃ evs, trace (body item w).2 = tr0 ++ evs
         ∧ fetch_lines evs = fetch_lines evs0 ++ [item].
Proof.
  intros Hw. destruct (body_run item w) as (evs & -> & _ & _ & _ & _ & Hl).
  exists (evs0 ++ EvPrint (MsgFetching item) :: evs). split.
  - now rewrite Hw, app_assoc.
  - rewrite fetch_lines_app. cbn. now rewrite Hl.
Qed.

Lemma filter_spawned (f : wstate → bool) (dlList : list string) :
  f Spawned = false →
  filter (λ x : string * wstate, f x.2) ((λ item, (item, Spawned)) <$> dlList) = [].
Proof.
  intros Hf. induction dlList as [|item l IH]; [reflexivity|].
  rewrite fmap_cons, filter_cons. cbn [snd]. rewrite Hf. now decide_bools.
Qed.

Lemma pool_inv_init dlList w0 : pool_inv cap dlList w0 (init_pool dlList w0).
Proof.
  split; unfold init_pool, in_flight; cbn [workers tokens pworld exited].
  - rewrite <- list_fmap_compose. apply list_fmap_id.
  - intros c _.
    rewrite (filter_spawned holding) by reflexivity. cbn. lia.
  - intros _. apply Forall_fmap, Forall_forall. now intros.
  - discriminate.
  - exists []. rewrite (filter_spawned ran) by reflexivity. now rewrite app_nil_r.
  - apply grows_refl.
Qed.

Lemma pool_inv_step dlList w0 s s' :
  pool_inv cap dlList w0 s → step body cap s s' → pool_inv cap dlList w0 s'.
Proof.
  intros [Hi Ht Hd Hc (evs0 & Htr & Hl) Hg] Hstep.
  destruct Hstep as [s k item He Hk Hsend|s k item o w' He Hk Hb
                    |s k item c w' He Hk Hb|s k item w' He Hk Hb
                    |s k item o He Hk Hrecv].
  - pose proof (count_insert holding _ _ _ _ Running Hk) as Hn. cbn in Hn.
    split; cbn [workers tokens pworld exited].
    + now rewrite (items_insert _ _ _ _ _ Hk).
    + intros c Hcap. destruct (Ht c Hcap) as (H1 & H2 & H3).
      unfold in_flight, can_send, after_send in *. rewrite Hcap in *.
      cbn [workers]. specialize (H3 He). lia.
    + intros _. apply Forall_insert; [now apply Hd|discriminate].
    + discriminate.
    + exists evs0. now rewrite (ran_insert_same _ _ _ _ Running Hk).
    + assumption.
  - pose proof (count_insert holding _ _ _ _ (Returned o) Hk) as Hn. cbn in Hn.
    destruct (body_fetch_lines item (pworld s) _ _ Htr) as (evs & Htr' & Hf).
    rewrite Hb in Htr'.
    destruct (body_run item (pworld s)) as (_ & _ & Hgb & _). rewrite Hb in Hgb.
    cbn [fst snd] in *.
    split; cbn [workers tokens pworld exited].
    + now rewrite (items_insert _ _ _ _ _ Hk).
    + intros c Hcap. destruct (Ht c Hcap) as (H1 & H2 & H3).
      unfold in_flight in *. cbn [workers]. specialize (H3 He). lia.
    + intros _. apply Forall_insert; [now apply Hd|discriminate].
    + discriminate.
    + exists evs. split; [assumption|].
      rewrite Hf, (ran_insert_new _ _ _ _ (Returned o) Hk) by reflexivity.
      now rewrite Hl.
    + eapply grows_trans; eassumption.
  - pose proof (count_insert holding _ _ _ _ Died Hk) as Hn. cbn in Hn.
    destruct (body_fetch_lines item (pworld s) _ _ Htr) as (evs & Htr' & Hf).
    rewrite Hb in Htr'.
    destruct (body_run item (pworld s)) as (_ & _ & Hgb & _ & Hcode & _).
    rewrite Hb in Hgb, Hcode. cbn [fst snd] in *.
    split; cbn [workers tokens pworld exited].
    + now rewrite (items_insert _ _ _ _ _ Hk).
    + intros c' Hcap. destruct (Ht c' Hcap) as (H1 & H2 & H3).
      unfold in_flight in *. cbn [workers]. split_and!; [lia|lia|discriminate].
    + discriminate.
    + intros c' [= <-]. now apply Hcode.
    + exists evs. split; [assumption|].
      rewrite Hf, (ran_insert_new _ _ _ _ Died Hk) by reflexivity.
      now rewrite Hl.
    + eapply grows_trans; eassumption.
  - destruct (body_run item (pworld s)) as (_ & _ & _ & Hp & _).
    rewrite Hb in Hp. now destruct Hp.
  - pose proof (count_insert holding _ _ _ _ (Finished o) Hk) as Hn. cbn in Hn.
    split; cbn [workers tokens pworld exited].
    + now rewrite (items_insert _ _ _ _ _ Hk).
    + intros c Hcap. destruct (Ht c Hcap) as (H1 & H2 & H3).
      unfold in_flight, can_recv, after_recv in *. rewrite Hcap in *.
      cbn [workers]. specialize (H3 He). lia.
    + intros _. apply Forall_insert; [now apply Hd|discriminate].
    + discriminate.
    + exists evs0. now rewrite (ran_insert_same _ _ _ _ (Finished o) Hk).
    + assumption.
Qed.

Lemma pool_inv_reachable dlList w0 s :
  rtc (step body cap) (init_pool dlList w0) s → pool_inv cap dlList w0 s.
Proof.
  intros Hrun.
  apply (rtc_ind_r (R := step body cap) (pool_inv cap dlList w0) (init_pool dlList w0));
    [apply pool_inv_init| |exact Hrun].
  intros s1 s2 _ Hstep IH. eapply pool_inv_step; eassumption.
Qed.

Lemma running_can_step s k item :
  exited s = None → workers s !! k = Some (item, Running) → ∃ s', step body cap s s'.
Proof.
  intros He Hk. destruct (body item (pworld s)) as [[o|c|] w'] eqn:Hb.
  - eexists. eapply step_body; eassumption.
  - eexists. eapply step_exit; eassumption.
  - eexists. eapply step_panic; eassumption.
Qed.

Lemma holding_counted (l : list (string * wstate)) k item st :
  l !! k = Some (item, st) → holding st = true →
  0 < length (filter (λ x, holding x.2) l).
Proof.
  intros Hk Hh.
  assert (Hin : (item, st) ∈ filter (λ x : string * wstate, holding x.2) l).
  { apply list_elem_of_filter. split; [cbn; now rewrite Hh|].
    eapply list_elem_of_lookup_2, Hk. }
  destruct (filter _ l); [inversion Hin|cbn; lia].
Qed.

Lemma holding_exists (l : list (string * wstate)) :
  0 < length (filter (λ x, holding x.2) l) →
  ∃ k item st, l !! k = Some (item, st) ∧ holding st = true.
Proof.
  intros Hn. destruct (filter _ l) as [|[item st] l'] eqn:Hf; [cbn in Hn; lia|].
  assert (Hin : (item, st) ∈ filter (λ x : string * wstate, holding x.2) l)
    by (rewrite Hf; left).
  apply list_elem_of_filter in Hin as [Hh Hin]. cbn in Hh.
  apply list_elem_of_lookup in Hin as [k Hk].
  exists k, item, st. split; [assumption|]. now destruct (holding st).
Qed.

Lemma can_send_dec n : Decision (can_send cap n).
Proof. unfold can_send. destruct cap; apply _. Defined.

Lemma no_room n : ¬ can_send cap n → ∃ c, cap = Some c ∧ c ≤ n.
Proof.
  unfold can_send. destruct cap as [c|]; [|tauto].
  intros Hn. exists c. split; [reflexivity|lia].
Qed.

Lemma holder_can_step dlList w0 s k item st :
  pool_inv cap dlList w0 s → exited s = None →
  workers s !! k = Some (item, st) → holding st = true →
  ∃ s', step body cap s s'.
Proof.
  intros Hinv He Hk Hh. destruct st as [| |o|o|]; try discriminate.
  - eapply running_can_step; eassumption.
  - eexists. eapply step_release; [eassumption..|].
    unfold can_recv. destruct cap as [c|] eqn:Hcap; [|exact I].
    destruct (inv_tokens _ _ _ _ Hinv c eq_refl) as (_ & _ & Ht).
    rewrite (Ht He). unfold in_flight. eapply holding_counted; [eassumption|reflexivity].
Qed.

(** As long as the process lives and some goroutine has not finished, some
    goroutine can move, provided the channel has room for one token. *)
Lemma pool_progress dlList w0 s :
  pool_inv cap dlList w0 s → (∀ c, cap = Some c → 1 ≤ c) →
  exited s = None → ¬ all_finished s → ∃ s', step body cap s s'.
Proof.
  intros Hinv Hcap He Hnf.
  apply not_Forall_Exists in Hnf; [|intros x; apply _].
  apply Exists_exists in Hnf as ([item st] & Hin & Hst). cbn [snd] in Hst.
  apply list_elem_of_lookup in Hin as [k Hk].
  destruct st as [| |o|o|].
  - destruct (can_send_dec (tokens s)) as [Hroom|Hfull].
    + eexists. eapply step_acquire; eassumption.
    + apply no_room in Hfull as (c & Hc & Hge).
      destruct (inv_tokens _ _ _ _ Hinv c Hc) as (_ & Hle & Ht).
      specialize (Hcap c Hc). specialize (Ht He).
      destruct (holding_exists (workers s)) as (k' & item' & st' & Hk' & Hh').
      { unfold in_flight in Ht. lia. }
      eapply holder_can_step; eassumption.
  - eapply running_can_step; eassumption.
  - eapply holder_can_step; [eassumption..|reflexivity].
  - now destruct Hst.
  - pose proof (inv_died _ _ _ _ Hinv He) as Hd.
    rewrite Forall_forall in Hd.
    now destruct (Hd (item, Died) (list_elem_of_lookup_2 _ _ _ Hk)).
Qed.

(** Every step uses up one of the three steps of some goroutine. *)
Lemma step_steps_left s s' : step body cap s s' → steps_left s' < steps_left s.
Proof.
  intros Hstep. unfold steps_left.
  destruct Hstep as [s k item He Hk Hsend|s k item o w' He Hk Hb
                    |s k item c w' He Hk Hb|s k item w' He Hk Hb
                    |s k item o He Hk Hrecv]; cbn [workers];
    match goal with
    | |- context [<[k := ?y]> _] =>
        destruct (insert_split (workers s) k _ y Hk) as (l1 & l2 & -> & ->)
    end; rewrite !fmap_app, !fmap_cons, !sum_list_middle; cbn; lia.
Qed.

(** Every run can be carried on to its end: the process has exited or every
    goroutine has finished. *)
Lemma pool_completes dlList w0 s :
  (∀ c, cap = Some c → 1 ≤ c) →
  pool_inv cap dlList w0 s →
  ∃ s', rtc (step body cap) s s' ∧ (exited s' ≠ None ∨ all_finished s').
Proof.
  intros Hcap. remember (steps_left s) as n eqn:Hn.
  revert s Hn. induction (lt_wf n) as [n _ IH]. intros s -> Hinv.
  destruct (exited s) as [c|] eqn:He.
  { exists s. split; [reflexivity|left; congruence]. }
  destruct (decide (all_finished s)) as [Hf|Hnf].
  { exists s. split; [reflexivity|now right]. }
  destruct (pool_progress _ _ _ Hinv Hcap He Hnf) as [s1 Hstep].
  destruct (IH _ (step_steps_left _ _ Hstep) s1 eq_refl) as (s' & Hrun & Hend).
  { eapply pool_inv_step; eassumption. }
  exists s'. split; [|assumption]. eapply rtc_l; eassumption.
Qed.

(** Once the process has exited nothing moves. *)
Lemma exited_halts s c s' : exited s = Some c → ¬ step body cap s s'.
Proof. intros He Hstep. destruct Hstep; congruence. Qed.

Lemma filter_finished (l : list (string * wstate)) :
  Forall (λ x, finished x.2) l → filter (λ x, ran x.2) l = l.
Proof.
  induction 1 as [|[item st] l Hst _ IH]; [reflexivity|].
  rewrite filter_cons, IH. cbn [snd] in *.
  destruct st; try contradiction. now decide_bools.
Qed.

(** The items whose download has been started are items of [dlList], each
    at most as often as it occurs there, and all of them once every
    goroutine has finished. *)
Lemma pool_started dlList w0 s :
  pool_inv cap dlList w0 s →
  ∃ started,
    fetch_lines (events_since w0 (pworld s)) ≡ₚ started
    ∧ started `sublist_of` dlList
    ∧ (all_finished s → started = dlList).
Proof.
  intros [Hi _ _ _ (evs & Htr & Hl) _].
  exists (filter (λ x, ran x.2) (workers s)).*1. split_and!.
  - unfold events_since. now rewrite Htr, drop_app_length.
  - rewrite <- Hi. apply fmap_sublist, sublist_filter.
  - intros Hf. now rewrite filter_finished.
Qed.

Lemma in_flight_le_length s : in_flight s ≤ length (workers s).
Proof. apply length_filter. Qed.

End PoolFacts.

(** The two goroutine bodies meet what the pool asks of them. *)
Lemma semaphore_body_run E dbPath item w : ∃ evs,
  trace (Semaphore.worker E dbPath item w).2 = trace w ++ EvPrint (MsgFetching item) :: evs
  ∧ grows (files w) (files (Semaphore.worker E dbPath item w).2)
  ∧ (Semaphore.worker E dbPath item w).1 ≠ Panic
  ∧ (∀ c, (Semaphore.worker E dbPath item w).1 = Exit c → c = 1%Z)
  ∧ (has_failure evs ↔ ∃ c, (Semaphore.worker E dbPath item w).1 = Exit c)
  ∧ fetch_lines evs = [].
Proof. apply worker_with_run, orderly_write_meta_semaphore. Qed.

Lemma batched_body_run E item w : ∃ evs,
  trace (Batched.worker E item w).2 = trace w ++ EvPrint (MsgFetching item) :: evs
  ∧ grows (files w) (files (Batched.worker E item w).2)
  ∧ (Batched.worker E item w).1 ≠ Panic
  ∧ (∀ c, (Batched.worker E item w).1 = Exit c → c = 1%Z)
  ∧ (has_failure evs ↔ ∃ c, (Batched.worker E item w).1 = Exit c)
  ∧ fetch_lines evs = [].
Proof. apply worker_with_run, orderly_write_meta_batched. Qed.

Lemma semaphore_inv E dbPath rateLimit dlList w0 s :
  rtc (Semaphore.getComic_step E dbPath rateLimit) (init_pool dlList w0) s →
  pool_inv (Some rateLimit) dlList w0 s.
Proof. apply pool_inv_reachable, semaphore_body_run. Qed.

(** ** The loop over the blocks of src/xkcd.go *)

Section BatchLoop.
Context (E : Env) (blockSize : nat) (missing : list string) (w0 : world).

Lemma loop_inv_init dlList :
  concat dlList = missing → Forall (λ b, length b ≤ blockSize) dlList →
  loop_inv blockSize missing w0 (Batched.loop_init dlList w0).
Proof.
  intros Hc Hb. exists [], [], w0. cbn. split_and!; try assumption.
  - now symmetry.
  - lia.
  - apply pool_inv_init.
  - exists []. now rewrite app_nil_r.
  - apply grows_refl.
Qed.

Lemma loop_inv_step st st' :
  loop_inv blockSize missing w0 st → Batched.loop_step E st st' →
  loop_inv blockSize missing w0 st'.
Proof.
  intros (done & cur & wc & Hm & Hlen & Hpend & Hinv & (evs & Htr & Hl) & Hg) Hstep.
  destruct Hstep as [bs s s' Hstep|b bs s He Hf]; cbn [Batched.pending Batched.current] in *.
  - exists done, cur, wc. split_and!; try assumption; [|eauto].
    eapply pool_inv_step; [apply batched_body_run|eassumption..].
  - destruct (pool_started _ _ _ _ Hinv) as (started & Hs & _ & Hall).
    rewrite (Hall Hf) in Hs.
    destruct (inv_lines _ _ _ _ Hinv) as (evs1 & Htr1 & _).
    unfold events_since in Hs. rewrite Htr1, drop_app_length in Hs.
    apply Forall_cons in Hpend as [Hb Hpend].
    exists (done ++ cur), b, (pworld s). split_and!.
    + rewrite Hm. cbn [concat]. now rewrite <- !app_assoc.
    + assumption.
    + assumption.
    + apply pool_inv_init.
    + exists (evs ++ evs1). split.
      * now rewrite Htr1, Htr, app_assoc.
      * now rewrite fetch_lines_app, Hl, Hs.
    + eapply grows_trans; [eassumption|]. apply (inv_grows _ _ _ _ Hinv).
Qed.

Lemma loop_inv_reachable dlList st :
  concat dlList = missing → Forall (λ b, length b ≤ blockSize) dlList →
  rtc (Batched.loop_step E) (Batched.loop_init dlList w0) st →
  loop_inv blockSize missing w0 st.
Proof.
  intros Hc Hb Hrun.
  apply (rtc_ind_r (R := Batched.loop_step E) (loop_inv blockSize missing w0)
           (Batched.loop_init dlList w0));
    [now apply loop_inv_init| |exact Hrun].
  intros s1 s2 _ Hstep IH. eapply loop_inv_step; eassumption.
Qed.

(** What the invariant says of the run so far. *)
Lemma loop_started st :
  loop_inv blockSize missing w0 st →
  in_flight (Batched.current st) ≤ blockSize
  ∧ grows (files w0) (files (pworld (Batched.current st)))
  ∧ ∃ started,
      fetch_lines (events_since w0 (pworld (Batched.current st))) ≡ₚ started
      ∧ started `sublist_of` missing
      ∧ (Batched.pending st = [] → all_finished (Batched.current st) → started = missing).
Proof.
  intros (done & cur & wc & Hm & Hlen & Hpend & Hinv & (evs & Htr & Hl) & Hg).
  destruct (pool_started _ _ _ _ Hinv) as (started & Hs & Hsub & Hall).
  destruct (inv_lines _ _ _ _ Hinv) as (evs1 & Htr1 & _).
  unfold events_since in Hs. rewrite Htr1, drop_app_length in Hs.
  split_and!.
  - pose proof (in_flight_le_length (Batched.current st)) as Hle.
    rewrite <- (length_fmap fst), (inv_items _ _ _ _ Hinv) in Hle. lia.
  - eapply grows_trans; [eassumption|]. apply (inv_grows _ _ _ _ Hinv).
  - exists (done ++ started). split_and!.
    + unfold events_since. rewrite Htr1, Htr, <- app_assoc, drop_app_length.
      now rewrite fetch_lines_app, Hl, Hs.
    + rewrite Hm. apply sublist_app; [reflexivity|]. now apply sublist_inserts_r.
    + intros Hp Hf. rewrite Hm, Hp, (Hall Hf). cbn. now rewrite app_nil_r.
Qed.

End BatchLoop.

(** The blocks of [splitSlice] hold the input and none is longer than the
    block size. *)
Lemma splitSlice_blocks input b dlList :
  0 < b → Batched.splitSlice input (Z.of_nat b) = Some dlList →
  concat dlList = input ∧ Forall (λ blk, length blk ≤ b) dlList.
Proof.
  intros Hb. rewrite splitSlice_eq by assumption. intros [= <-]. split.
  - rewrite concat_app, concat_blocks by assumption.
    pose proof (Nat.div_mod_eq (length input) b) as Hdm.
    destruct (decide (length input mod b = 0)) as [Hr|Hr]; cbn [concat].
    + rewrite app_nil_r. apply take_ge. lia.
    + rewrite app_nil_r, take_take_drop. apply take_ge. lia.
  - apply Forall_app. split.
    + apply Forall_fmap, Forall_forall. intros k _. unfold block_at. cbn.
      rewrite length_take. lia.
    + pose proof (Nat.mod_upper_bound (length input) b ltac:(lia)) as Hlt.
      destruct (decide _); constructor; [|constructor].
      rewrite length_take. lia.
Qed.

(** ** The archive path *)

Lemma get_last q c : String.get (String.length q) (q +:+ String c EmptyString) = Some c.
Proof. induction q as [|a q IH]; [reflexivity|exact IH]. Qed.

Lemma length_app_string q r :
  String.length (q +:+ r) = String.length q + String.length r.
Proof. induction q as [|a q IH]; [reflexivity|]. simpl. now rewrite IH. Qed.

Lemma string_snoc p : p ≠ EmptyString → ∃ q c, p = q +:+ String c EmptyString.
Proof.
  induction p as [|a p IH]; [congruence|]. intros _.
  destruct p as [|b p].
  - now exists EmptyString, a.
  - destruct IH as (q & c & Hq); [discriminate|].
    exists (String a q), c. simpl. now rewrite Hq.
Qed.

Lemma byte_at_last q c :
  byte_at (q +:+ String c EmptyString) (len (q +:+ String c EmptyString) - 1) = Some c.
Proof.
  unfold byte_at, len. rewrite length_app_string. cbn [String.length].
  rewrite decide_True by lia.
  replace (Z.to_nat (Z.of_nat (String.length q + 1) - 1)) with (String.length q) by lia.
  apply get_last.
Qed.

Lemma string_snoc_inj q c q' c' :
  q +:+ String c EmptyString = q' +:+ String c' EmptyString → c = c'.
Proof.
  intros H.
  pose proof (byte_at_last q c) as H1. pose proof (byte_at_last q' c') as H2.
  rewrite H in H1. congruence.
Qed.

(** C9.  For a path that is not empty the normalisation in [main] leaves a
    path ending in ['/'] as it is and appends one ['/'] to any other path;
    on the empty path the index is out of range, and [main] panics before
    anything is sent to the network or asked of the file system. *)
Theorem add_trailing_slash_total :
  (∀ p, p ≠ EmptyString →
     ((∃ q, p = q +:+ "/") → Semaphore.add_trailing_slash p = Some p)
     ∧ (¬ (∃ q, p = q +:+ "/") → Semaphore.add_trailing_slash p = Some (p +:+ "/")))
  ∧ Semaphore.add_trailing_slash EmptyString = None
  ∧ (∀ E rateLimit w,
       Semaphore.main_prologue E rateLimit EmptyString w = (Panic, w)
       ∧ ∀ r w', Semaphore.main_run E rateLimit EmptyString w r w' → r = Panic ∧ w' = w).
Proof.
  split_and!.
  - intros p Hp. destruct (string_snoc p Hp) as (q & c & ->).
    unfold Semaphore.add_trailing_slash. rewrite byte_at_last. split.
    + intros [q' Hq']. apply string_snoc_inj in Hq' as ->.
      now rewrite decide_False by tauto.
    + intros Hno. rewrite decide_True; [reflexivity|].
      intros ->. apply Hno. now exists q.
  - reflexivity.
  - intros E rateLimit w. split; [reflexivity|].
    intros r w' Hrun.
    assert (Hpro : Semaphore.main_prologue E rateLimit EmptyString w = (Panic, w))
      by reflexivity.
    destruct Hrun as [c w' H|w' H|w' H|p' m w' s H|p' m w' s c H|p' m w' s H];
      rewrite Hpro in H; try discriminate.
    injection H as <-. now split.
Qed.

Lemma add_trailing_slash_total_witness :
  ("db"%string ≠ EmptyString)
  ∧ Semaphore.add_trailing_slash "db" = Some "db/"%string
  ∧ Semaphore.add_trailing_slash "db/" = Some "db/"%string.
Proof.
  pose proof (proj1 add_trailing_slash_total) as H.
  split; [discriminate|]. split.
  - apply (H "db"%string); [discriminate|].
    intros [q Hq]. apply (string_snoc_inj "d" "b" q "/") in Hq. discriminate.
  - apply (H "db/"%string); [discriminate|]. now exists "db"%string.
Defined.

(** ** Bounded concurrency *)

Lemma missingComics_NoDup E N dbPath w missing w' :
  missingComics E N dbPath w = (Ok missing, w') → NoDup missing.
Proof.
  unfold missingComics. destruct (decide (N < 0 ∨ max_cap E < N)%Z); [discriminate|].
  rewrite missingComics_loop_eq. intros [= <- _]. cbn [app].
  apply NoDup_fmap_2; [intros i j; apply itoa_inj|].
  apply NoDup_filter, NoDup_seqZ.
Qed.

(** C2, as amended.  While [getComic] runs, never more goroutines are between
    acquiring and releasing a token than [rateLimit] (no more than the block
    size of 200 in src/xkcd.go); the missing comics are pairwise distinct and
    a download is started for each at most once, and for each exactly once
    when the run reaches the end of [wg.Wait()].  With [rateLimit ≥ 1] a run
    can always be carried on until the process has exited or every goroutine
    has finished. *)
Theorem bounded_concurrency (E : Env) :
  (∀ dbPath rateLimit dlList w0 s,
     rtc (Semaphore.getComic_step E dbPath rateLimit) (init_pool dlList w0) s →
     in_flight s ≤ rateLimit
     ∧ (∃ started,
          fetch_lines (events_since w0 (pworld s)) ≡ₚ started
          ∧ started `sublist_of` dlList
          ∧ (all_finished s → started = dlList))
     ∧ (1 ≤ rateLimit →
        ∃ s', rtc (Semaphore.getComic_step E dbPath rateLimit) s s'
              ∧ (exited s' ≠ None ∨ all_finished s')))
  ∧ (∀ missing dlList w0 bs s,
       Batched.splitSlice missing 200 = Some dlList →
       rtc (Batched.loop_step E) (Batched.loop_init dlList w0) (Batched.Loop bs s) →
       in_flight s ≤ 200
       ∧ ∃ started,
           fetch_lines (events_since w0 (pworld s)) ≡ₚ started
           ∧ started `sublist_of` missing
           ∧ (bs = [] → all_finished s → started = missing))
  ∧ (∀ N dbPath w missing w',
       missingComics E N dbPath w = (Ok missing, w') → NoDup missing).
Proof.
  split_and!.
  - intros dbPath rateLimit dlList w0 s Hrun.
    pose proof (semaphore_inv _ _ _ _ _ _ Hrun) as Hinv. split_and!.
    + destruct (inv_tokens _ _ _ _ Hinv rateLimit eq_refl) as (H1 & H2 & _). lia.
    + eapply pool_started, Hinv.
    + intros Hpos.
      eapply (pool_completes (Semaphore.worker E dbPath) (Some rateLimit));
        [apply semaphore_body_run| |eassumption].
      now intros c [= <-].
  - intros missing dlList w0 bs s Hsplit Hrun.
    change 200%Z with (Z.of_nat 200) in Hsplit.
    apply splitSlice_blocks in Hsplit as [Hc Hb]; [|lia].
    pose proof (loop_inv_reachable E 200 missing w0 dlList _ Hc Hb Hrun) as Hinv.
    destruct (loop_started _ _ _ _ Hinv) as (Hfl & _ & started & Hs & Hsub & Hall).
    cbn [Batched.current Batched.pending] in *. split; [assumption|].
    exists started. auto.
  - intros N dbPath w missing w'. apply missingComics_NoDup.
Qed.

Lemma bounded_concurrency_witness :
  ∃ s, rtc (Semaphore.getComic_step demo_env "db/" 1)
           (init_pool ["1"; "2"]%string empty_archive) s
       ∧ in_flight s = 1 ∧ in_flight s ≤ 1.
Proof.
  eexists. split; [|split].
  - eapply rtc_l; [|apply rtc_refl].
    apply (step_acquire _ _ (init_pool ["1"; "2"]%string empty_archive) 0 "1"%string);
      [reflexivity|reflexivity|cbn; lia].
  - reflexivity.
  - refine (proj1 (proj1 (bounded_concurrency demo_env) "db/"%string 1
                     ["1"; "2"]%string empty_archive _ _)).
    eapply rtc_l; [|apply rtc_refl].
    apply (step_acquire _ _ (init_pool ["1"; "2"]%string empty_archive) 0 "1"%string);
      [reflexivity|reflexivity|cbn; lia].
Defined.

(** Against C2 as it is worded: with an archive in which no directory can be
    created, the goroutine of comic 1 ends the process while that of comic
    2 still waits for its token; nothing can move any more, and no download
    of comic 2 was ever started. *)
Lemma attempted_once_counterexample :
  ∃ missing w' s,
    Semaphore.main_prologue readonly_env 1 "db" empty_archive
      = (Ok (Some ("db/"%string, missing)), w')
    ∧ rtc (Semaphore.getComic_step readonly_env "db/" 1) (init_pool missing w') s
    ∧ exited s = Some 1%Z
    ∧ (∀ s', ¬ Semaphore.getComic_step readonly_env "db/" 1 s s')
    ∧ "2"%string ∈ missing
    ∧ "2"%string ∉ fetch_lines (events_since w' (pworld s)).
Proof.
  eexists _, _, _. split; [vm_compute; reflexivity|]. split.
  - eapply rtc_l.
    { eapply (step_acquire _ _ _ 0 "1"%string);
        [reflexivity|reflexivity|cbn; lia]. }
    eapply rtc_l; [|apply rtc_refl].
    eapply (step_exit _ _ _ 0 "1"%string); [reflexivity|reflexivity|].
    vm_compute. reflexivity.
  - split_and!.
    + reflexivity.
    + intros s'. apply (exited_halts _ _ _ 1%Z). reflexivity.
    + apply list_elem_of_In. cbn. tauto.
    + vm_compute. intros H. apply list_elem_of_In in H. cbn in H.
      destruct H as [H|[]]. discriminate.
Qed.

(** ** Failures of one item *)

(** C4.  When the metadata of an item cannot be fetched or does not decode,
    its goroutine logs the error and returns: the archive is left as it
    was, no call that would create a directory or a file is made, the
    process goes on, no other goroutine of the pool is touched, and the
    goroutine then gives its token back.  The body of both source files is
    [worker_with] for its own [write_meta]. *)
Theorem metadata_failure_isolated (E : Env)
    (write_meta : string → string → Comic → M unit) (cap : option nat)
    (dbPath : string) (s : pool) (k : nat) (item : string) :
  exited s = None →
  workers s !! k = Some (item, Running) →
  meta_fails E item →
  ∃ o evs,
    worker_with E write_meta dbPath item (pworld s)
      = (Ok o, World (files (pworld s)) (trace (pworld s) ++ evs))
    ∧ (o = MetaTransportFailed ∨ o = MetaDecodeFailed)
    ∧ (∃ e, EvLog (Some e) ∈ evs)
    ∧ Forall (λ ev, changes_archive ev = false) evs
    ∧ step (worker_with E write_meta dbPath) cap s
        (Pool (<[k := (item, Returned o)]> (workers s)) (tokens s)
              (World (files (pworld s)) (trace (pworld s) ++ evs)) None)
    ∧ (∀ j, j ≠ k → <[k := (item, Returned o)]> (workers s) !! j = workers s !! j)
    ∧ (can_recv cap (tokens s) →
       step (worker_with E write_meta dbPath) cap
         (Pool (<[k := (item, Returned o)]> (workers s)) (tokens s)
               (World (files (pworld s)) (trace (pworld s) ++ evs)) None)
         (Pool (<[k := (item, Finished o)]> (<[k := (item, Returned o)]> (workers s)))
               (after_recv cap (tokens s))
               (World (files (pworld s)) (trace (pworld s) ++ evs)) None)).
Proof.
  intros He Hk Hfail.
  assert (Hrun : ∃ o evs,
    worker_with E write_meta dbPath item (pworld s)
      = (Ok o, World (files (pworld s)) (trace (pworld s) ++ evs))
    ∧ (o = MetaTransportFailed ∨ o = MetaDecodeFailed)
    ∧ (∃ e, EvLog (Some e) ∈ evs)
    ∧ Forall (λ ev, changes_archive ev = false) evs).
  { unfold worker_with, after_first_line, bind, printf, log_Println, emit, http_Get, ret.
    cbn [files trace].
    destruct Hfail as [Hget|(body & Hget & Hdec)]; rewrite Hget; [|rewrite Hdec];
      cbn [files trace]; rewrite <- ?app_assoc; cbn [app].
    - exists MetaTransportFailed. eexists. split; [reflexivity|]. split_and!.
      + now left.
      + exists ErrTransport. apply list_elem_of_In. cbn. tauto.
      + repeat constructor.
    - exists MetaDecodeFailed. eexists. split; [reflexivity|]. split_and!.
      + now right.
      + exists ErrDecode. apply list_elem_of_In. cbn. tauto.
      + repeat constructor. }
  destruct Hrun as (o & evs & Hw & Ho & Hlog & Hno).
  exists o, evs. split_and!; try assumption.
  - eapply step_body; eassumption.
  - intros j Hj. now apply list_lookup_insert_ne.
  - intros Hrecv.
    apply (step_release _ _
             (Pool (<[k := (item, Returned o)]> (workers s)) (tokens s)
                   (World (files (pworld s)) (trace (pworld s) ++ evs)) None)
             k item o); [reflexivity| |exact Hrecv].
    cbn [workers]. apply list_lookup_insert_eq. eapply lookup_lt_Some, Hk.
Qed.

Lemma metadata_failure_isolated_witness :
  ∃ o evs,
    Semaphore.worker demo_env "db/" "3" empty_archive
      = (Ok o, World (files empty_archive) evs)
    ∧ (o = MetaTransportFailed ∨ o = MetaDecodeFailed).
Proof.
  destruct (metadata_failure_isolated demo_env (Semaphore.write_meta demo_env)
              (Some 1) "db/"%string
              (Pool [("3"%string, Running)] 1 empty_archive None) 0 "3"%string)
    as (o & evs & Hw & Ho & _).
  - reflexivity.
  - reflexivity.
  - left. reflexivity.
  - exists o, ([] ++ evs). split; [exact Hw|exact Ho].
Defined.

Section Fatal.
Context (body : string → M outcome) (cap : option nat).
Hypothesis body_run : ∀ item w, ∃ evs,
  trace (body item w).2 = trace w ++ EvPrint (MsgFetching item) :: evs
  ∧ grows (files w) (files (body item w).2)
  ∧ (body item w).1 ≠ Panic
  ∧ (∀ c, (body item w).1 = Exit c → c = 1%Z)
  ∧ (has_failure evs ↔ ∃ c, (body item w).1 = Exit c)
  ∧ fetch_lines evs = [].



End Fatal.



(** ** An image URL without a file name *)

(** C6, as amended.  When the last segment of [Img] is empty (as for the
    empty string), the image part of the body creates no file and never ends
    the process.  It reports "has no image" and returns when the GET of
    [Img] succeeds; when that GET fails, the failure is logged as a
    transport error and the body returns all the same. *)
Theorem empty_asset_name (E : Env) (savePath item : string) (comicData : Comic)
    (w : world) :
  last (split_slash (Img comicData)) = Some EmptyString →
  (∀ body, http_get E (Img comicData) = Some body →
     write_image E savePath item comicData w
     = (Ok NoImage,
        World (files w)
              (trace w ++ [EvHttpGet (Img comicData); EvPrint (MsgNoImage item)])))
  ∧ (http_get E (Img comicData) = None →
     write_image E savePath item comicData w
     = (Ok AssetTransportFailed,
        World (files w)
              (trace w ++ [EvHttpGet (Img comicData); EvLog (Some ErrTransport)])))
  ∧ files (write_image E savePath item comicData w).2 = files w
  ∧ ∃ o, (write_image E savePath item comicData w).1 = Ok o.
Proof.
  intros Hlast.
  assert (Hsome : ∀ body, http_get E (Img comicData) = Some body →
     write_image E savePath item comicData w
     = (Ok NoImage,
        World (files w)
              (trace w ++ [EvHttpGet (Img comicData); EvPrint (MsgNoImage item)]))).
  { intros body Hget. unfold write_image, bind, http_Get, printf, emit, ret.
    rewrite Hget, Hlast. cbn [files trace]. rewrite decide_True by reflexivity.
    cbn [files trace]. now rewrite <- app_assoc. }
  assert (Hnone : http_get E (Img comicData) = None →
     write_image E savePath item comicData w
     = (Ok AssetTransportFailed,
        World (files w)
              (trace w ++ [EvHttpGet (Img comicData); EvLog (Some ErrTransport)]))).
  { intros Hget. unfold write_image, bind, http_Get, log_Println, emit, ret.
    rewrite Hget. cbn [files trace]. now rewrite <- app_assoc. }
  split_and!; [exact Hsome|exact Hnone| |];
    destruct (http_get E (Img comicData)) as [body|] eqn:Hget.
  - now rewrite (Hsome body).
  - now rewrite Hnone.
  - rewrite (Hsome body) by reflexivity. eauto.
  - rewrite Hnone by reflexivity. eauto.
Qed.

Lemma empty_asset_name_witness :
  write_image demo_env "db/2/" "2"
    (mkComic 2 "https://imgs.xkcd.com/comics/" "transcript" "") empty_archive
  = (Ok NoImage,
     World (files empty_archive)
           [EvHttpGet "https://imgs.xkcd.com/comics/"; EvPrint (MsgNoImage "2")]).
Proof.
  refine (proj1 (empty_asset_name demo_env "db/2/" "2"
                   (mkComic 2 "https://imgs.xkcd.com/comics/" "transcript" "")
                   empty_archive _) "forbidden"%string _); reflexivity.
Defined.

(** Against C6 as it is worded: comic 4 has an empty [Img]; the body does not
    report "has no image" but logs the transport error of the GET. *)
Lemma empty_img_counterexample :
  demo_json "four" = Some (mkComic 4 "" "" "alt text")
  ∧ last (split_slash "") = Some EmptyString
  ∧ ∃ w',
      Semaphore.worker demo_env "db/" "4" empty_archive = (Ok AssetTransportFailed, w')
      ∧ EvLog (Some ErrTransport) ∈ trace w'
      ∧ EvPrint (MsgNoImage "4") ∉ trace w'.
Proof.
  split; [reflexivity|]. split; [reflexivity|].
  eexists. split; [vm_compute; reflexivity|]. split.
  - apply list_elem_of_In. cbn. tauto.
  - intros H. apply list_elem_of_In in H. cbn in H.
    repeat (destruct H as [H|H]; [discriminate|]). exact H.
Qed.

(** ** The files of a downloaded item *)

(** C3, on src/xkcd.go.  Comic 1 has an empty transcript and its download
    succeeds, image included; all the same its directory holds an (empty)
    file [1-transcript], because lines 163 to 183 create and write both
    metadata files without looking at the fields. *)
Lemma batched_writes_empty_fields :
  demo_json "one" = Some (mkComic 1 "https://imgs.xkcd.com/comics/a.png" "" "alt text")
  ∧ ∃ w',
      Batched.worker demo_env "1" (World {["./xkcdDB" := Dir]} []) = (Ok Saved, w')
      ∧ files w' !! "./xkcdDB/1/1-transcript"%string = Some (File EmptyString).
Proof.
  split; [reflexivity|].
  eexists. split; [vm_compute; reflexivity|]. vm_compute. reflexivity.
Qed.

(** ** Running twice *)

Lemma missingComics_files E N dbPath w missing w' :
  missingComics E N dbPath w = (Ok missing, w') →
  files w' = files w
  ∧ missing = itoa <$> filter (λ j, j ≠ 404%Z ∧ absent E (files w) dbPath j) (seqZ 1 N).
Proof.
  unfold missingComics. destruct (decide (N < 0 ∨ max_cap E < N)%Z); [discriminate|].
  rewrite missingComics_loop_eq, Z2Nat.id by lia. now intros [= <- <-].
Qed.

(** [main] of src/unnamed/part_000 on an archive whose root is found and in
    which the scan finds nothing missing. *)
Lemma semaphore_prologue_nothing_missing E rateLimit dbPath0 dbPath body c w :
  Semaphore.add_trailing_slash dbPath0 = Some dbPath →
  http_get E (xkcdURL +:+ jsonFile) = Some body →
  json_decode E body = Some c →
  (0 ≤ Num c ≤ max_cap E)%Z →
  IsNotExist (stat_err E (files w) dbPath) = false →
  filter (λ j, j ≠ 404%Z ∧ absent E (files w) dbPath j) (seqZ 1 (Num c)) = [] →
  Semaphore.main_prologue E rateLimit dbPath0 w
  = (Ok None,
     World (files w)
           (trace w ++ [EvHttpGet (xkcdURL +:+ jsonFile); EvStat dbPath]
            ++ scan_events dbPath (filter (λ j, j ≠ 404%Z) (seqZ 1 (Num c)))
            ++ [EvPrint MsgNoMissing])).
Proof.
  intros Hnorm Hget Hdec HN Hroot Hnone.
  unfold Semaphore.main_prologue. rewrite Hnorm.
  unfold bind at 1. unfold latestComicNum, bind at 1, http_Get.
  rewrite Hget, Hdec. unfold ret at 1. cbn [files trace].
  unfold bind at 1. unfold os_Stat at 1. cbn [files trace].
  unfold bind at 1. rewrite Hroot. unfold ret at 1.
  unfold bind at 1. unfold missingComics. rewrite decide_False by lia.
  rewrite missingComics_loop_eq, Z2Nat.id by lia. cbn [files trace app].
  rewrite Hnone. cbn [fmap list_fmap length]. rewrite decide_True by reflexivity.
  unfold bind, printf, emit, ret. cbn [files trace].
  now rewrite <- !app_assoc.
Qed.

(** C8.  If the first run, whatever its schedule, leaves a directory for
    every comic of its missing set, then a second scan of the same range on
    the archive as the first run left it finds nothing missing and leaves
    the archive as it is, and a pool on the empty list has no goroutine
    that could move.  A second run of [main] that is given the same archive
    path and the same number of comics, and finds the archive root, returns
    normally after "Found no missing comics": it changes nothing and starts
    no download. *)
Theorem idempotence (E : Env) (dbPath : string) (N : Z) (rateLimit : nat)
    (w0 w1 : world) (missing : list string) (s : pool) :
  missingComics E N dbPath w0 = (Ok missing, w1) →
  rtc (Semaphore.getComic_step E dbPath rateLimit) (init_pool missing w1) s →
  (∀ item, item ∈ missing → files (pworld s) !! clean (dbPath +:+ item) = Some Dir) →
  (∃ w2,
     missingComics E N dbPath (pworld s) = (Ok [], w2)
     ∧ files w2 = files (pworld s)
     ∧ ∀ s', ¬ Semaphore.getComic_step E dbPath rateLimit (init_pool [] w2) s')
  ∧ (∀ rateLimit' dbPath0 body c r wf,
       Semaphore.add_trailing_slash dbPath0 = Some dbPath →
       http_get E (xkcdURL +:+ jsonFile) = Some body →
       json_decode E body = Some c → Num c = N →
       IsNotExist (stat_err E (files (pworld s)) dbPath) = false →
       Semaphore.main_run E rateLimit' dbPath0 (pworld s) r wf →
       r = Ok tt
       ∧ files wf = files (pworld s)
       ∧ fetch_lines (events_since (pworld s) wf) = []
       ∧ last (trace wf) = Some (EvPrint MsgNoMissing)).
Proof.
  intros Hscan Hrun Hdone.
  destruct (missingComics_files _ _ _ _ _ _ Hscan) as [Hfs Hm].
  pose proof (inv_grows _ _ _ _ (semaphore_inv _ _ _ _ _ _ Hrun)) as Hg.
  rewrite Hfs in Hg.
  assert (HN : ¬ (N < 0 ∨ max_cap E < N)%Z).
  { intros HN. unfold missingComics in Hscan. now rewrite decide_True in Hscan. }
  assert (Hnone : filter (λ j, j ≠ 404%Z ∧ absent E (files (pworld s)) dbPath j)
                         (seqZ 1 N) = []).
  { apply elem_of_nil_inv. intros j [[Hne Habs] Hj]%list_elem_of_filter.
    unfold absent, stat_err in Habs.
    destruct (io_fault E OpStat (dbPath +:+ itoa j)) eqn:Hfault; [discriminate|].
    destruct (files (pworld s) !! clean (dbPath +:+ itoa j)) eqn:Hnow; [discriminate|].
    destruct (files w0 !! clean (dbPath +:+ itoa j)) eqn:Hthen.
    - destruct (Hg (clean (dbPath +:+ itoa j))) as [Hkeep _].
      rewrite Hnow, Hthen in Hkeep. destruct Hkeep as [x Hx]; [eauto|discriminate].
    - rewrite Hdone in Hnow; [discriminate|].
      rewrite Hm. apply list_elem_of_fmap_2, list_elem_of_filter.
      split; [|assumption]. split; [assumption|].
      unfold absent, stat_err. now rewrite Hfault, Hthen. }
  assert (Hlines : ∀ l, fetch_lines (scan_events dbPath l) = []).
  { intros l. induction l as [|j l IH]; [reflexivity|exact IH]. }
  split.
  - eexists. split_and!.
    + unfold missingComics. rewrite decide_False by assumption.
      rewrite missingComics_loop_eq, Z2Nat.id by lia. now rewrite Hnone.
    + reflexivity.
    + intros s' Hstep. inversion Hstep; subst; cbn in *;
        match goal with H : [] !! _ = Some _ |- _ => discriminate H end.
  - intros rateLimit' dbPath0 body c r wf Hnorm Hget Hdec HNum Hroot Hmain.
    subst N.
    pose proof (semaphore_prologue_nothing_missing E rateLimit' dbPath0 dbPath body c
                  (pworld s) Hnorm Hget Hdec ltac:(lia) Hroot Hnone) as Hpro.
    destruct Hmain as [c' w' H|w' H|w' H|p' m w' s' H|p' m w' s' c' H|p' m w' s' H];
      rewrite Hpro in H; try discriminate.
    injection H as <-. cbn [files trace]. split_and!; try reflexivity.
    + unfold events_since. cbn [trace]. rewrite drop_app_length.
      cbn [app fetch_lines]. now rewrite fetch_lines_app, Hlines.
    + now rewrite last_app, !last_cons, last_snoc.
Qed.

Lemma idempotence_witness :
  ∃ w2,
    missingComics demo_env 1 "db/"
      (Semaphore.worker demo_env "db/" "1"
         (World (files empty_archive) [EvStat "db/1"])).2
    = (Ok [], w2).
Proof.
  pose (w1 := World (files empty_archive) [EvStat "db/1"]).
  pose (w' := (Semaphore.worker demo_env "db/" "1" w1).2).
  destruct (idempotence demo_env "db/" 1 1 empty_archive w1 ["1"%string]
              (Pool [("1"%string, Finished Saved)] 0 w' None))
    as [(w2 & Hw2 & _) _].
  - vm_compute. reflexivity.
  - eapply rtc_l.
    { apply (step_acquire _ _ (init_pool ["1"%string] w1) 0 "1"%string);
        [reflexivity|reflexivity|cbn; lia]. }
    eapply rtc_l.
    { eapply (step_body _ _ _ 0 "1"%string Saved w'); [reflexivity|reflexivity|].
      vm_compute. reflexivity. }
    eapply rtc_l.
    { eapply (step_release _ _ _ 0 "1"%string Saved);
        [reflexivity|reflexivity|cbn; lia]. }
    apply rtc_refl.
  - intros item Hin. apply list_elem_of_In in Hin. destruct Hin as [<-|[]].
    vm_compute. reflexivity.
  - exists w2. exact Hw2.
Defined.

(** ** Errors of the existence check *)

#[global] Instance itoa_Inj : Inj eq eq itoa.
Proof. intros i j. apply itoa_inj. Qed.

(** C10.  [missingComics], for a bound that [make] accepts as a capacity,
    lists an index of its range exactly when it is not 404 and [os.Stat]
    fails with a not-exist error.  An index whose check fails with any other
    error is left out: the scan makes nothing but existence checks (it
    prints and logs nothing), and in neither source file is a download of
    that comic ever started. *)
Theorem stat_error_classification (E : Env) (dbPath : string) (N : Z) (w : world)
    (i : Z) :
  (1 ≤ i ≤ N)%Z →
  (N ≤ max_cap E)%Z →
  ∃ missing w',
    missingComics E N dbPath w = (Ok missing, w')
    ∧ ((itoa i ∈ missing)
       ↔ i ≠ 404%Z ∧ stat_err E (files w) (dbPath +:+ itoa i) = Some (ErrFs ENOENT))
    ∧ (∀ e, stat_err E (files w) (dbPath +:+ itoa i) = Some e → e ≠ ErrFs ENOENT →
         (itoa i ∉ missing)
         ∧ Forall (λ ev, ∃ p, ev = EvStat p) (events_since w w')
         ∧ (∀ rateLimit s,
              rtc (Semaphore.getComic_step E dbPath rateLimit) (init_pool missing w') s →
              itoa i ∉ fetch_lines (events_since w' (pworld s)))
         ∧ (∀ dlList bs s,
              Batched.splitSlice missing 200 = Some dlList →
              rtc (Batched.loop_step E) (Batched.loop_init dlList w') (Batched.Loop bs s) →
              itoa i ∉ fetch_lines (events_since w' (pworld s)))).
Proof.
  intros Hi Hcap.
  destruct (missingComics E N dbPath w) as [r w'] eqn:Hscan.
  assert (Hr : ∃ missing, r = Ok missing).
  { unfold missingComics in Hscan. rewrite decide_False in Hscan by lia.
    rewrite missingComics_loop_eq in Hscan. injection Hscan as <- _. eauto. }
  destruct Hr as [missing ->]. exists missing, w'. split; [reflexivity|].
  destruct (missingComics_files _ _ _ _ _ _ Hscan) as [Hfs Hm].
  assert (Hmem : (itoa i ∈ missing)
       ↔ i ≠ 404%Z ∧ stat_err E (files w) (dbPath +:+ itoa i) = Some (ErrFs ENOENT)).
  { rewrite Hm, (list_elem_of_fmap_inj itoa), list_elem_of_filter, elem_of_seqZ.
    unfold absent. intuition lia. }
  split; [exact Hmem|].
  intros e He Hne.
  assert (Hout : itoa i ∉ missing).
  { rewrite Hmem, He. intros [_ [= ->]]. now apply Hne. }
  split_and!.
  - exact Hout.
  - unfold missingComics in Hscan. rewrite decide_False in Hscan by lia.
    rewrite missingComics_loop_eq in Hscan. injection Hscan as _ <-.
    unfold events_since. cbn [trace]. rewrite drop_app_length.
    apply Forall_fmap, Forall_forall. intros j _. cbn. eauto.
  - intros rateLimit s Hrun.
    destruct (pool_started _ _ _ _ (semaphore_inv _ _ _ _ _ _ Hrun))
      as (started & Hs & Hsub & _).
    rewrite Hs. intros Hin. apply Hout. eapply elem_of_sublist; eassumption.
  - intros dlList bs s Hsplit Hrun.
    change 200%Z with (Z.of_nat 200) in Hsplit.
    apply splitSlice_blocks in Hsplit as [Hc Hb]; [|lia].
    pose proof (loop_inv_reachable E 200 missing w' dlList _ Hc Hb Hrun) as Hinv.
    destruct (loop_started _ _ _ _ Hinv) as (_ & _ & started & Hs & Hsub & _).
    cbn [Batched.current] in Hs. rewrite Hs.
    intros Hin. apply Hout. eapply elem_of_sublist; eassumption.
Qed.

(** The same archive, but the directory of comic 2 cannot be examined. *)
Lemma stat_error_classification_witness :
  ∃ missing w',
    missingComics (mkEnv demo_http demo_json
                     (λ o p, match o with
                             | OpStat => bool_decide (p = "db/2"%string)
                             | _ => false
                             end)
                     demo_max_cap)
                  3 "db/" empty_archive = (Ok missing, w')
    ∧ ("2"%string ∉ missing) ∧ "1"%string ∈ missing.
Proof.
  destruct (stat_error_classification
              (mkEnv demo_http demo_json
                 (λ o p, match o with
                         | OpStat => bool_decide (p = "db/2"%string)
                         | _ => false
                         end)
                 demo_max_cap)
              "db/" 3 empty_archive 2) as (missing & w' & Hscan & _ & Hother).
  - lia.
  - vm_compute. discriminate.
  - exists missing, w'. split; [exact Hscan|]. split.
    + apply (Hother (ErrFs EACCES)); [reflexivity|discriminate].
    + vm_compute in Hscan. injection Hscan as <- _.
      apply list_elem_of_In. cbn. tauto.
Defined.

(** The scan of an empty archive for a catalogue of three comics. *)
Lemma missingComics_correct_witness :
  ∃ idx : list Z,
    missingComics demo_env 3 "db/" empty_archive
    = (Ok (itoa <$> idx),
       World (files empty_archive)
             (trace empty_archive
              ++ scan_events "db/" (filter (λ j, j ≠ 404%Z) (seqZ 1 3))))
    ∧ ∀ i, i ∈ idx ↔ (1 ≤ i ≤ 3)%Z ∧ i ≠ 404%Z ∧ absent demo_env (files empty_archive) "db/" i.
Proof.
  destruct (proj1 (missingComics_correct demo_env "db/" 3 empty_archive ltac:(lia)))
    as (idx & H1 & _ & H3 & _).
  - vm_compute. discriminate.
  - exists idx. split; [exact H1|exact H3].
Defined.

(** An archive in which the entry named [2] is a regular file: there is no
    subdirectory of that name, yet ["2"] is not returned; and a bound just
    beyond the capacity of the example platform, for which no list is
    returned. *)
Lemma missingComics_not_directory_counterexample :
  files (World {["db" := Dir; "db/2" := File "a file"]} []) !! "db/2"%string ≠ Some Dir
  ∧ missingComics demo_env 3 "db/" (World {["db" := Dir; "db/2" := File "a file"]} [])
    = (Ok ["1"; "3"]%string,
       World {["db" := Dir; "db/2" := File "a file"]}
             [EvStat "db/1"; EvStat "db/2"; EvStat "db/3"])
  ∧ missingComics demo_env (demo_max_cap + 1) "db/"
      (World {["db" := Dir; "db/2" := File "a file"]} [])
    = (Panic, World {["db" := Dir; "db/2" := File "a file"]} []).
Proof.
  split_and!.
  - vm_compute. discriminate.
  - vm_compute. reflexivity.
  - unfold missingComics. now rewrite decide_True by (vm_compute; right; reflexivity).
Qed.

(** The example of the specification: 205 comics in blocks of 200. *)
Lemma splitSlice_correct_witness :
  ∃ chunks,
    Batched.splitSlice (itoa <$> seqZ 1 205) 200 = Some chunks
    ∧ length <$> chunks = [200; 5].
Proof.
  destruct (splitSlice_correct (itoa <$> seqZ 1 205) 200) as (chunks & Hs & _).
  - lia.
  - exists chunks. split; [exact Hs|].
    vm_compute in Hs. injection Hs as <-. reflexivity.
Defined.

(** ** The files of a downloaded item, src/unnamed/part_000 *)

Lemma string_app_assoc a b c : (a +:+ b) +:+ c = a +:+ (b +:+ c).
Proof.
  induction a as [|x a IH]; [reflexivity|].
  change (String x ((a +:+ b) +:+ c) = String x (a +:+ (b +:+ c))). now rewrite IH.
Qed.

Lemma string_app_inj_l a b c : a +:+ b = a +:+ c → b = c.
Proof.
  induction a as [|x a IH]; [easy|]. intros H.
  change (String x (a +:+ b) = String x (a +:+ c)) in H. injection H as H. auto.
Qed.

Lemma length_clean p : String.length (clean p) ≤ String.length p.
Proof.
  induction p as [|c p IH]; [reflexivity|]. cbn [clean].
  destruct (clean p) as [|a r]; [destruct (Ascii.eqb c "/")|]; simpl in *; lia.
Qed.

(** A path that does not end in a separator is its own clean form. *)
Lemma clean_no_trailing q c :
  c ≠ "/"%char → clean (q +:+ String c EmptyString) = q +:+ String c EmptyString.
Proof.
  intros Hc. induction q as [|a q IH].
  - change (clean (String c EmptyString) = String c EmptyString). cbn [clean].
    now rewrite (proj2 (Ascii.eqb_neq c "/") Hc).
  - change (clean (String a (q +:+ String c EmptyString))
            = String a (q +:+ String c EmptyString)).
    cbn [clean]. rewrite IH. destruct q; reflexivity.
Qed.

(** The last part of a split has no separator in it. *)
Lemma last_split_no_slash s seg q c :
  last (split_slash s) = Some seg → seg = q +:+ String c EmptyString → c ≠ "/"%char.
Proof.
  revert seg q. induction s as [|a s IH]; intros seg q.
  - intros [= <-]. now destruct q.
  - cbn [split_slash]. destruct (Ascii.eqb a "/") eqn:Ha.
    + destruct (split_slash s) as [|x rest] eqn:Hs;
        [now apply split_slash_nonempty in Hs|].
      rewrite last_cons. destruct (last (x :: rest)) as [y|] eqn:Hl;
        [|now apply last_None in Hl].
      intros [= <-]. now apply IH.
    + destruct (split_slash s) as [|x rest] eqn:Hs;
        [now apply split_slash_nonempty in Hs|].
      destruct rest as [|y rest].
      * cbn. intros [= <-]. destruct q as [|b q].
        -- cbn. intros [= -> _]. now apply Ascii.eqb_neq.
        -- simpl. intros [= _ Hx]. now apply (IH x q).
      * rewrite last_cons. rewrite last_cons in IH.
        destruct (last (y :: rest)) as [z|] eqn:Hl; [|now apply last_None in Hl].
        intros [= <-]. now apply IH.
Qed.

(** A child of a directory: its clean path is longer than that of the
    directory and determines its name. *)
Lemma child_ne_parent d q c :
  c ≠ "/"%char → clean (d +:+ "/" +:+ q +:+ String c EmptyString) ≠ clean d.
Proof.
  intros Hc Heq.
  rewrite <- !string_app_assoc, clean_no_trailing in Heq by assumption.
  pose proof (length_clean d) as Hlen. rewrite <- Heq in Hlen.
  rewrite !length_app_string in Hlen. cbn in Hlen. lia.
Qed.

Lemma child_inj d q c q' c' :
  c ≠ "/"%char → c' ≠ "/"%char →
  clean (d +:+ "/" +:+ q +:+ String c EmptyString)
  = clean (d +:+ "/" +:+ q' +:+ String c' EmptyString) →
  q +:+ String c EmptyString = q' +:+ String c' EmptyString.
Proof.
  intros Hc Hc' Heq.
  rewrite <- !string_app_assoc, !clean_no_trailing in Heq by assumption.
  rewrite !string_app_assoc in Heq.
  now apply string_app_inj_l, string_app_inj_l in Heq.
Qed.

Lemma bind_Ok_inv {A B} (m : M A) (k : A → M B) w b w' :
  bind m k w = (Ok b, w') → ∃ a w1, m w = (Ok a, w1) ∧ k a w1 = (Ok b, w').
Proof.
  unfold bind. destruct (m w) as [[a|c|] w1]; [eauto|discriminate..].
Qed.

Section Inversion.
Context (E : Env).

Lemma os_Mkdir_Ok p w w' :
  os_Mkdir E p w = (Ok None, w') →
  files w !! clean p = None ∧ files w' = <[clean p := Dir]> (files w).
Proof.
  unfold os_Mkdir, mkdir_fs. destruct (io_fault E OpMkdir p); [discriminate|].
  destruct (files w !! clean p); [discriminate|]. now intros [= <-].
Qed.

Lemma os_Create_Ok p w w' :
  os_Create E p w = (Ok None, w') →
  files w !! clean p ≠ Some Dir ∧ files w' = <[clean p := File EmptyString]> (files w).
Proof.
  unfold os_Create, create_fs. destruct (io_fault E OpCreate p); [discriminate|].
  destruct (files w !! clean p) as [[|d]|]; [discriminate| |]; now intros [= <-].
Qed.

Lemma append_Ok o p data fs fs' :
  append_fs E o fs p data = (None, fs') →
  ∃ old, fs !! clean p = Some (File old) ∧ fs' = <[clean p := File (old +:+ data)]> fs.
Proof.
  unfold append_fs. destruct (io_fault E o p); [discriminate|].
  destruct (fs !! clean p) as [[|old]|]; [discriminate| |discriminate].
  intros [= <-]. eauto.
Qed.

(** A file created and written: it holds exactly the data. *)
Lemma write_field_Ok p data w w' :
  write_field E p data w = (Ok tt, w') →
  files w !! clean p ≠ Some Dir ∧ files w' = <[clean p := File data]> (files w).
Proof.
  unfold write_field. intros (err & w1 & Hc & Hk)%bind_Ok_inv.
  destruct err as [e|]; [discriminate|].
  apply os_Create_Ok in Hc as [Hnd Hf1]. split; [assumption|].
  apply bind_Ok_inv in Hk as (werr & w2 & Hw & Hr).
  destruct werr as [e|]; [discriminate|]. injection Hr as <-.
  unfold file_WriteString in Hw.
  destruct (append_fs E OpWrite (files w1) p data) as [e fs2] eqn:Ha.
  injection Hw as -> <-. cbn [files].
  apply append_Ok in Ha as (old & Hold & ->).
  rewrite Hf1, lookup_insert_eq in Hold. injection Hold as <-.
  rewrite Hf1. cbn. apply insert_insert_eq.
Qed.

(** The image part when it ends well. *)
Lemma write_image_Ok savePath item comicData w o w' imgName :
  write_image E savePath item comicData w = (Ok o, w') →
  o = Saved ∨ o = NoImage →
  last (split_slash (Img comicData)) = Some imgName →
  (imgName = EmptyString ∧ files w' = files w)
  ∨ (imgName ≠ EmptyString
     ∧ ∃ data, http_get E (Img comicData) = Some data
               ∧ files w' = <[clean (savePath +:+ imgName) := File data]> (files w)).
Proof.
  unfold write_image. intros (resp & w1 & Hget & Hk)%bind_Ok_inv Ho Hlast.
  unfold http_Get in Hget. injection Hget as <- <-.
  destruct (http_get E (Img comicData)) as [data|] eqn:Hdata.
  - rewrite Hlast in Hk. destruct (decide (imgName = EmptyString)) as [Hn|Hn].
    + left. split; [assumption|].
      apply bind_Ok_inv in Hk as ([] & w2 & Hp & Hr).
      unfold printf, emit in Hp. injection Hp as <-. now injection Hr as _ <-.
    + right. split; [assumption|]. exists data. split; [reflexivity|].
      apply bind_Ok_inv in Hk as (err & w2 & Hc & Hk).
      destruct err as [e|]; [discriminate|].
      apply os_Create_Ok in Hc as [_ Hf2]. cbn [files] in Hf2.
      apply bind_Ok_inv in Hk as (cerr & w3 & Hcp & Hr).
      destruct cerr as [e|]; [discriminate|]. injection Hr as _ <-.
      unfold io_Copy in Hcp.
      destruct (append_fs E OpCopy (files w2) (savePath +:+ imgName) data)
        as [e fs3] eqn:Ha.
      injection Hcp as -> <-. cbn [files].
      apply append_Ok in Ha as (old & Hold & ->).
      rewrite Hf2, lookup_insert_eq in Hold. injection Hold as <-.
      rewrite Hf2. cbn. apply insert_insert_eq.
  - apply bind_Ok_inv in Hk as ([] & w2 & _ & Hr). injection Hr as <- _.
    destruct Ho; discriminate.
Qed.

End Inversion.

Ltac finish_iff :=
  split;
  [ intros [? Hx]; first [assumption|discriminate Hx|congruence]
  | intros Hn; first [eexists; reflexivity|contradiction|congruence] ].

Lemma plain_suffix item q c :
  c ≠ "/"%char → plain (item +:+ q +:+ String c EmptyString).
Proof. intros Hc. exists (item +:+ q), c. now rewrite string_app_assoc. Qed.

Lemma plain_last_segment s seg :
  last (split_slash s) = Some seg → seg ≠ EmptyString → plain seg.
Proof.
  intros Hl Hne. destruct (string_snoc seg Hne) as (q & c & ->).
  exists q, c. split; [reflexivity|]. eapply last_split_no_slash; [eassumption|reflexivity].
Qed.

Lemma plain_ne_parent d name : plain name → clean (d +:+ "/" +:+ name) ≠ clean d.
Proof. intros (q & c & -> & Hc). now apply child_ne_parent. Qed.

Lemma plain_inj d n1 n2 :
  plain n1 → plain n2 → clean (d +:+ "/" +:+ n1) = clean (d +:+ "/" +:+ n2) → n1 = n2.
Proof. intros (q & c & -> & Hc) (q' & c' & -> & Hc'). now apply child_inj. Qed.

Lemma savePath_child dbPath item name :
  (dbPath +:+ item +:+ "/") +:+ name = (dbPath +:+ item) +:+ "/" +:+ name.
Proof. now rewrite !string_app_assoc. Qed.

Lemma savePath_clean dbPath item :
  clean (dbPath +:+ item +:+ "/") = clean (dbPath +:+ item).
Proof. now rewrite <- string_app_assoc, clean_app_slash. Qed.

Lemma semaphore_write_meta_Ok E savePath item comicData w w' :
  Semaphore.write_meta E savePath item comicData w = (Ok tt, w') →
  ∃ fs1,
    fs1 = (if decide (Alt comicData ≠ EmptyString)
           then <[clean (savePath +:+ item +:+ "-alt") := File (Alt comicData)]> (files w)
           else files w)
    ∧ files w' =
        if decide (Transcript comicData ≠ EmptyString)
        then <[clean (savePath +:+ item +:+ "-transcript") := File (Transcript comicData)]> fs1
        else fs1.
Proof.
  unfold Semaphore.write_meta. intros ([] & w1 & Ha & Ht)%bind_Ok_inv.
  eexists. split; [reflexivity|].
  assert (Hf1 : files w1
                = if decide (Alt comicData ≠ EmptyString)
                  then <[clean (savePath +:+ item +:+ "-alt") := File (Alt comicData)]> (files w)
                  else files w).
  { destruct (decide (Alt comicData ≠ EmptyString)).
    - now apply write_field_Ok in Ha as [_ ->].
    - now injection Ha as <-. }
  rewrite <- Hf1.
  destruct (decide (Transcript comicData ≠ EmptyString)).
  - now apply write_field_Ok in Ht as [_ ->].
  - now injection Ht as <-.
Qed.

(** X11.  Completeness after success in src/unnamed/part_000.  When the body
    ends with the image saved or with "has no image", the metadata was
    fetched and decoded, and, in an archive whose entries all lie in existing
    directories and unless the image is itself named like a metadata file,
    the directory of the item exists and holds the alt file exactly when
    [Alt] is not empty, the transcript file exactly when [Transcript] is not
    empty, and a file named by the last segment of [Img] exactly when that
    segment is not empty. *)
Lemma semaphore_files_complete (E : Env) (dbPath item : string) (w w' : world)
    (o : outcome) :
  Semaphore.worker E dbPath item w = (Ok o, w') →
  o = Saved ∨ o = NoImage →
  tidy (files w) →
  ∃ body comicData imgName,
    http_get E (xkcdURL +:+ item +:+ "/" +:+ jsonFile) = Some body
    ∧ json_decode E body = Some comicData
    ∧ last (split_slash (Img comicData)) = Some imgName
    ∧ (imgName ≠ item +:+ "-alt" → imgName ≠ item +:+ "-transcript" →
       files w' !! clean (dbPath +:+ item +:+ "/") = Some Dir
       ∧ (is_file (files w') ((dbPath +:+ item +:+ "/") +:+ item +:+ "-alt")
          ↔ Alt comicData ≠ EmptyString)
       ∧ (is_file (files w') ((dbPath +:+ item +:+ "/") +:+ item +:+ "-transcript")
          ↔ Transcript comicData ≠ EmptyString)
       ∧ (is_file (files w') ((dbPath +:+ item +:+ "/") +:+ imgName)
          ↔ imgName ≠ EmptyString)).
Proof.
  intros Hrun Ho Htidy.
  unfold Semaphore.worker, worker_with in Hrun.
  apply bind_Ok_inv in Hrun as ([] & w1 & Hp & Hrun).
  unfold printf, emit in Hp. injection Hp as <-.
  unfold after_first_line in Hrun.
  apply bind_Ok_inv in Hrun as (resp & w2 & Hget & Hrun).
  unfold http_Get in Hget. injection Hget as <- <-.
  destruct (http_get E (xkcdURL +:+ item +:+ "/" +:+ jsonFile)) as [body|] eqn:Hbody.
  2:{ apply bind_Ok_inv in Hrun as ([] & w3 & _ & Hr). injection Hr as <- _.
      destruct Ho; discriminate. }
  destruct (json_decode E body) as [comicData|] eqn:Hdec.
  2:{ apply bind_Ok_inv in Hrun as ([] & w3 & _ & Hr).
      apply bind_Ok_inv in Hr as ([] & w4 & _ & Hr). injection Hr as <- _.
      destruct Ho; discriminate. }
  apply bind_Ok_inv in Hrun as (err & w3 & Hmk & Hrun).
  destruct err as [e|]; [discriminate|].
  apply os_Mkdir_Ok in Hmk as [Hfresh Hf3]. cbn [files] in Hfresh, Hf3.
  apply bind_Ok_inv in Hrun as ([] & w4 & Hmeta & Himg).
  apply semaphore_write_meta_Ok in Hmeta as (fs1 & Hfs1 & Hf4).
  destruct (split_slash_last (Img comicData)) as [imgName Hlast].
  apply (write_image_Ok _ _ _ _ _ _ _ imgName) in Himg; [|assumption..].
  exists body, comicData, imgName. split_and!; try reflexivity; try assumption.
  intros Hna Hnt.
  rewrite savePath_clean in *. rewrite !savePath_child in *.
  set (D := dbPath +:+ item) in *.
  assert (Hpa : plain (item +:+ "-alt")) by (apply (plain_suffix item "-al" "t"); discriminate).
  assert (Hpt : plain (item +:+ "-transcript"))
    by (apply (plain_suffix item "-transcrip" "t"); discriminate).
  pose proof (plain_ne_parent D _ Hpa) as Had.
  pose proof (plain_ne_parent D _ Hpt) as Htd.
  assert (Hat : clean (D +:+ "/" +:+ item +:+ "-alt")
                ≠ clean (D +:+ "/" +:+ item +:+ "-transcript")).
  { intros Heq%plain_inj; [|assumption..]. apply string_app_inj_l in Heq. discriminate. }
  assert (H0a : files w !! clean (D +:+ "/" +:+ item +:+ "-alt") = None).
  { destruct (files w !! clean (D +:+ "/" +:+ item +:+ "-alt")) eqn:Hx; [|reflexivity].
    destruct (Htidy D (item +:+ "-alt")) as [x Hd]; [eauto|congruence]. }
  assert (H0t : files w !! clean (D +:+ "/" +:+ item +:+ "-transcript") = None).
  { destruct (files w !! clean (D +:+ "/" +:+ item +:+ "-transcript")) eqn:Hx; [|reflexivity].
    destruct (Htidy D (item +:+ "-transcript")) as [x Hd]; [eauto|congruence]. }
  unfold is_file.
  destruct Himg as [[-> Hf5]|(Hne & data & _ & Hf5)].
  - (* no image file *)
    assert (Hd : D +:+ "/" +:+ "" = D +:+ "/") by reflexivity.
    rewrite Hf5, Hf4, Hfs1, Hf3.
    destruct (decide (Alt comicData ≠ EmptyString)) as [Ha|Ha],
             (decide (Transcript comicData ≠ EmptyString)) as [Ht|Ht];
      rewrite ?Hd, ?clean_app_slash;
      repeat (rewrite lookup_insert_eq || rewrite lookup_insert_ne by congruence);
      rewrite ?H0a, ?H0t, ?Hfresh;
      (split_and!; [reflexivity|finish_iff..]).
  - (* an image file *)
    pose proof (plain_last_segment _ _ Hlast Hne) as Hpi.
    pose proof (plain_ne_parent D _ Hpi) as Hid.
    assert (Hia : clean (D +:+ "/" +:+ imgName) ≠ clean (D +:+ "/" +:+ item +:+ "-alt")).
    { intros Heq%plain_inj; [congruence|assumption..]. }
    assert (Hit : clean (D +:+ "/" +:+ imgName)
                  ≠ clean (D +:+ "/" +:+ item +:+ "-transcript")).
    { intros Heq%plain_inj; [congruence|assumption..]. }
    rewrite Hf5, Hf4, Hfs1, Hf3.
    destruct (decide (Alt comicData ≠ EmptyString)) as [Ha|Ha],
             (decide (Transcript comicData ≠ EmptyString)) as [Ht|Ht];
      repeat (rewrite lookup_insert_eq || rewrite lookup_insert_ne by congruence);
      rewrite ?H0a, ?H0t, ?Hfresh;
      (split_and!; [reflexivity|finish_iff..]).
Qed.

Lemma semaphore_files_complete_witness :
  ∃ w',
    Semaphore.worker demo_env "db/" "1" (World ∅ []) = (Ok Saved, w')
    ∧ is_file (files w') "db/1/1-alt"
    ∧ ¬ is_file (files w') "db/1/1-transcript"
    ∧ is_file (files w') "db/1/a.png".
Proof.
  destruct (Semaphore.worker demo_env "db/" "1" (World ∅ [])) as [r w'] eqn:Hrun.
  assert (Hr : r = Ok Saved) by (vm_compute in Hrun; now injection Hrun as <- _).
  subst r. exists w'. split; [reflexivity|].
  destruct (semaphore_files_complete demo_env "db/" "1" (World ∅ []) w' Saved Hrun)
    as (body & comicData & imgName & Hbody & Hdec & Hlast & Hfiles).
  - now left.
  - intros d name [x Hx]. cbn [files] in Hx. now rewrite lookup_empty in Hx.
  - vm_compute in Hbody. injection Hbody as <-.
    vm_compute in Hdec. injection Hdec as <-.
    vm_compute in Hlast. injection Hlast as <-.
    destruct Hfiles as (_ & Ha & Ht & Hi); [discriminate..|].
    split_and!.
    + apply Ha. discriminate.
    + intros Hf. now apply Ht in Hf.
    + apply Hi. discriminate.
Defined.

(** Why the names must differ: the image of comic 7 is named [7-alt]; the
    download succeeds, and the directory of the item holds a file [7-alt]
    although [Alt] is empty. *)
Lemma asset_named_like_alt_counterexample :
  json_decode clash_env "seven"
    = Some (mkComic 7 "https://imgs.xkcd.com/comics/7-alt" "" "")
  ∧ ∃ w',
      Semaphore.worker clash_env "db/" "7" (World ∅ []) = (Ok Saved, w')
      ∧ is_file (files w') "db/7/7-alt".
Proof.
  split; [reflexivity|].
  eexists. split; [vm_compute; reflexivity|].
  exists "PNG"%string. vm_compute. reflexivity.
Qed.

(** * Further properties of the code *)

(** ** The pool: tokens, a channel without room *)

Section PoolMore.
Context (cap : option nat).

Lemma finished_not_holding (l : list (string * wstate)) :
  Forall (λ x, finished x.2) l → filter (λ x, holding x.2) l = [].
Proof.
  induction 1 as [|[item st] l Hst _ IH]; [reflexivity|].
  rewrite filter_cons, IH. cbn [snd] in *.
  destruct st; try contradiction. now decide_bools.
Qed.

Lemma live_tokens dlList w0 s c :
  cap = Some c → pool_inv cap dlList w0 s → exited s = None →
  tokens s = in_flight s ∧ (all_finished s → tokens s = 0).
Proof.
  intros Hc Hinv He. destruct (inv_tokens _ _ _ _ Hinv c Hc) as (_ & _ & Ht).
  specialize (Ht He). split; [assumption|].
  intros Hf. rewrite Ht. unfold in_flight. now rewrite finished_not_holding.
Qed.

End PoolMore.

(** X2.  No token is lost: while the process lives, the channel of
    src/unnamed/part_000 holds exactly one token for each goroutine between
    its send and its deferred receive, and it is empty again once every
    goroutine has finished, whatever way each body returned. *)
Theorem tokens_given_back (E : Env) (dbPath : string) (rateLimit : nat)
    (dlList : list string) (w0 : world) (s : pool) :
  rtc (Semaphore.getComic_step E dbPath rateLimit) (init_pool dlList w0) s →
  exited s = None →
  tokens s = in_flight s ∧ (all_finished s → tokens s = 0).
Proof.
  intros Hrun He.
  eapply (live_tokens (Some rateLimit)); [reflexivity| |assumption].
  exact (semaphore_inv _ _ _ _ _ _ Hrun).
Qed.

Lemma tokens_given_back_witness :
  tokens (Pool [("3"%string, Finished MetaTransportFailed)] 0
               (Semaphore.worker demo_env "db/" "3" empty_archive).2 None) = 0.
Proof.
  pose (w' := (Semaphore.worker demo_env "db/" "3" empty_archive).2).
  refine (proj2 (tokens_given_back demo_env "db/" 1 ["3"%string] empty_archive
                   (Pool [("3"%string, Finished MetaTransportFailed)] 0 w' None) _ _) _).
  - eapply rtc_l.
    { apply (step_acquire _ _ (init_pool ["3"%string] empty_archive) 0 "3"%string);
        [reflexivity|reflexivity|cbn; lia]. }
    eapply rtc_l.
    { eapply (step_body _ _ _ 0 "3"%string MetaTransportFailed w');
        [reflexivity|reflexivity|]. vm_compute. reflexivity. }
    eapply rtc_l.
    { eapply (step_release _ _ _ 0 "3"%string MetaTransportFailed);
        [reflexivity|reflexivity|cbn; lia]. }
    apply rtc_refl.
  - reflexivity.
  - repeat constructor.
Defined.

(** ** [main] before [getComic] *)

Lemma quiet_ret {A} (a : A) : quiet (ret a).
Proof.
  intros w. exists []. cbn. rewrite app_nil_r.
  split_and!; [reflexivity|apply grows_refl|reflexivity|discriminate].
Qed.

Lemma quiet_panic {A} : quiet (@panic A).
Proof.
  intros w. exists []. cbn. rewrite app_nil_r.
  split_and!; [reflexivity|apply grows_refl|reflexivity|discriminate].
Qed.

Lemma quiet_bind {A B} (m : M A) (k : A → M B) :
  quiet m → (∀ a, quiet (k a)) → quiet (bind m k).
Proof.
  intros Hm Hk w. destruct (Hm w) as (evs1 & Ht1 & Hg1 & Hl1 & Hc1).
  unfold bind. destruct (m w) as [[a|c|] w1]; cbn [fst snd] in *.
  - destruct (Hk a w1) as (evs2 & Ht2 & Hg2 & Hl2 & Hc2).
    exists (evs1 ++ evs2). rewrite Ht2, Ht1, app_assoc. split_and!.
    + reflexivity.
    + eapply grows_trans; eassumption.
    + now rewrite fetch_lines_app, Hl1, Hl2.
    + assumption.
  - exists evs1. split_and!; try assumption. intros c0 [= <-]. now apply (Hc1 c).
  - exists evs1. split_and!; try assumption. discriminate.
Qed.

Lemma quiet_emit e : fetch_lines [e] = [] → quiet (emit e).
Proof.
  intros Hl w. exists [e]. cbn.
  split_and!; [reflexivity|apply grows_refl|assumption|discriminate].
Qed.

Lemma quiet_log_Fatalln {A} e : quiet (@log_Fatalln A e).
Proof.
  intros w. exists [EvLog e]. cbn.
  split_and!; [reflexivity|apply grows_refl|reflexivity|now intros c [= <-]].
Qed.

Lemma fetch_lines_scan dbPath l : fetch_lines (scan_events dbPath l) = [].
Proof. induction l as [|j l IH]; [reflexivity|exact IH]. Qed.

Section Prologue.
Context (E : Env).

Lemma quiet_http_Get url : quiet (http_Get E url).
Proof.
  intros w. exists [EvHttpGet url]. cbn.
  split_and!; [reflexivity|apply grows_refl|reflexivity|discriminate].
Qed.

Lemma quiet_os_Stat p : quiet (os_Stat E p).
Proof.
  intros w. exists [EvStat p]. cbn.
  split_and!; [reflexivity|apply grows_refl|reflexivity|discriminate].
Qed.

Lemma quiet_os_Mkdir p : quiet (os_Mkdir E p).
Proof.
  intros w. destruct (os_Mkdir_call E p w) as [(fs' & Hm & Hg)|(e & Hm)]; rewrite Hm.
  - exists [EvMkdir p None]. cbn.
    split_and!; [reflexivity|assumption|reflexivity|discriminate].
  - exists [EvMkdir p (Some e)]. cbn.
    split_and!; [reflexivity|apply grows_refl|reflexivity|discriminate].
Qed.

Lemma quiet_latestComicNum : quiet (latestComicNum E).
Proof.
  unfold latestComicNum. apply quiet_bind; [apply quiet_http_Get|].
  intros [body|]; [destruct (json_decode E body)|]; apply quiet_ret.
Qed.

Lemma quiet_missingComics N dbPath : quiet (missingComics E N dbPath).
Proof.
  intros w. unfold missingComics. destruct (decide (N < 0 ∨ max_cap E < N)%Z).
  - apply quiet_panic.
  - rewrite missingComics_loop_eq. cbn [fst snd files trace].
    eexists. split_and!; [reflexivity|apply grows_refl|apply fetch_lines_scan|discriminate].
Qed.

(** Creating the archive root when [os.Stat] says it does not exist. *)
Lemma quiet_ensure_root dbPath (err : option error) :
  quiet (if IsNotExist err
         then
           do printf (MsgCreating dbPath) then
           let* err := os_Mkdir E dbPath in
           match err with
           | Some _ => log_Fatalln err
           | None => ret tt
           end
         else ret tt).
Proof.
  destruct (IsNotExist err); [|apply quiet_ret].
  apply quiet_bind; [now apply quiet_emit|intros _].
  apply quiet_bind; [apply quiet_os_Mkdir|].
  intros [e|]; [apply quiet_log_Fatalln|apply quiet_ret].
Qed.

Lemma quiet_semaphore_prologue rateLimit dbPath :
  quiet (Semaphore.main_prologue E rateLimit dbPath).
Proof.
  unfold Semaphore.main_prologue.
  destruct (Semaphore.add_trailing_slash dbPath) as [p|]; [|apply quiet_panic].
  apply quiet_bind; [apply quiet_latestComicNum|]. intros [numComics [e|]].
  { apply quiet_log_Fatalln. }
  apply quiet_bind; [apply quiet_os_Stat|]. intros err.
  apply quiet_bind; [apply quiet_ensure_root|]. intros _.
  apply quiet_bind; [apply quiet_missingComics|]. intros missing.
  destruct (decide (length missing = 0)).
  - apply quiet_bind; [now apply quiet_emit|intros _; apply quiet_ret].
  - destruct (decide (rateLimit < 0)%Z); [apply quiet_panic|apply quiet_ret].
Qed.

Lemma quiet_batched_prologue : quiet (Batched.main_prologue E).
Proof.
  unfold Batched.main_prologue.
  apply quiet_bind; [apply quiet_latestComicNum|]. intros [numComics [e|]].
  { apply quiet_log_Fatalln. }
  apply quiet_bind; [apply quiet_os_Stat|]. intros err.
  apply quiet_bind; [apply quiet_ensure_root|]. intros _.
  apply quiet_bind; [apply quiet_missingComics|]. intros missing.
  destruct (decide (length missing = 0)).
  - apply quiet_bind; [now apply quiet_emit|intros _; apply quiet_ret].
  - apply quiet_bind; [now apply quiet_emit|intros _].
    destruct (Batched.splitSlice missing 200); [apply quiet_ret|apply quiet_panic].
Qed.

End Prologue.

(** ** Whole runs of [main] *)

(** The loop invariant for any list of blocks. *)
Lemma batched_loop_inv E dlList w0 st :
  rtc (Batched.loop_step E) (Batched.loop_init dlList w0) st →
  loop_inv (max_list (length <$> dlList)) (concat dlList) w0 st.
Proof.
  apply loop_inv_reachable; [reflexivity|].
  apply Forall_forall. intros b Hb.
  apply max_list_elem_of_le, list_elem_of_fmap_2, Hb.
Qed.

Lemma prologue_result {A} (m : M A) w r w' :
  quiet m → m w = (r, w') →
  grows (files w) (files w')
  ∧ fetch_lines (events_since w w') = []
  ∧ (∀ c, r = Exit c → c = 1%Z).
Proof.
  intros Hq Hm. destruct (Hq w) as (evs & Ht & Hg & Hl & Hc).
  rewrite Hm in Ht, Hg, Hc. cbn [fst snd] in *. split_and!; try assumption.
  unfold events_since. now rewrite Ht, drop_app_length.
Qed.

(** X3.  A run of [main], in either source file and however it ends, never
    removes an entry of the archive and never turns a directory into
    something else. *)
Theorem main_only_adds (E : Env) :
  (∀ rateLimit dbPath w r wf,
     Semaphore.main_run E rateLimit dbPath w r wf → grows (files w) (files wf))
  ∧ (∀ w r wf, Batched.main_run E w r wf → grows (files w) (files wf)).
Proof.
  split.
  - intros rateLimit dbPath w r wf Hrun.
    destruct Hrun as [c w' H|w' H|w' H|p' m w' s H Hp|p' m w' s c H Hp|p' m w' s H Hp];
      destruct (prologue_result _ _ _ _ (quiet_semaphore_prologue E rateLimit dbPath) H)
        as (Hg & _); try assumption;
      (eapply grows_trans; [exact Hg|]);
      apply (inv_grows _ _ _ _ (semaphore_inv _ _ _ _ _ _ Hp)).
  - intros w r wf Hrun.
    destruct Hrun as [c w' H|w' H|w' H|dl w' s H Hl|dl w' bs s c H Hl];
      destruct (prologue_result _ _ _ _ (quiet_batched_prologue E) H) as (Hg & _);
      try assumption;
      (eapply grows_trans; [exact Hg|]);
      destruct (loop_started _ _ _ _ (batched_loop_inv _ _ _ _ Hl)) as (_ & Hg' & _);
      exact Hg'.
Qed.

(** With a negative limit [main] creates the archive root, scans, and panics
    in [make]: the root it created stays. *)
Lemma main_only_adds_witness :
  ∃ wf, Semaphore.main_run demo_env (-1) "db" (World ∅ []) Panic wf
        ∧ grows ∅ (files wf)
        ∧ files wf !! "db"%string = Some Dir.
Proof.
  eexists. split; [|split].
  - apply Semaphore.main_panic. vm_compute. reflexivity.
  - refine (proj1 (main_only_adds demo_env) (-1)%Z "db"%string (World ∅ []) Panic _ _).
    apply Semaphore.main_panic. vm_compute. reflexivity.
  - vm_compute. reflexivity.
Defined.

(** X4.  The exit status of a run.  A run of [main] ends in one of three
    ways: [main] returns (status 0), [log.Fatalln] ends the process in
    [main] or in a goroutine (status 1), or [main] panics (status 2, see X9
    for when).  That holds in src/xkcd.go always, and in
    src/unnamed/part_000 whenever the limit is at least 1, in which case the
    goroutines never come to a standstill. *)
Theorem main_exit_status (E : Env) :
  (∀ rateLimit dbPath w r wf,
     (1 ≤ rateLimit)%Z →
     Semaphore.main_run E rateLimit dbPath w r wf →
     (r = Ok tt ∧ exit_status r = 0%Z)
     ∨ (r = Exit 1%Z ∧ exit_status r = 1%Z)
     ∨ (r = Panic ∧ exit_status r = 2%Z))
  ∧ (∀ w r wf,
       Batched.main_run E w r wf →
       (r = Ok tt ∧ exit_status r = 0%Z)
       ∨ (r = Exit 1%Z ∧ exit_status r = 1%Z)
       ∨ (r = Panic ∧ exit_status r = 2%Z)).
Proof.
  split.
  - intros rateLimit dbPath w r wf Hpos Hrun.
    inversion Hrun as [c' w' H|w' H|w' H|p' m w' s H Hp He Hf
                      |p' m w' s c' H Hp He|p' m w' s H Hp He Hnf Hstuck]; subst;
      [right; left|right; right|left|left|right; left|exfalso]; try (now split).
    + destruct (prologue_result _ _ _ _ (quiet_semaphore_prologue E rateLimit dbPath) H)
        as (_ & _ & Hc). now rewrite (Hc _ eq_refl).
    + now rewrite (inv_code _ _ _ _ (semaphore_inv _ _ _ _ _ _ Hp) _ He).
    + destruct (pool_progress (Semaphore.worker E p') (Some (Z.to_nat rateLimit))
                  m w' s) as [s' Hs'];
        [exact (semaphore_inv _ _ _ _ _ _ Hp)|intros n [= <-]; lia|assumption..|].
      now destruct (Hstuck s').
  - intros w r wf Hrun.
    inversion Hrun as [c' w' H|w' H|w' H|dl w' s H Hl|dl w' bs s c' H Hl He]; subst;
      [right; left|right; right|left|left|right; left]; try (now split).
    + destruct (prologue_result _ _ _ _ (quiet_batched_prologue E) H) as (_ & _ & Hc).
      now rewrite (Hc _ eq_refl).
    + destruct (batched_loop_inv _ _ _ _ Hl) as (done & cur & wc & _ & _ & _ & Hinv & _).
      now rewrite (inv_code _ _ _ _ Hinv _ He).
Qed.

(** No directory can be created: [log.Fatalln] after [os.Mkdir] of the
    archive root, status 1. *)
Lemma main_exit_status_witness :
  (∃ wf, Semaphore.main_run readonly_env 1 "db" (World ∅ []) (Exit 1) wf)
  ∧ exit_status (Exit 1) = 1%Z.
Proof.
  assert (H : ∃ r wf, Semaphore.main_run readonly_env 1 "db" (World ∅ []) r wf
                      ∧ r ≠ Ok tt ∧ r ≠ Panic).
  { eexists _, _. split; [apply Semaphore.main_exit; vm_compute; reflexivity|].
    split; discriminate. }
  destruct H as (r & wf & Hrun & Hok & Hpanic).
  destruct (proj1 (main_exit_status readonly_env) 1%Z "db"%string (World ∅ []) r wf
              ltac:(lia) Hrun) as [[-> _]|[[-> Hs]|[-> _]]]; try contradiction.
  split; [now exists wf|exact Hs].
Defined.

Section PrologueInversion.
Context (E : Env).

Lemma latestComicNum_Ok w N w1 :
  latestComicNum E w = (Ok (N, None), w1) →
  files w1 = files w
  ∧ ∃ body c, http_get E (xkcdURL +:+ jsonFile) = Some body
              ∧ json_decode E body = Some c ∧ N = Num c.
Proof.
  unfold latestComicNum. intros (resp & w2 & Hget & Hk)%bind_Ok_inv.
  unfold http_Get in Hget. injection Hget as <- <-.
  destruct (http_get E (xkcdURL +:+ jsonFile)) as [body|]; [|discriminate].
  destruct (json_decode E body) as [c|] eqn:Hdec; [|discriminate].
  injection Hk as <- <-. split; [reflexivity|]. eauto.
Qed.

Lemma ensure_root_Ok dbPath (err : option error) w w1 :
  (if IsNotExist err
   then
     do printf (MsgCreating dbPath) then
     let* err := os_Mkdir E dbPath in
     match err with
     | Some _ => log_Fatalln err
     | None => ret tt
     end
   else ret tt) w = (Ok tt, w1) →
  (IsNotExist err = false ∧ files w1 = files w)
  ∨ (IsNotExist err = true ∧ files w !! clean dbPath = None
     ∧ files w1 = <[clean dbPath := Dir]> (files w)).
Proof.
  destruct (IsNotExist err).
  - intros ([] & w2 & Hp & Hk)%bind_Ok_inv. right.
    unfold printf, emit in Hp. injection Hp as <-.
    apply bind_Ok_inv in Hk as (e & w3 & Hm & Hr).
    destruct e as [e|]; [discriminate|]. injection Hr as <-.
    apply os_Mkdir_Ok in Hm as [Hnone Hf]. cbn [files] in *. auto.
  - intros [= <-]. now left.
Qed.

(** What [main] of src/unnamed/part_000 has done when it calls
    [getComic]. *)
Lemma semaphore_prologue_Some rateLimit dbPath0 w dbPath missing w' :
  Semaphore.main_prologue E rateLimit dbPath0 w = (Ok (Some (dbPath, missing)), w') →
  Semaphore.add_trailing_slash dbPath0 = Some dbPath
  ∧ (0 ≤ rateLimit)%Z ∧ missing ≠ []
  ∧ ∃ body c w1,
      http_get E (xkcdURL +:+ jsonFile) = Some body
      ∧ json_decode E body = Some c
      ∧ missingComics E (Num c) dbPath w1 = (Ok missing, w')
      ∧ ((IsNotExist (stat_err E (files w) dbPath) = false ∧ files w1 = files w)
         ∨ (IsNotExist (stat_err E (files w) dbPath) = true
            ∧ files w !! clean dbPath = None
            ∧ files w1 = <[clean dbPath := Dir]> (files w))).
Proof.
  unfold Semaphore.main_prologue.
  destruct (Semaphore.add_trailing_slash dbPath0) as [p|]; [|discriminate].
  intros ([N err] & w1 & Hlatest & H)%bind_Ok_inv.
  destruct err as [e|]; [discriminate|].
  apply latestComicNum_Ok in Hlatest as (Hf1 & body & c & Hget & Hdec & ->).
  apply bind_Ok_inv in H as (serr & w2 & Hstat & H).
  unfold os_Stat in Hstat. injection Hstat as <- <-.
  apply bind_Ok_inv in H as ([] & w3 & Hroot & H).
  apply ensure_root_Ok in Hroot. cbn [files] in Hroot. rewrite Hf1 in Hroot.
  apply bind_Ok_inv in H as (missing' & w4 & Hscan & H).
  destruct (decide (length missing' = 0)) as [Hz|Hnz].
  { apply bind_Ok_inv in H as ([] & w5 & _ & H). discriminate. }
  destruct (decide (rateLimit < 0)%Z); [discriminate|].
  injection H as <- <- <-. split_and!; [reflexivity|lia| |].
  - intros ->. now apply Hnz.
  - exists body, c, w3. split_and!; assumption.
Qed.

End PrologueInversion.

(** X5.  A limit that leaves no room for a token: with [-r 0] (or a negative
    limit) no download is ever started.  With [-r 0] and comics missing, every
    goroutine stays blocked in its send, so the pool never leaves its first
    state and the run ends in the deadlock exit of the Go run time, status 2,
    with the archive as the scan left it. *)
Theorem no_room_no_download (E : Env) (rateLimit : Z) (dbPath : string)
    (w : world) (r : result unit) (wf : world) :
  (rateLimit ≤ 0)%Z →
  Semaphore.main_run E rateLimit dbPath w r wf →
  fetch_lines (events_since w wf) = []
  ∧ (∀ p dlList w0 s,
       rtc (Semaphore.getComic_step E p (Z.to_nat rateLimit)) (init_pool dlList w0) s →
       s = init_pool dlList w0)
  ∧ (∀ p missing w',
       Semaphore.main_prologue E rateLimit dbPath w = (Ok (Some (p, missing)), w') →
       rateLimit = 0%Z ∧ r = Exit 2%Z ∧ wf = w').
Proof.
  intros Hle Hrun.
  assert (Hstuck : ∀ p dlList w0 s,
            rtc (Semaphore.getComic_step E p (Z.to_nat rateLimit)) (init_pool dlList w0) s →
            s = init_pool dlList w0).
  { intros p dlList w0 s Hs.
    apply (rtc_ind_r (R := Semaphore.getComic_step E p (Z.to_nat rateLimit))
             (λ s, s = init_pool dlList w0) (init_pool dlList w0));
      [reflexivity| |exact Hs].
    intros s1 s2 _ Hstep ->. exfalso.
    replace (Z.to_nat rateLimit) with 0 in Hstep by lia.
    inversion Hstep as [s3 k item He Hk Hsend|s3 k item o w1 He Hk Hb
                       |s3 k item c w1 He Hk Hb|s3 k item w1 He Hk Hb
                       |s3 k item o He Hk Hrecv]; subst;
      cbn [workers init_pool tokens] in *.
    - unfold can_send in Hsend. lia.
    - apply list_lookup_fmap_Some in Hk as (x & Hx & _); discriminate Hx.
    - apply list_lookup_fmap_Some in Hk as (x & Hx & _); discriminate Hx.
    - apply list_lookup_fmap_Some in Hk as (x & Hx & _); discriminate Hx.
    - apply list_lookup_fmap_Some in Hk as (x & Hx & _); discriminate Hx. }
  assert (Hquiet : ∀ r0 w1, Semaphore.main_prologue E rateLimit dbPath w = (r0, w1) →
                            fetch_lines (events_since w w1) = []).
  { intros r0 w1 H.
    now destruct (prologue_result _ _ _ _ (quiet_semaphore_prologue E rateLimit dbPath) H)
      as (_ & Hl & _). }
  split_and!.
  - destruct Hrun as [c w' H|w' H|w' H|p' m w' s H Hp|p' m w' s c H Hp|p' m w' s H Hp];
      try (now apply (Hquiet _ _ H));
      apply Hstuck in Hp; subst s; cbn [pworld init_pool exited] in *;
      try discriminate; try (now apply (Hquiet _ _ H)).
    apply semaphore_prologue_Some in H as (_ & _ & Hne & _).
    match goal with Hf : all_finished _ |- _ => rename Hf into Hfin end.
    destruct m as [|item m]; [now destruct Hne|].
    unfold all_finished in Hfin. cbn in Hfin. inversion Hfin as [|? ? Hx]. destruct Hx.
  - exact Hstuck.
  - intros p missing w' Hpro.
    pose proof (semaphore_prologue_Some _ _ _ _ _ _ _ Hpro) as (_ & Hge & Hne & _).
    split; [lia|].
    destruct Hrun as [c w1 H|w1 H|w1 H|p' m w1 s H Hp He Hf|p' m w1 s c H Hp He
                     |p' m w1 s H Hp He Hnf Hst];
      rewrite Hpro in H; try discriminate; injection H as <- <- <-;
      apply Hstuck in Hp; subst s; cbn [pworld init_pool exited] in *.
    + destruct missing as [|item m]; [now destruct Hne|].
      unfold all_finished in Hf. cbn in Hf. inversion Hf as [|? ? Hx]. destruct Hx.
    + discriminate.
    + now split.
Qed.

Lemma no_room_no_download_witness :
  ∃ wf, Semaphore.main_run demo_env 0 "db" empty_archive (Exit 2) wf
        ∧ fetch_lines (events_since empty_archive wf) = [].
Proof.
  assert (Hrun : Semaphore.main_run demo_env 0 "db" empty_archive (Exit 2)
                   (Semaphore.main_prologue demo_env 0 "db" empty_archive).2).
  { eapply (Semaphore.main_pool_deadlock demo_env 0 "db" empty_archive "db/"%string
              (itoa <$> seqZ 1 5) _ (init_pool (itoa <$> seqZ 1 5) _)).
    - vm_compute. reflexivity.
    - apply rtc_refl.
    - reflexivity.
    - intros Hf. unfold all_finished in Hf. cbn in Hf. inversion Hf as [|? ? Hx]. destruct Hx.
    - intros s' Hstep.
      inversion Hstep as [s k item He Hk Hsend|s k item o w1 He Hk Hb
                         |s k item c w1 He Hk Hb|s k item w1 He Hk Hb
                         |s k item o He Hk Hrecv]; subst; cbn [workers init_pool tokens] in *.
      + unfold can_send in Hsend. cbn in Hsend. lia.
      + apply list_lookup_fmap_Some in Hk as (x & Hx & _); discriminate Hx.
      + apply list_lookup_fmap_Some in Hk as (x & Hx & _); discriminate Hx.
      + apply list_lookup_fmap_Some in Hk as (x & Hx & _); discriminate Hx.
      + apply list_lookup_fmap_Some in Hk as (x & Hx & _); discriminate Hx. }
  eexists. split; [exact Hrun|].
  exact (proj1 (no_room_no_download demo_env 0 "db" empty_archive _ _ ltac:(lia) Hrun)).
Defined.

(** ** Which items a later run tries again *)

Lemma absent_None E fs dbPath i :
  absent E fs dbPath i → fs !! clean (dbPath +:+ itoa i) = None.
Proof.
  unfold absent, stat_err. destruct (io_fault E OpStat (dbPath +:+ itoa i)); [discriminate|].
  now destruct (fs !! clean (dbPath +:+ itoa i)).
Qed.

(** An item that has an entry is not in the result of a scan. *)
Lemma present_not_missing E N dbPath w missing w' i :
  missingComics E N dbPath w = (Ok missing, w') →
  is_Some (files w !! clean (dbPath +:+ itoa i)) →
  itoa i ∉ missing.
Proof.
  intros Hscan [x Hx]. destruct (missingComics_files _ _ _ _ _ _ Hscan) as [_ ->].
  rewrite (list_elem_of_fmap_inj itoa), list_elem_of_filter.
  intros [[_ Ha%absent_None] _]. congruence.
Qed.

Section Retry.
Context (E : Env) (write_meta : string → string → Comic → M unit).
Hypothesis write_meta_orderly :
  ∀ savePath item comicData, orderly (write_meta savePath item comicData).

Lemma orderly_grows {A} (m : M A) w r w' :
  orderly m → m w = (r, w') → grows (files w) (files w').
Proof.
  intros Ho Hm. destruct (Ho w) as (evs & _ & Hg & _). now rewrite Hm in Hg.
Qed.

(** How the body can return, and what it has done to the archive by then. *)
Lemma worker_with_Ok dbPath item w o w' :
  worker_with E write_meta dbPath item w = (Ok o, w') →
  ((o = MetaTransportFailed ∨ o = MetaDecodeFailed) ∧ files w' = files w)
  ∨ ((o = AssetTransportFailed ∨ o = NoImage ∨ o = Saved)
     ∧ files w !! clean (dbPath +:+ item) = None
     ∧ files w' !! clean (dbPath +:+ item) = Some Dir).
Proof.
  unfold worker_with. intros ([] & w1 & Hp & Hrun)%bind_Ok_inv.
  unfold printf, emit in Hp. injection Hp as <-.
  unfold after_first_line in Hrun.
  apply bind_Ok_inv in Hrun as (resp & w2 & Hget & Hrun).
  unfold http_Get in Hget. injection Hget as <- <-.
  destruct (http_get E (xkcdURL +:+ item +:+ "/" +:+ jsonFile)) as [body|].
  2:{ apply bind_Ok_inv in Hrun as ([] & w3 & Hl & Hr). injection Hr as <- <-.
      unfold log_Println, emit in Hl. injection Hl as <-. left. auto. }
  destruct (json_decode E body) as [comicData|].
  2:{ apply bind_Ok_inv in Hrun as ([] & w3 & Hl & Hr).
      apply bind_Ok_inv in Hr as ([] & w4 & Hl2 & Hr). injection Hr as <- <-.
      unfold printf, log_Println, emit in Hl, Hl2. injection Hl as <-. injection Hl2 as <-.
      left. auto. }
  right.
  apply bind_Ok_inv in Hrun as (err & w3 & Hmk & Hrun).
  destruct err as [e|]; [discriminate|].
  apply os_Mkdir_Ok in Hmk as [Hfresh Hf3]. cbn [files] in Hfresh, Hf3.
  rewrite savePath_clean in Hfresh, Hf3.
  apply bind_Ok_inv in Hrun as ([] & w4 & Hmeta & Himg).
  pose proof (orderly_grows _ _ _ _ (write_meta_orderly _ _ _) Hmeta) as Hg4.
  pose proof (orderly_grows _ _ _ _ (orderly_write_image E _ _ _) Himg) as Hg5.
  split_and!.
  - unfold write_image in Himg.
    apply bind_Ok_inv in Himg as (r5 & w5 & _ & Himg).
    destruct r5 as [data|].
    + destruct (last (split_slash (Img comicData))) as [imgName|]; [|discriminate].
      destruct (decide (imgName = EmptyString)).
      * apply bind_Ok_inv in Himg as ([] & w6 & _ & Hr). injection Hr as <- _. auto.
      * apply bind_Ok_inv in Himg as (e1 & w6 & _ & Himg).
        destruct e1; [discriminate|].
        apply bind_Ok_inv in Himg as (e2 & w7 & _ & Hr).
        destruct e2; [discriminate|]. injection Hr as <- _. auto.
    + apply bind_Ok_inv in Himg as ([] & w6 & _ & Hr). injection Hr as <- _. auto.
  - assumption.
  - apply Hg5, Hg4. rewrite Hf3. apply lookup_insert_eq.
Qed.

End Retry.

(** X6.  Which comics a later run tries again.  In either source file, when the
    body returns after a metadata failure the archive is as before, so a comic
    that was missing is still missing; when it returns in any other way its
    directory exists (it did not before), and however the archive grows
    afterwards no later scan lists that comic again, although its image may
    never have been written. *)
Theorem retried_only_without_directory (E : Env) (dbPath : string) (i : Z)
    (w w' : world) (o : outcome) :
  Semaphore.worker E dbPath (itoa i) w = (Ok o, w')
  ∨ (dbPath = Batched.dbPath ∧ Batched.worker E (itoa i) w = (Ok o, w')) →
  ((o = MetaTransportFailed ∨ o = MetaDecodeFailed)
   ∧ files w' = files w
   ∧ (absent E (files w) dbPath i → absent E (files w') dbPath i))
  ∨ ((o = AssetTransportFailed ∨ o = NoImage ∨ o = Saved)
     ∧ files w !! clean (dbPath +:+ itoa i) = None
     ∧ files w' !! clean (dbPath +:+ itoa i) = Some Dir
     ∧ ∀ N w2 missing w3,
         grows (files w') (files w2) →
         missingComics E N dbPath w2 = (Ok missing, w3) →
         itoa i ∉ missing).
Proof.
  intros Hrun.
  assert (Hcases :
    ((o = MetaTransportFailed ∨ o = MetaDecodeFailed) ∧ files w' = files w)
    ∨ ((o = AssetTransportFailed ∨ o = NoImage ∨ o = Saved)
       ∧ files w !! clean (dbPath +:+ itoa i) = None
       ∧ files w' !! clean (dbPath +:+ itoa i) = Some Dir)).
  { destruct Hrun as [Hrun|[-> Hrun]].
    - eapply worker_with_Ok; [|exact Hrun]. apply orderly_write_meta_semaphore.
    - eapply worker_with_Ok; [|exact Hrun]. apply orderly_write_meta_batched. }
  destruct Hcases as [(Ho & Hf)|(Ho & Hnone & Hdir)]; [left|right].
  - split_and!; try assumption. now rewrite Hf.
  - split_and!; try assumption.
    intros N w2 missing w3 Hg Hscan.
    eapply present_not_missing; [exact Hscan|].
    apply (proj1 (Hg _)). rewrite Hdir. eauto.
Qed.

(** Comic 2 of the catalogue: the GET of its image succeeds but there is no
    file name, and comic 4, whose image cannot be fetched. *)
Lemma retried_only_without_directory_witness :
  files (Semaphore.worker demo_env "db/" "4" empty_archive).2 !! "db/4"%string
  = Some Dir.
Proof.
  destruct (Semaphore.worker demo_env "db/" "4" empty_archive) as [r w'] eqn:Hrun.
  assert (Hr : r = Ok AssetTransportFailed)
    by (vm_compute in Hrun; now injection Hrun as <- _).
  subst r.
  destruct (retried_only_without_directory demo_env "db/" 4 empty_archive w'
              AssetTransportFailed (or_introl Hrun))
    as [([Ho|Ho] & _)|(_ & _ & Hdir & _)]; [discriminate..|].
  exact Hdir.
Defined.

(** A scan of an archive that has grown from the scanned one and has a
    directory for everything the first scan missed finds nothing. *)
Lemma rescan_empty E N dbPath w0 missing w1 fs :
  missingComics E N dbPath w0 = (Ok missing, w1) →
  grows (files w0) fs →
  (∀ item, item ∈ missing → fs !! clean (dbPath +:+ item) = Some Dir) →
  filter (λ j, j ≠ 404%Z ∧ absent E fs dbPath j) (seqZ 1 N) = [].
Proof.
  intros Hscan Hg Hdone.
  destruct (missingComics_files _ _ _ _ _ _ Hscan) as [_ Hm].
  apply elem_of_nil_inv. intros j [[Hne Habs] Hj]%list_elem_of_filter.
  pose proof (absent_None _ _ _ _ Habs) as Hnow.
  destruct (decide (absent E (files w0) dbPath j)) as [Ha|Ha].
  - rewrite Hdone in Hnow; [discriminate|].
    rewrite Hm. apply list_elem_of_fmap_2, list_elem_of_filter. auto.
  - unfold absent, stat_err in Ha, Habs.
    destruct (io_fault E OpStat (dbPath +:+ itoa j)); [discriminate|].
    destruct (files w0 !! clean (dbPath +:+ itoa j)) eqn:Hthen; [|congruence].
    destruct (proj1 (Hg (clean (dbPath +:+ itoa j)))) as [x Hx]; [rewrite Hthen; eauto|].
    congruence.
Qed.

(** [main] of src/xkcd.go on an archive whose root is found and in which the
    scan finds nothing missing. *)
Lemma batched_prologue_nothing_missing E body c w :
  http_get E (xkcdURL +:+ jsonFile) = Some body →
  json_decode E body = Some c →
  (0 ≤ Num c ≤ max_cap E)%Z →
  IsNotExist (stat_err E (files w) Batched.dbPath) = false →
  filter (λ j, j ≠ 404%Z ∧ absent E (files w) Batched.dbPath j) (seqZ 1 (Num c)) = [] →
  Batched.main_prologue E w
  = (Ok None,
     World (files w)
           (trace w ++ [EvHttpGet (xkcdURL +:+ jsonFile); EvStat Batched.dbPath]
            ++ scan_events Batched.dbPath (filter (λ j, j ≠ 404%Z) (seqZ 1 (Num c)))
            ++ [EvPrint MsgNoMissing])).
Proof.
  intros Hget Hdec HN Hroot Hnone.
  unfold Batched.main_prologue.
  unfold bind at 1. unfold latestComicNum, bind at 1, http_Get.
  rewrite Hget, Hdec. unfold ret at 1. cbn [files trace].
  unfold bind at 1. unfold os_Stat at 1. cbn [files trace].
  unfold bind at 1. rewrite Hroot. unfold ret at 1.
  unfold bind at 1. unfold missingComics. rewrite decide_False by lia.
  rewrite missingComics_loop_eq, Z2Nat.id by lia. cbn [files trace app].
  rewrite Hnone. cbn [fmap list_fmap length]. rewrite decide_True by reflexivity.
  unfold bind, printf, emit, ret. cbn [files trace].
  now rewrite <- !app_assoc.
Qed.

(** X7.  Running src/xkcd.go twice.  If the loop over the blocks, at whatever
    point of whatever schedule, has left a directory for every comic of the
    missing set, a second scan of the same range finds nothing missing, and
    a second run of [main] for the same number of comics that finds the
    archive root returns after "Found no missing comics", having changed
    nothing and started no download. *)
Theorem batched_idempotence (E : Env) (N : Z) (w0 w1 : world)
    (missing : list string) (dlList : list (list string)) (st : Batched.loop_state) :
  missingComics E N Batched.dbPath w0 = (Ok missing, w1) →
  Batched.splitSlice missing 200 = Some dlList →
  rtc (Batched.loop_step E) (Batched.loop_init dlList w1) st →
  (∀ item, item ∈ missing →
     files (pworld (Batched.current st)) !! clean (Batched.dbPath +:+ item) = Some Dir) →
  (∃ w2,
     missingComics E N Batched.dbPath (pworld (Batched.current st)) = (Ok [], w2)
     ∧ files w2 = files (pworld (Batched.current st)))
  ∧ (∀ body c r wf,
       http_get E (xkcdURL +:+ jsonFile) = Some body →
       json_decode E body = Some c → Num c = N →
       IsNotExist (stat_err E (files (pworld (Batched.current st))) Batched.dbPath) = false →
       Batched.main_run E (pworld (Batched.current st)) r wf →
       r = Ok tt
       ∧ files wf = files (pworld (Batched.current st))
       ∧ fetch_lines (events_since (pworld (Batched.current st)) wf) = []).
Proof.
  intros Hscan Hsplit Hrun Hdone.
  destruct (missingComics_files _ _ _ _ _ _ Hscan) as [Hfs _].
  destruct (loop_started _ _ _ _ (batched_loop_inv _ _ _ _ Hrun)) as (_ & Hg & _).
  rewrite Hfs in Hg.
  pose proof (rescan_empty _ _ _ _ _ _ _ Hscan Hg Hdone) as Hnone.
  assert (HN : ¬ (N < 0 ∨ max_cap E < N)%Z).
  { intros HN. unfold missingComics in Hscan. now rewrite decide_True in Hscan. }
  split.
  - eexists. split.
    + unfold missingComics. rewrite decide_False by assumption.
      rewrite missingComics_loop_eq, Z2Nat.id by lia. now rewrite Hnone.
    + reflexivity.
  - intros body c r wf Hget Hdec HNum Hroot Hmain. subst N.
    pose proof (batched_prologue_nothing_missing E body c _ Hget Hdec ltac:(lia)
                  Hroot Hnone) as Hpro.
    destruct Hmain as [c' w' H|w' H|w' H|dl w' s H|dl w' bs s c' H];
      rewrite Hpro in H; try discriminate.
    injection H as <-. cbn [files trace]. split_and!; try reflexivity.
    unfold events_since. cbn [trace]. rewrite drop_app_length.
    cbn [app fetch_lines]. now rewrite fetch_lines_app, fetch_lines_scan.
Qed.

Lemma batched_idempotence_witness :
  ∃ w2,
    missingComics demo_env 1 Batched.dbPath
      (Batched.worker demo_env "1" (World ∅ [EvStat "./xkcdDB/1"])).2
    = (Ok [], w2).
Proof.
  pose (w1 := World ∅ [EvStat "./xkcdDB/1"]).
  pose (w' := (Batched.worker demo_env "1" w1).2).
  destruct (batched_idempotence demo_env 1 (World ∅ []) w1 ["1"%string]
              [["1"%string]]
              (Batched.Loop [] (Pool [("1"%string, Finished Saved)] 0 w' None)))
    as [(w2 & Hw2 & _) _].
  - vm_compute. reflexivity.
  - vm_compute. reflexivity.
  - eapply rtc_l.
    { apply (Batched.loop_next demo_env ["1"%string] [] (init_pool [] w1));
        [reflexivity|constructor]. }
    eapply rtc_l.
    { apply Batched.loop_inner.
      apply (step_acquire _ _ (init_pool ["1"%string] w1) 0 "1"%string);
        [reflexivity|reflexivity|exact I]. }
    eapply rtc_l.
    { apply Batched.loop_inner.
      eapply (step_body _ _ _ 0 "1"%string Saved w'); [reflexivity|reflexivity|].
      vm_compute. reflexivity. }
    eapply rtc_l.
    { apply Batched.loop_inner.
      eapply (step_release _ _ _ 0 "1"%string Saved); [reflexivity|reflexivity|exact I]. }
    apply rtc_refl.
  - intros item Hin. apply list_elem_of_In in Hin. destruct Hin as [<-|[]].
    vm_compute. reflexivity.
  - exists w2. exact Hw2.
Defined.

(** ** The request for the latest comic *)

Lemma add_trailing_slash_None p : Semaphore.add_trailing_slash p = None → p = EmptyString.
Proof.
  intros H. destruct (decide (p = EmptyString)) as [|Hne]; [assumption|].
  destruct (string_snoc p Hne) as (q & c & ->).
  unfold Semaphore.add_trailing_slash in H. rewrite byte_at_last in H.
  now destruct (decide (c ≠ "/"%char)).
Qed.

Lemma latestComicNum_fails E e w :
  probe_fails E e →
  latestComicNum E w
  = (Ok (0%Z, Some e), World (files w) (trace w ++ [EvHttpGet (xkcdURL +:+ jsonFile)])).
Proof.
  unfold latestComicNum, bind, http_Get, ret.
  intros [[Hget ->]|(body & Hget & Hdec & ->)]; rewrite Hget; [|rewrite Hdec]; reflexivity.
Qed.

(** X8.  When the request for the latest comic fails, or its answer does not
    decode, [latestComicNum] returns 0 with the error and [main] ends the
    process with status 1: it has sent that one request and logged the
    error, and has neither examined nor changed the archive.  (In
    src/unnamed/part_000 an empty archive path panics before that.) *)
Theorem probe_failure_is_fatal (E : Env) (e : error) :
  probe_fails E e →
  (∀ rateLimit dbPath w r wf,
     dbPath ≠ EmptyString →
     Semaphore.main_run E rateLimit dbPath w r wf →
     r = Exit 1%Z
     ∧ wf = World (files w)
                  (trace w ++ [EvHttpGet (xkcdURL +:+ jsonFile); EvLog (Some e)]))
  ∧ (∀ w r wf,
       Batched.main_run E w r wf →
       r = Exit 1%Z
       ∧ wf = World (files w)
                    (trace w ++ [EvHttpGet (xkcdURL +:+ jsonFile); EvLog (Some e)])).
Proof.
  intros Hfail. split.
  - intros rateLimit dbPath w r wf Hne Hrun.
    assert (Hpro : Semaphore.main_prologue E rateLimit dbPath w
                   = (Exit 1%Z,
                      World (files w)
                            (trace w ++ [EvHttpGet (xkcdURL +:+ jsonFile); EvLog (Some e)]))).
    { unfold Semaphore.main_prologue.
      destruct (Semaphore.add_trailing_slash dbPath) as [p|] eqn:Hp;
        [|now apply add_trailing_slash_None in Hp].
      unfold bind. rewrite (latestComicNum_fails E e w Hfail).
      unfold log_Fatalln. cbn [files trace]. now rewrite <- app_assoc. }
    destruct Hrun as [c w' H|w' H|w' H|p' m w' s H|p' m w' s c H|p' m w' s H];
      rewrite Hpro in H; try discriminate. now injection H as <- <-.
  - intros w r wf Hrun.
    assert (Hpro : Batched.main_prologue E w
                   = (Exit 1%Z,
                      World (files w)
                            (trace w ++ [EvHttpGet (xkcdURL +:+ jsonFile); EvLog (Some e)]))).
    { unfold Batched.main_prologue.
      unfold bind. rewrite (latestComicNum_fails E e w Hfail).
      unfold log_Fatalln. cbn [files trace]. now rewrite <- app_assoc. }
    destruct Hrun as [c w' H|w' H|w' H|dl w' s H|dl w' bs s c H];
      rewrite Hpro in H; try discriminate. now injection H as <- <-.
Qed.

(** A network on which nothing can be fetched. *)
Lemma probe_failure_is_fatal_witness :
  Batched.main_run (mkEnv (λ _, None) demo_json (λ _ _, false) demo_max_cap) empty_archive
    (Exit 1)
    (World (files empty_archive)
           [EvHttpGet (xkcdURL +:+ jsonFile); EvLog (Some ErrTransport)]).
Proof.
  assert (Hrun : ∃ r wf,
            Batched.main_run (mkEnv (λ _, None) demo_json (λ _ _, false) demo_max_cap)
              empty_archive r wf).
  { eexists _, _. apply Batched.main_exit. vm_compute. reflexivity. }
  destruct Hrun as (r & wf & Hrun).
  destruct (proj2 (probe_failure_is_fatal
                     (mkEnv (λ _, None) demo_json (λ _ _, false) demo_max_cap) ErrTransport
                     (or_introl (conj eq_refl eq_refl)))
                  empty_archive r wf Hrun) as [-> ->].
  exact Hrun.
Defined.

(** ** Panics *)

Lemma bind_Panic_inv {A B} (m : M A) (k : A → M B) w w' :
  bind m k w = (Panic, w') →
  m w = (Panic, w') ∨ ∃ a w1, m w = (Ok a, w1) ∧ k a w1 = (Panic, w').
Proof.
  unfold bind. destruct (m w) as [[a|c|] w1]; [eauto|discriminate|].
  intros [= <-]. now left.
Qed.

Section Panics.
Context (E : Env).

Lemma latestComicNum_no_panic w w' : latestComicNum E w ≠ (Panic, w').
Proof.
  unfold latestComicNum, bind, http_Get, ret.
  destruct (http_get E (xkcdURL +:+ jsonFile)) as [body|]; [|discriminate].
  destruct (json_decode E body); discriminate.
Qed.

Lemma ensure_root_no_panic dbPath (err : option error) w w' :
  (if IsNotExist err
   then
     do printf (MsgCreating dbPath) then
     let* err := os_Mkdir E dbPath in
     match err with
     | Some _ => log_Fatalln err
     | None => ret tt
     end
   else ret tt) w ≠ (Panic, w').
Proof.
  destruct (IsNotExist err); [|discriminate].
  intros [H|([] & w1 & _ & H)]%bind_Panic_inv; [discriminate|].
  apply bind_Panic_inv in H as [H|(e & w2 & _ & H)].
  - unfold os_Mkdir in H. destruct (mkdir_fs E (files w1) dbPath). discriminate.
  - destruct e; discriminate.
Qed.

Lemma missingComics_Panic N dbPath w w' :
  missingComics E N dbPath w = (Panic, w') → (N < 0 ∨ max_cap E < N)%Z.
Proof.
  unfold missingComics. destruct (decide (N < 0 ∨ max_cap E < N)%Z); [easy|].
  rewrite missingComics_loop_eq. discriminate.
Qed.

Lemma missingComics_Ok_nonneg N dbPath w missing w' :
  missingComics E N dbPath w = (Ok missing, w') → (0 ≤ N ≤ max_cap E)%Z.
Proof.
  unfold missingComics. destruct (decide (N < 0 ∨ max_cap E < N)%Z); [discriminate|lia].
Qed.

End Panics.

(** X9.  [main] panics only for these reasons.  In src/unnamed/part_000: the
    archive path is empty (the index expression), or the number of the
    latest comic is negative or beyond the capacity that [make] accepts
    ([make] of the list), or that number is fine, something is missing and
    the limit is negative ([make] of the channel).  In src/xkcd.go: only a
    number of the latest comic that is negative or beyond that capacity;
    cutting the list into blocks of 200 never panics. *)
Theorem main_panics_only_if (E : Env) :
  (∀ rateLimit dbPath w wf,
     Semaphore.main_run E rateLimit dbPath w Panic wf →
     dbPath = EmptyString
     ∨ ∃ body c,
         http_get E (xkcdURL +:+ jsonFile) = Some body
         ∧ json_decode E body = Some c
         ∧ ((Num c < 0)%Z ∨ (max_cap E < Num c)%Z
            ∨ ((0 ≤ Num c ≤ max_cap E)%Z ∧ (rateLimit < 0)%Z)))
  ∧ (∀ w wf,
       Batched.main_run E w Panic wf →
       ∃ body c,
         http_get E (xkcdURL +:+ jsonFile) = Some body
         ∧ json_decode E body = Some c
         ∧ ((Num c < 0)%Z ∨ (max_cap E < Num c)%Z)).
Proof.
  split.
  - intros rateLimit dbPath w wf Hrun.
    inversion Hrun as [|w' H| | | |]; subst. clear Hrun.
    unfold Semaphore.main_prologue in H.
    destruct (Semaphore.add_trailing_slash dbPath) as [p|] eqn:Hp;
      [|left; now apply add_trailing_slash_None].
    right.
    apply bind_Panic_inv in H as [H|([N err] & w1 & Hl & H)];
      [now apply latestComicNum_no_panic in H|].
    destruct err as [e|]; [discriminate|].
    apply latestComicNum_Ok in Hl as (_ & body & c & Hget & Hdec & ->).
    exists body, c. split_and!; [assumption..|].
    apply bind_Panic_inv in H as [H|(serr & w2 & _ & H)]; [discriminate|].
    apply bind_Panic_inv in H as [H|([] & w3 & _ & H)];
      [now apply ensure_root_no_panic in H|].
    apply bind_Panic_inv in H as [H|(missing & w4 & Hscan & H)];
      [apply missingComics_Panic in H; tauto|].
    right. right. split; [now apply missingComics_Ok_nonneg in Hscan|].
    destruct (decide (length missing = 0)).
    + apply bind_Panic_inv in H as [H|([] & w5 & _ & H)]; discriminate.
    + destruct (decide (rateLimit < 0)%Z); [assumption|discriminate].
  - intros w wf Hrun.
    inversion Hrun as [|w' H| | |]; subst. clear Hrun.
    unfold Batched.main_prologue in H.
    apply bind_Panic_inv in H as [H|([N err] & w1 & Hl & H)];
      [now apply latestComicNum_no_panic in H|].
    destruct err as [e|]; [discriminate|].
    apply latestComicNum_Ok in Hl as (_ & body & c & Hget & Hdec & ->).
    exists body, c. split_and!; [assumption..|].
    apply bind_Panic_inv in H as [H|(serr & w2 & _ & H)]; [discriminate|].
    apply bind_Panic_inv in H as [H|([] & w3 & _ & H)];
      [now apply ensure_root_no_panic in H|].
    apply bind_Panic_inv in H as [H|(missing & w4 & Hscan & H)];
      [now apply missingComics_Panic in H|].
    exfalso.
    destruct (decide (length missing = 0)).
    + apply bind_Panic_inv in H as [H|([] & w5 & _ & H)]; discriminate.
    + apply bind_Panic_inv in H as [H|([] & w5 & _ & H)]; [discriminate|].
      change 200%Z with (Z.of_nat 200) in H.
      rewrite splitSlice_eq in H by lia. discriminate.
Qed.

Lemma main_panics_only_if_witness :
  ∃ body c,
    http_get demo_env (xkcdURL +:+ jsonFile) = Some body
    ∧ json_decode demo_env body = Some c
    ∧ ((Num c < 0)%Z ∨ (max_cap demo_env < Num c)%Z
       ∨ ((0 ≤ Num c ≤ max_cap demo_env)%Z ∧ (-1 < 0)%Z)).
Proof.
  destruct (proj1 (main_panics_only_if demo_env) (-1)%Z "db"%string (World ∅ [])
              (Semaphore.main_prologue demo_env (-1) "db" (World ∅ [])).2)
    as [Hempty|H].
  - apply Semaphore.main_panic. vm_compute. reflexivity.
  - discriminate.
  - exact H.
Defined.

(** ** [splitSlice] with a block size that is not positive *)

(** X10.  [splitSlice] with a block size that is not positive: 0 panics
    (division by zero); a negative size [B] panics when the input has at
    least [2*|B|] elements ([make] with a negative capacity) and otherwise
    returns no block at all or the one block of the last [L mod |B|]
    elements, so that elements are lost without notice as soon as the input
    has [|B|] elements or more. *)
Theorem splitSlice_bad_block_size (input : list string) (B : Z) :
  (B ≤ 0)%Z →
  Batched.splitSlice input B =
    (if decide (B = 0)%Z then None
     else if decide (2 * - B ≤ Z.of_nat (length input))%Z then None
     else if decide (Z.of_nat (length input) mod - B = 0)%Z then Some []
     else Some [drop (Z.to_nat (Z.of_nat (length input)
                                - Z.of_nat (length input) mod - B)) input])
  ∧ (∀ chunks, Batched.splitSlice input B = Some chunks →
       (- B ≤ Z.of_nat (length input))%Z → concat chunks ≠ input).
Proof.
  intros HB.
  assert (Heq : Batched.splitSlice input B =
    (if decide (B = 0)%Z then None
     else if decide (2 * - B ≤ Z.of_nat (length input))%Z then None
     else if decide (Z.of_nat (length input) mod - B = 0)%Z then Some []
     else Some [drop (Z.to_nat (Z.of_nat (length input)
                                - Z.of_nat (length input) mod - B)) input])).
  { unfold Batched.splitSlice.
    destruct (decide (B = 0)%Z) as [|HB0]; [reflexivity|].
    set (L := Z.of_nat (length input)). set (b := (- B)%Z).
    assert (Hb : (0 < b)%Z) by (unfold b; lia).
    assert (HL : (0 ≤ L)%Z) by (unfold L; lia).
    replace B with (- b)%Z by (unfold b; lia).
    rewrite Z.quot_opp_r, Z.rem_opp_r by lia.
    rewrite Z.quot_div_nonneg, Z.rem_mod_nonneg by lia.
    pose proof (Z.div_mod L b ltac:(lia)) as Hdm.
    pose proof (Z.mod_pos_bound L b Hb) as Hmod.
    pose proof (Z.div_pos L b HL Hb) as Hq.
    destruct (decide (2 * b ≤ L)%Z) as [Hbig|Hsmall].
    - rewrite decide_True; [reflexivity|].
      assert (2 ≤ L / b)%Z by (apply Z.div_le_lower_bound; lia). lia.
    - assert (Hq1 : (L / b < 2)%Z) by (apply Z.div_lt_upper_bound; lia).
      rewrite decide_False by lia.
      replace (Z.to_nat (- (L / b))) with 0 by lia. cbn [Batched.splitSlice_loop].
      destruct (decide (L mod b = 0)%Z) as [Hr|Hr].
      + now rewrite decide_False by lia.
      + rewrite decide_True by assumption.
        unfold Batched.slice. fold L. rewrite decide_True by nia.
        cbn [app]. do 2 f_equal.
        replace (- (L / b) * - b)%Z with (L - L mod b)%Z by nia.
        replace (L - L mod b + L mod b - (L - L mod b))%Z with (L mod b)%Z by lia.
        apply take_ge. rewrite length_drop. unfold L in *. lia. }
  split; [exact Heq|].
  intros chunks Hs Hlen. rewrite Heq in Hs.
  destruct (decide (B = 0)%Z); [discriminate|].
  destruct (decide (2 * - B ≤ Z.of_nat (length input))%Z); [discriminate|].
  pose proof (Z.mod_pos_bound (Z.of_nat (length input)) (- B) ltac:(lia)) as Hmod.
  intros Hc. apply (f_equal length) in Hc.
  destruct (decide (Z.of_nat (length input) mod - B = 0)%Z);
    injection Hs as <-; cbn [concat] in Hc.
  - cbn in Hc. lia.
  - rewrite app_nil_r, length_drop in Hc. lia.
Qed.

Lemma splitSlice_bad_block_size_witness :
  Batched.splitSlice ["a"; "b"; "c"]%string (-2) = Some [["c"%string]].
Proof.
  rewrite (proj1 (splitSlice_bad_block_size ["a"; "b"; "c"]%string (-2) ltac:(lia))).
  reflexivity.
Defined.

(** ** What a finished download leaves *)

Section Contents.
Context (E : Env).

Lemma worker_with_Saved write_meta dbPath item w w' :
  worker_with E write_meta dbPath item w = (Ok Saved, w') →
  ∃ body comicData imgName data w3 w4,
    http_get E (xkcdURL +:+ item +:+ "/" +:+ jsonFile) = Some body
    ∧ json_decode E body = Some comicData
    ∧ last (split_slash (Img comicData)) = Some imgName
    ∧ imgName ≠ EmptyString
    ∧ http_get E (Img comicData) = Some data
    ∧ files w !! clean (dbPath +:+ item +:+ "/") = None
    ∧ files w3 = <[clean (dbPath +:+ item +:+ "/") := Dir]> (files w)
    ∧ write_meta (dbPath +:+ item +:+ "/") item comicData w3 = (Ok tt, w4)
    ∧ files w' = <[clean ((dbPath +:+ item +:+ "/") +:+ imgName) := File data]> (files w4).
Proof.
  intros Hrun. unfold worker_with in Hrun.
  apply bind_Ok_inv in Hrun as ([] & w1 & Hp & Hrun).
  unfold printf, emit in Hp. injection Hp as <-.
  unfold after_first_line in Hrun.
  apply bind_Ok_inv in Hrun as (resp & w2 & Hget & Hrun).
  unfold http_Get in Hget. injection Hget as <- <-.
  destruct (http_get E (xkcdURL +:+ item +:+ "/" +:+ jsonFile)) as [body|] eqn:Hbody.
  2:{ apply bind_Ok_inv in Hrun as ([] & w3 & _ & Hr). discriminate. }
  destruct (json_decode E body) as [comicData|] eqn:Hdec.
  2:{ apply bind_Ok_inv in Hrun as ([] & w3 & _ & Hr).
      apply bind_Ok_inv in Hr as ([] & w4 & _ & Hr). discriminate. }
  apply bind_Ok_inv in Hrun as (err & w3 & Hmk & Hrun).
  destruct err as [e|]; [discriminate|].
  apply os_Mkdir_Ok in Hmk as [Hfresh Hf3]. cbn [files] in Hfresh, Hf3.
  apply bind_Ok_inv in Hrun as ([] & w4 & Hmeta & Himg).
  destruct (split_slash_last (Img comicData)) as [imgName Hlast].
  apply (write_image_Ok _ _ _ _ _ _ _ imgName) in Himg as Hfiles; [|now left|assumption].
  destruct Hfiles as [[-> Hf5]|(Hne & data & Hdata & Hf5)].
  - exfalso. unfold write_image in Himg.
    apply bind_Ok_inv in Himg as (resp & w5 & Hget & Hk).
    unfold http_Get in Hget. injection Hget as <- <-.
    destruct (http_get E (Img comicData)).
    + rewrite Hlast, decide_True in Hk by reflexivity.
      apply bind_Ok_inv in Hk as ([] & w6 & _ & Hk). discriminate.
    + apply bind_Ok_inv in Hk as ([] & w6 & _ & Hk). discriminate.
  - exists body, comicData, imgName, data, w3, w4. split_and!; try assumption; reflexivity.
Qed.

End Contents.

Lemma batched_write_meta_Ok E savePath item comicData w w' :
  Batched.write_meta E savePath item comicData w = (Ok tt, w') →
  files w' =
    <[clean (savePath +:+ item +:+ "-transcript") := File (Transcript comicData)]>
      (<[clean (savePath +:+ item +:+ "-alt") := File (Alt comicData)]> (files w)).
Proof.
  unfold Batched.write_meta. intros ([] & w1 & Ha & Ht)%bind_Ok_inv.
  apply write_field_Ok in Ha as [_ Ha]. apply write_field_Ok in Ht as [_ Ht].
  now rewrite Ht, Ha.
Qed.

(** X12.  What a saved comic holds.  When the body ends with the image saved,
    the image file holds exactly the body of the response to the GET of
    [Img], whatever a file at that path held before; and, unless the image
    is named like that metadata file, the alt file holds exactly [Alt] and the
    transcript file exactly [Transcript]: in src/unnamed/part_000 when the
    field is not empty, in src/xkcd.go always, so there an empty field
    leaves an empty file. *)
Theorem downloaded_contents (E : Env) (item : string) (w w' : world) :
  (∀ dbPath, Semaphore.worker E dbPath item w = (Ok Saved, w') →
     ∃ body comicData imgName data,
       http_get E (xkcdURL +:+ item +:+ "/" +:+ jsonFile) = Some body
       ∧ json_decode E body = Some comicData
       ∧ last (split_slash (Img comicData)) = Some imgName
       ∧ http_get E (Img comicData) = Some data
       ∧ files w' !! clean ((dbPath +:+ item +:+ "/") +:+ imgName) = Some (File data)
       ∧ (imgName ≠ item +:+ "-alt" → Alt comicData ≠ EmptyString →
          files w' !! clean ((dbPath +:+ item +:+ "/") +:+ item +:+ "-alt")
          = Some (File (Alt comicData)))
       ∧ (imgName ≠ item +:+ "-transcript" → Transcript comicData ≠ EmptyString →
          files w' !! clean ((dbPath +:+ item +:+ "/") +:+ item +:+ "-transcript")
          = Some (File (Transcript comicData))))
  ∧ (Batched.worker E item w = (Ok Saved, w') →
     ∃ body comicData imgName data,
       http_get E (xkcdURL +:+ item +:+ "/" +:+ jsonFile) = Some body
       ∧ json_decode E body = Some comicData
       ∧ last (split_slash (Img comicData)) = Some imgName
       ∧ http_get E (Img comicData) = Some data
       ∧ files w' !! clean ((Batched.dbPath +:+ item +:+ "/") +:+ imgName)
         = Some (File data)
       ∧ (imgName ≠ item +:+ "-alt" →
          files w' !! clean ((Batched.dbPath +:+ item +:+ "/") +:+ item +:+ "-alt")
          = Some (File (Alt comicData)))
       ∧ (imgName ≠ item +:+ "-transcript" →
          files w' !! clean ((Batched.dbPath +:+ item +:+ "/") +:+ item +:+ "-transcript")
          = Some (File (Transcript comicData)))).
Proof.
  assert (Hpa : plain (item +:+ "-alt")) by (apply (plain_suffix item "-al" "t"); discriminate).
  assert (Hpt : plain (item +:+ "-transcript"))
    by (apply (plain_suffix item "-transcrip" "t"); discriminate).
  assert (Hat : ∀ D, clean (D +:+ "/" +:+ item +:+ "-alt")
                     ≠ clean (D +:+ "/" +:+ item +:+ "-transcript")).
  { intros D Heq%plain_inj; [|assumption..]. apply string_app_inj_l in Heq. discriminate. }
  split.
  - intros dbPath Hrun.
    apply worker_with_Saved in Hrun
      as (body & comicData & imgName & data & w3 & w4
          & Hbody & Hdec & Hlast & Hne & Hdata & _ & _ & Hmeta & Hf).
    apply semaphore_write_meta_Ok in Hmeta as (fs1 & Hfs1 & Hf4).
    pose proof (plain_last_segment _ _ Hlast Hne) as Hpi.
    exists body, comicData, imgName, data. split_and!; try assumption.
    + now rewrite Hf, lookup_insert_eq.
    + intros Hna Ha. rewrite Hf, Hf4, Hfs1, !savePath_child.
      rewrite lookup_insert_ne
        by (intros Heq%plain_inj; [congruence|assumption..]).
      rewrite (decide_True _ _ Ha).
      destruct (decide (Transcript comicData ≠ EmptyString)).
      * rewrite lookup_insert_ne by (intros Heq; now apply (Hat (dbPath +:+ item))).
        now rewrite lookup_insert_eq.
      * now rewrite lookup_insert_eq.
    + intros Hnt Ht. rewrite Hf, Hf4, !savePath_child.
      rewrite lookup_insert_ne
        by (intros Heq%plain_inj; [congruence|assumption..]).
      rewrite (decide_True _ _ Ht). now rewrite lookup_insert_eq.
  - intros Hrun.
    apply worker_with_Saved in Hrun
      as (body & comicData & imgName & data & w3 & w4
          & Hbody & Hdec & Hlast & Hne & Hdata & _ & _ & Hmeta & Hf).
    apply batched_write_meta_Ok in Hmeta.
    pose proof (plain_last_segment _ _ Hlast Hne) as Hpi.
    exists body, comicData, imgName, data. split_and!; try assumption.
    + now rewrite Hf, lookup_insert_eq.
    + intros Hna. rewrite Hf, Hmeta, !savePath_child.
      rewrite lookup_insert_ne
        by (intros Heq%plain_inj; [congruence|assumption..]).
      rewrite lookup_insert_ne
        by (intros Heq; now apply (Hat (Batched.dbPath +:+ item))).
      now rewrite lookup_insert_eq.
    + intros Hnt. rewrite Hf, Hmeta, !savePath_child.
      rewrite lookup_insert_ne
        by (intros Heq%plain_inj; [congruence|assumption..]).
      now rewrite lookup_insert_eq.
Qed.

(** Comic 1 of the catalogue, over an archive in which its image path
    already holds a file. *)
Lemma downloaded_contents_witness :
  ∃ w',
    Semaphore.worker demo_env "db/" "1"
      (World {["db/1/a.png" := File "old"]} []) = (Ok Saved, w')
    ∧ files w' !! "db/1/a.png"%string = Some (File "PNG")
    ∧ files w' !! "db/1/1-alt"%string = Some (File "alt text").
Proof.
  destruct (Semaphore.worker demo_env "db/" "1" (World {["db/1/a.png" := File "old"]} []))
    as [r w'] eqn:Hrun.
  assert (Hr : r = Ok Saved) by (vm_compute in Hrun; now injection Hrun as <- _).
  subst r. exists w'. split; [reflexivity|].
  destruct (proj1 (downloaded_contents demo_env "1" _ w') "db/"%string Hrun)
    as (body & comicData & imgName & data & Hbody & Hdec & Hlast & Hdata & Hi & Ha & _).
  vm_compute in Hbody. injection Hbody as <-.
  vm_compute in Hdec. injection Hdec as <-.
  vm_compute in Hlast. injection Hlast as <-.
  vm_compute in Hdata. injection Hdata as <-.
  split; [exact Hi|]. apply Ha; discriminate.
Defined.

(** ** What [main] reports *)

Lemma events_since_app w w1 w2 evs1 evs2 :
  trace w1 = trace w ++ evs1 → trace w2 = trace w1 ++ evs2 →
  events_since w w2 = evs1 ++ evs2.
Proof.
  intros H1 H2. unfold events_since. now rewrite H2, H1, <- app_assoc, drop_app_length.
Qed.

Lemma quiet_trace {A} (m : M A) w r w' :
  quiet m → m w = (r, w') → ∃ evs, trace w' = trace w ++ evs ∧ fetch_lines evs = [].
Proof.
  intros Hq Hm. destruct (Hq w) as (evs & Ht & _ & Hl & _).
  rewrite Hm in Ht. eauto.
Qed.

Section Report.
Context (E : Env).

(** [main] of either file up to the scan: the trace has only grown, without
    a "Fetching Comic" line. *)
Lemma scan_trace dbPath w N w1 w2 w3 missing w4 :
  latestComicNum E w = (Ok (N, None), w1) →
  os_Stat E dbPath w1 = (Ok (stat_err E (files w1) dbPath), w2) →
  (if IsNotExist (stat_err E (files w1) dbPath)
   then
     do printf (MsgCreating dbPath) then
     let* err := os_Mkdir E dbPath in
     match err with
     | Some _ => log_Fatalln err
     | None => ret tt
     end
   else ret tt) w2 = (Ok tt, w3) →
  missingComics E N dbPath w3 = (Ok missing, w4) →
  ∃ evs, trace w4 = trace w ++ evs ∧ fetch_lines evs = [].
Proof.
  intros H1 H2 H3 H4.
  apply (quiet_trace _ _ _ _ (quiet_latestComicNum E)) in H1 as (e1 & Ht1 & Hl1).
  apply (quiet_trace _ _ _ _ (quiet_os_Stat E dbPath)) in H2 as (e2 & Ht2 & Hl2).
  apply (quiet_trace _ _ _ _ (quiet_ensure_root E dbPath _)) in H3 as (e3 & Ht3 & Hl3).
  apply (quiet_trace _ _ _ _ (quiet_missingComics E N dbPath)) in H4 as (e4 & Ht4 & Hl4).
  exists (e1 ++ e2 ++ e3 ++ e4). split.
  - now rewrite Ht4, Ht3, Ht2, Ht1, <- !app_assoc.
  - now rewrite !fetch_lines_app, Hl1, Hl2, Hl3, Hl4.
Qed.

Lemma semaphore_prologue_None rateLimit dbPath0 w w' :
  Semaphore.main_prologue E rateLimit dbPath0 w = (Ok None, w') →
  ∃ evs, trace w' = trace w ++ evs ++ [EvPrint MsgNoMissing] ∧ fetch_lines evs = [].
Proof.
  unfold Semaphore.main_prologue.
  destruct (Semaphore.add_trailing_slash dbPath0) as [p|]; [|discriminate].
  intros ([N err] & w1 & Hlatest & H)%bind_Ok_inv.
  destruct err as [e|]; [discriminate|].
  apply bind_Ok_inv in H as (serr & w2 & Hstat & H).
  assert (serr = stat_err E (files w1) p) as -> by (unfold os_Stat in Hstat; congruence).
  apply bind_Ok_inv in H as ([] & w3 & Hroot & H).
  apply bind_Ok_inv in H as (missing & w4 & Hscan & H).
  destruct (scan_trace _ _ _ _ _ _ _ _ Hlatest Hstat Hroot Hscan) as (evs & Ht & Hl).
  destruct (decide (length missing = 0)).
  - apply bind_Ok_inv in H as ([] & w5 & Hp & H).
    unfold printf, emit in Hp. injection Hp as <-. injection H as <-.
    exists evs. cbn [trace]. now rewrite Ht, <- app_assoc.
  - destruct (decide (rateLimit < 0)%Z); discriminate.
Qed.

Lemma batched_prologue_inv w r w' :
  Batched.main_prologue E w = (Ok r, w') →
  ∃ evs missing,
    fetch_lines evs = []
    ∧ match r with
      | None => trace w' = trace w ++ evs ++ [EvPrint MsgNoMissing]
      | Some dlList =>
          trace w' = trace w ++ evs ++ [EvPrint (MsgFound (length missing))]
          ∧ missing ≠ [] ∧ Batched.splitSlice missing 200 = Some dlList
      end.
Proof.
  unfold Batched.main_prologue.
  intros ([N err] & w1 & Hlatest & H)%bind_Ok_inv.
  destruct err as [e|]; [discriminate|].
  apply bind_Ok_inv in H as (serr & w2 & Hstat & H).
  assert (serr = stat_err E (files w1) Batched.dbPath) as ->
    by (unfold os_Stat in Hstat; congruence).
  apply bind_Ok_inv in H as ([] & w3 & Hroot & H).
  apply bind_Ok_inv in H as (missing & w4 & Hscan & H).
  destruct (scan_trace _ _ _ _ _ _ _ _ Hlatest Hstat Hroot Hscan) as (evs & Ht & Hl).
  exists evs, missing. split; [assumption|].
  destruct (decide (length missing = 0)) as [Hz|Hnz].
  - apply bind_Ok_inv in H as ([] & w5 & Hp & H).
    unfold printf, emit in Hp. injection Hp as <-. injection H as <- <-.
    cbn [trace]. now rewrite Ht, <- app_assoc.
  - apply bind_Ok_inv in H as ([] & w5 & Hp & H).
    unfold printf, emit in Hp. injection Hp as <-.
    destruct (Batched.splitSlice missing 200) as [dlList|]; [|discriminate].
    injection H as <- <-. cbn [trace]. rewrite Ht, <- app_assoc.
    split_and!; [reflexivity| |reflexivity]. intros ->. now apply Hnz.
Qed.

End Report.

(** X13.  What [main] reports when it returns.  In src/unnamed/part_000 a run
    that returns either ends with "Found no missing comics" and has started
    no download, or ends with "Downloaded n missing comics" where [n] is not
    zero and is the number of comics for which a download was started, each
    of them once; a download that failed for its metadata or its image is
    counted like any other.  In src/xkcd.go the second case prints
    "Found n missing comics" before the downloads and nothing after them. *)
Theorem reported_count (E : Env) :
  (∀ rateLimit dbPath w wf,
     Semaphore.main_run E rateLimit dbPath w (Ok tt) wf →
     (last (trace wf) = Some (EvPrint MsgNoMissing)
      ∧ fetch_lines (events_since w wf) = [])
     ∨ (∃ missing,
          missing ≠ []
          ∧ last (trace wf) = Some (EvPrint (MsgDownloaded (length missing)))
          ∧ fetch_lines (events_since w wf) ≡ₚ missing))
  ∧ (∀ w wf,
       Batched.main_run E w (Ok tt) wf →
       (last (trace wf) = Some (EvPrint MsgNoMissing)
        ∧ fetch_lines (events_since w wf) = [])
       ∨ (∃ missing evs1 evs2,
            missing ≠ []
            ∧ events_since w wf = evs1 ++ EvPrint (MsgFound (length missing)) :: evs2
            ∧ fetch_lines evs1 = []
            ∧ fetch_lines evs2 ≡ₚ missing)).
Proof.
  split.
  - intros rateLimit dbPath w wf Hrun.
    inversion Hrun as [|w' H|w' H|p' m w' s H Hp He Hf| |]; subst.
    + left. apply semaphore_prologue_None in H as (evs & Ht & Hl). split.
      * now rewrite Ht, app_assoc, last_snoc.
      * unfold events_since. rewrite Ht, drop_app_length.
        now rewrite fetch_lines_app, Hl.
    + right. exists m.
      destruct (quiet_trace _ _ _ _ (quiet_semaphore_prologue E rateLimit dbPath) H)
        as (evs0 & Ht0 & Hl0).
      apply semaphore_prologue_Some in H as (_ & _ & Hne & _).
      pose proof (semaphore_inv _ _ _ _ _ _ Hp) as Hinv.
      destruct (pool_started _ _ _ _ Hinv) as (started & Hs & _ & Hall).
      rewrite (Hall Hf) in Hs.
      destruct (inv_lines _ _ _ _ Hinv) as (evs1 & Ht1 & _).
      unfold events_since in Hs. rewrite Ht1, drop_app_length in Hs.
      split_and!; [assumption|cbn [trace]; apply last_snoc|].
      unfold events_since. cbn [trace].
      rewrite Ht1, Ht0, <- !app_assoc, drop_app_length.
      now rewrite !fetch_lines_app, Hl0, Hs, app_nil_r.
  - intros w wf Hrun.
    inversion Hrun as [|w' H|w' H|dl w' s H Hl He Hf|]; subst.
    + left. apply batched_prologue_inv in H as (evs & _ & Hl & Ht). split.
      * now rewrite Ht, app_assoc, last_snoc.
      * unfold events_since. rewrite Ht, drop_app_length.
        now rewrite fetch_lines_app, Hl.
    + right. apply batched_prologue_inv in H as (evs & missing & Hl0 & Ht0 & Hne & Hsplit).
      apply (splitSlice_blocks _ 200) in Hsplit as [Hc _]; [|lia].
      pose proof (batched_loop_inv _ _ _ _ Hl) as Hinv.
      destruct (loop_started _ _ _ _ Hinv) as (_ & _ & started & Hs & _ & Hall).
      cbn [Batched.pending Batched.current] in Hs, Hall.
      rewrite (Hall eq_refl Hf), Hc in Hs.
      destruct Hinv as (done & cur & wc & _ & _ & _ & Hpinv & (e1 & Ht1 & _) & _).
      destruct (inv_lines _ _ _ _ Hpinv) as (e2 & Ht2 & _).
      cbn [Batched.current] in Ht2.
      unfold events_since in Hs. rewrite Ht2, Ht1, <- app_assoc, drop_app_length in Hs.
      exists missing, evs, (e1 ++ e2). split_and!; try assumption.
      unfold events_since.
      rewrite Ht2, Ht1, Ht0, <- !app_assoc, drop_app_length. reflexivity.
Qed.

(** One comic, whose metadata cannot be fetched: [main] creates the archive
    root, starts the one download, which fails, and reports one downloaded
    comic over an archive that holds the root only. *)
Lemma reported_count_witness :
  ∃ wf n,
    Semaphore.main_run offline_env 1 "db" (World ∅ []) (Ok tt) wf
    ∧ last (trace wf) = Some (EvPrint (MsgDownloaded n))
    ∧ length (fetch_lines (trace wf)) = n
    ∧ files wf = {["db" := Dir]}.
Proof.
  pose (w1 := (Semaphore.main_prologue offline_env 1 "db" (World ∅ [])).2).
  pose (w2 := (Semaphore.worker offline_env "db/" "1" w1).2).
  pose (s := Pool [("1"%string, Finished MetaTransportFailed)] 0 w2 None).
  assert (Hrun : Semaphore.main_run offline_env 1 "db" (World ∅ []) (Ok tt)
                   (World (files (pworld s))
                      (trace (pworld s) ++ [EvPrint (MsgDownloaded (length ["1"%string]))]))).
  { apply (Semaphore.main_pool_done offline_env 1 "db" (World ∅ []) "db/" ["1"%string] w1 s).
    - vm_compute. reflexivity.
    - eapply rtc_l.
      { apply (step_acquire _ _ (init_pool ["1"%string] w1) 0 "1"%string);
          [reflexivity|reflexivity|cbn; lia]. }
      eapply rtc_l.
      { eapply (step_body _ _ _ 0 "1"%string MetaTransportFailed w2);
          [reflexivity|reflexivity|]. vm_compute. reflexivity. }
      eapply rtc_l.
      { eapply (step_release _ _ _ 0 "1"%string MetaTransportFailed);
          [reflexivity|reflexivity|cbn; lia]. }
      apply rtc_refl.
    - reflexivity.
    - repeat constructor. }
  destruct (proj1 (reported_count offline_env) _ _ _ _ Hrun)
    as [[Hl _]|(missing & _ & Hl & Hp)].
  - vm_compute in Hl. discriminate.
  - eexists _, (length missing). split_and!; [exact Hrun|exact Hl| |vm_compute; reflexivity].
    apply Permutation_length in Hp. rewrite <- Hp. vm_compute. reflexivity.
Defined.

(** ** A first run *)

Lemma plain_uint d : d ≠ Decimal.Nil → plain (NilEmpty.string_of_uint d).
Proof.
  assert (Hcons : ∀ (a : ascii) s, a ≠ "/"%char → (s ≠ EmptyString → plain s) →
                                   plain (String a s)).
  { intros a s Ha Hs. destruct (decide (s = EmptyString)) as [->|Hne].
    - now exists EmptyString, a.
    - destruct (Hs Hne) as (q & c & -> & Hc). now exists (String a q), c. }
  assert (Hnil : ∀ d, NilEmpty.string_of_uint d ≠ EmptyString → d ≠ Decimal.Nil)
    by (intros d' H ->; now apply H).
  induction d as [|d IH|d IH|d IH|d IH|d IH|d IH|d IH|d IH|d IH|d IH]; intros Hd;
    [congruence|..]; cbn [NilEmpty.string_of_uint];
    (apply Hcons; [discriminate|intros Hne; apply IH, Hnil, Hne]).
Qed.

Lemma plain_itoa i : (0 ≤ i)%Z → plain (itoa i).
Proof.
  intros Hi. unfold itoa. destruct i as [|p|p]; [now exists EmptyString, "0"%char| |lia].
  cbn [Z.to_int NilZero.string_of_int].
  pose proof (Unsigned.to_uint_nonnil p) as Hp.
  unfold NilZero.string_of_uint. destruct (Pos.to_uint p) eqn:Hu; try congruence;
    rewrite <- Hu; apply plain_uint; congruence.
Qed.

Lemma add_trailing_slash_Some p dbPath :
  Semaphore.add_trailing_slash p = Some dbPath → ∃ d, dbPath = d +:+ "/".
Proof.
  intros H. destruct (decide (p = EmptyString)) as [->|Hne]; [discriminate|].
  destruct (string_snoc p Hne) as (q & c & ->).
  unfold Semaphore.add_trailing_slash in H. rewrite byte_at_last in H.
  destruct (decide (c ≠ "/"%char)) as [Hc|Hc]; injection H as <-.
  - eauto.
  - exists q. destruct (decide (c = "/"%char)) as [->|]; [reflexivity|contradiction].
Qed.

Lemma filter_ext_elem {A} (P Q : A → Prop) `{∀ x, Decision (P x)} `{∀ x, Decision (Q x)}
    (l : list A) :
  (∀ x, x ∈ l → P x ↔ Q x) → filter P l = filter Q l.
Proof.
  induction l as [|a l IH]; intros Hl; [reflexivity|].
  rewrite !filter_cons, IH by (intros x Hx; apply Hl; now right).
  pose proof (Hl a (list_elem_of_here _ _)) as Ha.
  destruct (decide (P a)), (decide (Q a)); tauto.
Qed.

Section FirstRun.
Context (E : Env).
Hypothesis stat_works : ∀ p, io_fault E OpStat p = false.

(** Over an archive root that was just created every comic is missing. *)
Lemma fresh_scan d fs N :
  tidy fs → fs !! clean d = None →
  filter (λ j, j ≠ 404%Z ∧ absent E (<[clean d := Dir]> fs) (d +:+ "/") j) (seqZ 1 N)
  = filter (λ j, j ≠ 404%Z) (seqZ 1 N).
Proof.
  intros Htidy Hroot. apply filter_ext_elem.
  intros j Hj%elem_of_seqZ. split; [tauto|]. intros Hne. split; [assumption|].
  unfold absent, stat_err. rewrite stat_works, string_app_assoc.
  rewrite lookup_insert_ne
    by (intros Heq; symmetry in Heq; revert Heq; apply plain_ne_parent, plain_itoa; lia).
  destruct (fs !! clean (d +:+ "/" +:+ itoa j)) eqn:Hx; [|reflexivity].
  destruct (Htidy d (itoa j)) as [x Hd]; [eauto|congruence].
Qed.

Lemma absent_root fs dbPath :
  fs !! clean dbPath = None → IsNotExist (stat_err E fs dbPath) = true.
Proof. intros H. unfold stat_err. now rewrite stat_works, H. Qed.

Lemma semaphore_prologue_Ok rateLimit dbPath0 w r w' :
  Semaphore.main_prologue E rateLimit dbPath0 w = (Ok r, w') →
  ∃ dbPath body c missing,
    Semaphore.add_trailing_slash dbPath0 = Some dbPath
    ∧ http_get E (xkcdURL +:+ jsonFile) = Some body
    ∧ json_decode E body = Some c
    ∧ ((IsNotExist (stat_err E (files w) dbPath) = false ∧ files w' = files w)
       ∨ (IsNotExist (stat_err E (files w) dbPath) = true
          ∧ files w !! clean dbPath = None
          ∧ files w' = <[clean dbPath := Dir]> (files w)))
    ∧ missing = itoa <$> filter (λ j, j ≠ 404%Z ∧ absent E (files w') dbPath j)
                           (seqZ 1 (Num c))
    ∧ match r with None => missing = [] | Some x => x = (dbPath, missing) end.
Proof.
  unfold Semaphore.main_prologue.
  destruct (Semaphore.add_trailing_slash dbPath0) as [p|]; [|discriminate].
  intros ([N err] & w1 & Hlatest & H)%bind_Ok_inv.
  destruct err as [e|]; [discriminate|].
  apply latestComicNum_Ok in Hlatest as (Hf1 & body & c & Hget & Hdec & ->).
  apply bind_Ok_inv in H as (serr & w2 & Hstat & H).
  unfold os_Stat in Hstat. injection Hstat as <- <-.
  apply bind_Ok_inv in H as ([] & w3 & Hroot & H).
  apply ensure_root_Ok in Hroot. cbn [files] in Hroot. rewrite Hf1 in Hroot.
  apply bind_Ok_inv in H as (missing & w4 & Hscan & H).
  apply missingComics_files in Hscan as [Hf4 Hm].
  assert (Hf : files w' = files w3).
  { destruct (decide (length missing = 0)).
    - apply bind_Ok_inv in H as ([] & w5 & Hp & H).
      unfold printf, emit in Hp. injection Hp as <-. injection H as _ <-. exact Hf4.
    - destruct (decide (rateLimit < 0)%Z); [discriminate|]. injection H as _ <-. exact Hf4. }
  exists p, body, c, missing. rewrite Hf. split_and!; try assumption; try reflexivity.
  destruct (decide (length missing = 0)) as [Hz|Hnz].
  - apply bind_Ok_inv in H as ([] & w5 & _ & H). injection H as <- _.
    now apply nil_length_inv.
  - destruct (decide (rateLimit < 0)%Z); [discriminate|]. now injection H as <- _.
Qed.

Lemma batched_prologue_Ok w r w' :
  Batched.main_prologue E w = (Ok r, w') →
  ∃ body c missing,
    http_get E (xkcdURL +:+ jsonFile) = Some body
    ∧ json_decode E body = Some c
    ∧ ((IsNotExist (stat_err E (files w) Batched.dbPath) = false ∧ files w' = files w)
       ∨ (IsNotExist (stat_err E (files w) Batched.dbPath) = true
          ∧ files w !! clean Batched.dbPath = None
          ∧ files w' = <[clean Batched.dbPath := Dir]> (files w)))
    ∧ missing = itoa <$> filter (λ j, j ≠ 404%Z ∧ absent E (files w') Batched.dbPath j)
                           (seqZ 1 (Num c))
    ∧ match r with
      | None => missing = []
      | Some dlList => Batched.splitSlice missing 200 = Some dlList
      end.
Proof.
  unfold Batched.main_prologue.
  intros ([N err] & w1 & Hlatest & H)%bind_Ok_inv.
  destruct err as [e|]; [discriminate|].
  apply latestComicNum_Ok in Hlatest as (Hf1 & body & c & Hget & Hdec & ->).
  apply bind_Ok_inv in H as (serr & w2 & Hstat & H).
  unfold os_Stat in Hstat. injection Hstat as <- <-.
  apply bind_Ok_inv in H as ([] & w3 & Hroot & H).
  apply ensure_root_Ok in Hroot. cbn [files] in Hroot. rewrite Hf1 in Hroot.
  apply bind_Ok_inv in H as (missing & w4 & Hscan & H).
  apply missingComics_files in Hscan as [Hf4 Hm].
  assert (Hf : files w' = files w3).
  { destruct (decide (length missing = 0)).
    - apply bind_Ok_inv in H as ([] & w5 & Hp & H).
      unfold printf, emit in Hp. injection Hp as <-. injection H as _ <-. exact Hf4.
    - apply bind_Ok_inv in H as ([] & w5 & Hp & H).
      unfold printf, emit in Hp. injection Hp as <-.
      destruct (Batched.splitSlice missing 200); [|discriminate].
      injection H as _ <-. exact Hf4. }
  exists body, c, missing. rewrite Hf. split_and!; try assumption; try reflexivity.
  destruct (decide (length missing = 0)) as [Hz|Hnz].
  - apply bind_Ok_inv in H as ([] & w5 & _ & H). injection H as <- _.
    now apply nil_length_inv.
  - apply bind_Ok_inv in H as ([] & w5 & _ & H).
    destruct (Batched.splitSlice missing 200); [|discriminate]. now injection H as <- _.
Qed.

(** The downloads started by a run of [main] that returns. *)
Lemma semaphore_run_fetches rateLimit dbPath w wf :
  Semaphore.main_run E rateLimit dbPath w (Ok tt) wf →
  ∃ r w',
    Semaphore.main_prologue E rateLimit dbPath w = (Ok r, w')
    ∧ grows (files w') (files wf)
    ∧ fetch_lines (events_since w wf) ≡ₚ match r with None => [] | Some x => x.2 end.
Proof.
  intros Hrun.
  inversion Hrun as [|w' H|w' H|p' m w' s H Hp He Hf| |]; subst.
  - exists None, wf. split_and!; [assumption|apply grows_refl|].
    destruct (prologue_result _ _ _ _ (quiet_semaphore_prologue E rateLimit dbPath) H)
      as (_ & -> & _). reflexivity.
  - exists (Some (p', m)), w'.
    destruct (quiet_trace _ _ _ _ (quiet_semaphore_prologue E rateLimit dbPath) H)
      as (evs0 & Ht0 & Hl0).
    pose proof (semaphore_inv _ _ _ _ _ _ Hp) as Hinv.
    destruct (pool_started _ _ _ _ Hinv) as (started & Hs & _ & Hall).
    rewrite (Hall Hf) in Hs.
    destruct (inv_lines _ _ _ _ Hinv) as (evs1 & Ht1 & _).
    unfold events_since in Hs. rewrite Ht1, drop_app_length in Hs.
    split_and!; [assumption|exact (inv_grows _ _ _ _ Hinv)|].
    unfold events_since. cbn [trace snd].
    rewrite Ht1, Ht0, <- !app_assoc, drop_app_length.
    now rewrite !fetch_lines_app, Hl0, Hs, app_nil_r.
Qed.

Lemma batched_run_fetches w wf :
  Batched.main_run E w (Ok tt) wf →
  ∃ r w',
    Batched.main_prologue E w = (Ok r, w')
    ∧ grows (files w') (files wf)
    ∧ fetch_lines (events_since w wf) ≡ₚ match r with None => [] | Some dl => concat dl end.
Proof.
  intros Hrun.
  inversion Hrun as [|w' H|w' H|dl w' s H Hl He Hf|]; subst.
  - exists None, wf. split_and!; [assumption|apply grows_refl|].
    destruct (prologue_result _ _ _ _ (quiet_batched_prologue E) H) as (_ & -> & _).
    reflexivity.
  - exists (Some dl), w'.
    destruct (quiet_trace _ _ _ _ (quiet_batched_prologue E) H) as (evs0 & Ht0 & Hl0).
    pose proof (batched_loop_inv _ _ _ _ Hl) as Hinv.
    destruct (loop_started _ _ _ _ Hinv) as (_ & Hg & started & Hs & _ & Hall).
    cbn [Batched.pending Batched.current] in Hs, Hall, Hg.
    rewrite (Hall eq_refl Hf) in Hs.
    destruct Hinv as (done & cur & wc & _ & _ & _ & Hpinv & (e1 & Ht1 & _) & _).
    destruct (inv_lines _ _ _ _ Hpinv) as (e2 & Ht2 & _).
    cbn [Batched.current] in Ht2.
    unfold events_since in Hs. rewrite Ht2, Ht1, <- app_assoc, drop_app_length in Hs.
    split_and!; [assumption|exact Hg|].
    unfold events_since.
    rewrite Ht2, Ht1, Ht0, <- !app_assoc, drop_app_length.
    now rewrite fetch_lines_app, Hl0.
Qed.

End FirstRun.

(** X14.  A first run.  Where [os.Stat] itself does not fail and the archive
    root does not exist yet (and no entry lies below it), a run of [main]
    that returns has created the root and has started a download, once, for
    every comic from 1 to the number of the latest comic except 404. *)
Theorem first_run_fetches_all (E : Env) :
  (∀ p, io_fault E OpStat p = false) →
  (∀ rateLimit dbPath0 dbPath w wf,
     Semaphore.add_trailing_slash dbPath0 = Some dbPath →
     files w !! clean dbPath = None → tidy (files w) →
     Semaphore.main_run E rateLimit dbPath0 w (Ok tt) wf →
     ∃ body c,
       http_get E (xkcdURL +:+ jsonFile) = Some body
       ∧ json_decode E body = Some c
       ∧ files wf !! clean dbPath = Some Dir
       ∧ fetch_lines (events_since w wf)
         ≡ₚ itoa <$> filter (λ j, j ≠ 404%Z) (seqZ 1 (Num c)))
  ∧ (∀ w wf,
       files w !! clean Batched.dbPath = None → tidy (files w) →
       Batched.main_run E w (Ok tt) wf →
       ∃ body c,
         http_get E (xkcdURL +:+ jsonFile) = Some body
         ∧ json_decode E body = Some c
         ∧ files wf !! clean Batched.dbPath = Some Dir
         ∧ fetch_lines (events_since w wf)
           ≡ₚ itoa <$> filter (λ j, j ≠ 404%Z) (seqZ 1 (Num c))).
Proof.
  intros Hstat. split.
  - intros rateLimit dbPath0 dbPath w wf Hnorm Hroot Htidy Hrun.
    apply semaphore_run_fetches in Hrun as (r & w' & Hpro & Hg & Hl).
    apply semaphore_prologue_Ok in Hpro
      as (p & body & c & missing & Hp & Hget & Hdec & Hcase & Hm & Hr).
    rewrite Hnorm in Hp. injection Hp as <-.
    destruct Hcase as [[Hno _]|(_ & _ & Hf)];
      [now rewrite (absent_root E Hstat) in Hno|].
    destruct (add_trailing_slash_Some _ _ Hnorm) as [d ->].
    rewrite clean_app_slash in *.
    rewrite Hf, (fresh_scan E Hstat) in Hm by assumption.
    exists body, c. split_and!; try assumption.
    + apply (proj2 (Hg _)). now rewrite Hf, lookup_insert_eq.
    + rewrite Hl. destruct r as [x|]; [subst x; cbn [snd]; now rewrite Hm|now rewrite <- Hm, Hr].
  - intros w wf Hroot Htidy Hrun.
    apply batched_run_fetches in Hrun as (r & w' & Hpro & Hg & Hl).
    apply batched_prologue_Ok in Hpro
      as (body & c & missing & Hget & Hdec & Hcase & Hm & Hr).
    destruct Hcase as [[Hno _]|(_ & _ & Hf)];
      [now rewrite (absent_root E Hstat) in Hno|].
    change Batched.dbPath with ("./xkcdDB" +:+ "/") in *.
    rewrite clean_app_slash in *.
    rewrite Hf, (fresh_scan E Hstat) in Hm by assumption.
    exists body, c. split_and!; try assumption.
    + apply (proj2 (Hg _)). now rewrite Hf, lookup_insert_eq.
    + rewrite Hl. destruct r as [dl|].
      * apply (splitSlice_blocks _ 200) in Hr as [-> _]; [now rewrite Hm|lia].
      * now rewrite <- Hm, Hr.
Qed.

(** The catalogue of one comic over an archive without a root. *)
Lemma first_run_fetches_all_witness :
  ∃ wf,
    Semaphore.main_run offline_env 1 "db" (World ∅ []) (Ok tt) wf
    ∧ files wf !! "db"%string = Some Dir
    ∧ fetch_lines (events_since (World ∅ []) wf) ≡ₚ ["1"%string].
Proof.
  pose (w1 := (Semaphore.main_prologue offline_env 1 "db" (World ∅ [])).2).
  pose (w2 := (Semaphore.worker offline_env "db/" "1" w1).2).
  pose (s := Pool [("1"%string, Finished MetaTransportFailed)] 0 w2 None).
  assert (Hrun : Semaphore.main_run offline_env 1 "db" (World ∅ []) (Ok tt)
                   (World (files (pworld s))
                      (trace (pworld s) ++ [EvPrint (MsgDownloaded (length ["1"%string]))]))).
  { apply (Semaphore.main_pool_done offline_env 1 "db" (World ∅ []) "db/" ["1"%string] w1 s).
    - vm_compute. reflexivity.
    - eapply rtc_l.
      { apply (step_acquire _ _ (init_pool ["1"%string] w1) 0 "1"%string);
          [reflexivity|reflexivity|cbn; lia]. }
      eapply rtc_l.
      { eapply (step_body _ _ _ 0 "1"%string MetaTransportFailed w2);
          [reflexivity|reflexivity|]. vm_compute. reflexivity. }
      eapply rtc_l.
      { eapply (step_release _ _ _ 0 "1"%string MetaTransportFailed);
          [reflexivity|reflexivity|cbn; lia]. }
      apply rtc_refl.
    - reflexivity.
    - repeat constructor. }
  destruct (proj1 (first_run_fetches_all offline_env (λ _, eq_refl))
              1%Z "db"%string "db/"%string (World ∅ []) _ eq_refl (lookup_empty _)
              ltac:(intros d name [x Hx]; cbn [files] in Hx; now rewrite lookup_empty in Hx)
              Hrun)
    as (body & c & Hget & Hdec & Hdir & Hl).
  vm_compute in Hget. injection Hget as <-.
  vm_compute in Hdec. injection Hdec as <-.
  eexists. split_and!; [exact Hrun|exact Hdir|exact Hl].
Defined.

(** ** The blocks of src/xkcd.go, one after the other *)

(** X15.  [wg.Wait()] as a barrier in src/xkcd.go.  At every point of the
    loop over the blocks, the "Fetching Comic" lines printed so far are
    those of all the comics of the blocks before the current one, each once,
    followed by those of the goroutines of the current block that have run:
    no download of a block starts before every download of the blocks
    before it has been started, and none of a block still to come has
    started. *)
Theorem blocks_in_turn (E : Env) (dlList : list (list string)) (w0 : world)
    (bs : list (list string)) (s : pool) :
  rtc (Batched.loop_step E) (Batched.loop_init dlList w0) (Batched.Loop bs s) →
  ∃ done l1 l2,
    concat dlList = done ++ (workers s).*1 ++ concat bs
    ∧ fetch_lines (events_since w0 (pworld s)) = l1 ++ l2
    ∧ l1 ≡ₚ done
    ∧ l2 ≡ₚ (filter (λ x, ran x.2) (workers s)).*1.
Proof.
  intros Hrun.
  destruct (batched_loop_inv _ _ _ _ Hrun)
    as (done & cur & wc & Hm & _ & _ & Hinv & (evs & Ht & Hl) & _).
  cbn [Batched.pending Batched.current] in *.
  destruct (inv_lines _ _ _ _ Hinv) as (evs1 & Ht1 & Hl1).
  exists done, (fetch_lines evs), (fetch_lines evs1). split_and!; try assumption.
  - now rewrite (inv_items _ _ _ _ Hinv).
  - now rewrite (events_since_app _ _ _ _ _ Ht Ht1), fetch_lines_app.
Qed.

(** Two blocks of one comic: when the loop comes to the second block, the
    line of comic 1 has been printed and that of comic 2 has not. *)
Lemma blocks_in_turn_witness :
  ∃ s,
    rtc (Batched.loop_step demo_env)
        (Batched.loop_init [["1"]; ["2"]]%string (World ∅ []))
        (Batched.Loop [] s)
    ∧ (workers s).*1 = ["2"%string]
    ∧ fetch_lines (events_since (World ∅ []) (pworld s)) = ["1"%string].
Proof.
  pose (w0 := World ∅ []).
  pose (w' := (Batched.worker demo_env "1" w0).2).
  pose (s1 := Pool [("1"%string, Finished Saved)] 0 w' None).
  assert (Hrun : rtc (Batched.loop_step demo_env)
                     (Batched.loop_init [["1"]; ["2"]]%string w0)
                     (Batched.Loop [] (init_pool ["2"%string] w'))).
  { eapply rtc_l.
    { apply (Batched.loop_next demo_env ["1"%string] [["2"%string]] (init_pool [] w0));
        [reflexivity|constructor]. }
    eapply rtc_l.
    { apply Batched.loop_inner.
      apply (step_acquire _ _ (init_pool ["1"%string] w0) 0 "1"%string);
        [reflexivity|reflexivity|exact I]. }
    eapply rtc_l.
    { apply Batched.loop_inner.
      eapply (step_body _ _ _ 0 "1"%string Saved w'); [reflexivity|reflexivity|].
      vm_compute. reflexivity. }
    eapply rtc_l.
    { apply Batched.loop_inner.
      eapply (step_release _ _ _ 0 "1"%string Saved); [reflexivity|reflexivity|exact I]. }
    eapply rtc_l.
    { apply (Batched.loop_next demo_env ["2"%string] [] s1);
        [reflexivity|repeat constructor]. }
    apply rtc_refl. }
  exists (init_pool ["2"%string] w'). split_and!; [exact Hrun|reflexivity|].
  destruct (blocks_in_turn demo_env _ _ _ _ Hrun) as (done & l1 & l2 & Hm & Hf & H1 & H2).
  etrans; [exact Hf|]. vm_compute in H2. apply Permutation_nil_r in H2 as ->.
  rewrite app_nil_r.
  apply (app_inj_2 ["1"%string] done ["2"%string] ["2"%string] eq_refl) in Hm as [<- _].
  now apply Permutation_singleton_r in H1.
Defined.

(** ** The paths the program writes to *)

Lemma string_app_nil_r s : s +:+ "" = s.
Proof.
  induction s as [|a s IH]; [reflexivity|].
  change (String a (s +:+ "") = String a s). now rewrite IH.
Qed.

Lemma clean_prefix x rest : ∃ r, clean (x +:+ rest) = clean x +:+ r.
Proof.
  induction x as [|c x [r IH]]; [exists (clean rest); reflexivity|].
  change (String c x +:+ rest) with (String c (x +:+ rest)). cbn [clean]. rewrite IH.
  destruct (clean x) as [|a s].
  - destruct r as [|b r].
    + exists EmptyString. now destruct (Ascii.eqb c "/").
    + change ("" +:+ String b r) with (String b r). cbn iota.
      destruct (Ascii.eqb c "/") eqn:Hc.
      * apply Ascii.eqb_eq in Hc as ->. now exists (String "/" (String b r)).
      * now exists (String b r).
  - now exists r.
Qed.

(** A path below [prefix] begins with [prefix] without its trailing
    separators. *)
Lemma below_prefix prefix p : below prefix p → ∃ r, p = clean prefix +:+ r.
Proof. intros [rest ->]. apply clean_prefix. Qed.

Lemma below_self prefix : below prefix (clean prefix).
Proof. exists EmptyString. now rewrite string_app_nil_r. Qed.

Lemma below_app prefix mid p : below (prefix +:+ mid) p → below prefix p.
Proof. intros [rest ->]. exists (mid +:+ rest). now rewrite string_app_assoc. Qed.

Lemma confined_weaken {A} (P Q : string → Prop) (m : M A) :
  (∀ p, P p → Q p) → confined P m → confined Q m.
Proof. intros HPQ Hm w p Hp. apply Hm. intros HP. apply Hp, HPQ, HP. Qed.

Lemma confined_same {A} P (m : M A) :
  (∀ w, files (m w).2 = files w) → confined P m.
Proof. intros Hm w p _. now rewrite Hm. Qed.

Lemma confined_bind {A B} P (m : M A) (k : A → M B) :
  confined P m → (∀ a, confined P (k a)) → confined P (bind m k).
Proof.
  intros Hm Hk w p Hp. specialize (Hm w p Hp). unfold bind.
  destruct (m w) as [[a|c|] w1]; cbn [snd] in *; [|assumption..].
  now rewrite (Hk a w1 p Hp).
Qed.

Section Confined.
Context (E : Env).

Lemma confined_http_Get P url : confined P (http_Get E url).
Proof. now apply confined_same. Qed.

Lemma confined_os_Stat P p : confined P (os_Stat E p).
Proof. now apply confined_same. Qed.

Lemma confined_os_Mkdir (P : string → Prop) p : P (clean p) → confined P (os_Mkdir E p).
Proof.
  intros HP w q Hq. unfold os_Mkdir, mkdir_fs.
  destruct (io_fault E OpMkdir p); [reflexivity|].
  destruct (files w !! clean p); [reflexivity|]. cbn [snd files].
  apply lookup_insert_ne. now intros <-.
Qed.

Lemma confined_os_Create (P : string → Prop) p : P (clean p) → confined P (os_Create E p).
Proof.
  intros HP w q Hq. unfold os_Create, create_fs.
  destruct (io_fault E OpCreate p); [reflexivity|].
  destruct (files w !! clean p) as [[|d]|]; [reflexivity| |]; cbn [snd files];
    apply lookup_insert_ne; now intros <-.
Qed.

Lemma confined_append (P : string → Prop) o p data w q :
  P (clean p) → ¬ P q → (append_fs E o (files w) p data).2 !! q = files w !! q.
Proof.
  intros HP Hq. unfold append_fs. destruct (io_fault E o p); [reflexivity|].
  destruct (files w !! clean p) as [[|d]|]; [reflexivity| |reflexivity]. cbn [snd].
  apply lookup_insert_ne. now intros <-.
Qed.

Lemma confined_file_WriteString (P : string → Prop) p data :
  P (clean p) → confined P (file_WriteString E p data).
Proof.
  intros HP w q Hq. unfold file_WriteString.
  pose proof (confined_append P OpWrite p data w q HP Hq) as H.
  now destruct (append_fs E OpWrite (files w) p data).
Qed.

Lemma confined_io_Copy (P : string → Prop) p data :
  P (clean p) → confined P (io_Copy E p data).
Proof.
  intros HP w q Hq. unfold io_Copy.
  pose proof (confined_append P OpCopy p data w q HP Hq) as H.
  now destruct (append_fs E OpCopy (files w) p data).
Qed.

Lemma confined_write_field (P : string → Prop) path data :
  P (clean path) → confined P (write_field E path data).
Proof.
  intros HP. unfold write_field.
  apply confined_bind; [now apply confined_os_Create|]. intros [e|].
  - now apply confined_same.
  - apply confined_bind; [now apply confined_file_WriteString|].
    intros [e|]; now apply confined_same.
Qed.

Lemma confined_write_image savePath item comicData :
  confined (below savePath) (write_image E savePath item comicData).
Proof.
  unfold write_image. apply confined_bind; [apply confined_http_Get|]. intros [body|].
  - destruct (last (split_slash (Img comicData))) as [imgName|];
      [|now apply confined_same].
    destruct (decide (imgName = EmptyString)).
    + apply confined_bind; intros; now apply confined_same.
    + assert (Hb : below savePath (clean (savePath +:+ imgName))) by now exists imgName.
      apply confined_bind; [now apply confined_os_Create|]. intros [e|].
      * now apply confined_same.
      * apply confined_bind; [now apply confined_io_Copy|].
        intros [e|]; now apply confined_same.
  - apply confined_bind; intros; now apply confined_same.
Qed.

Lemma confined_write_meta_semaphore savePath item comicData :
  confined (below savePath) (Semaphore.write_meta E savePath item comicData).
Proof.
  unfold Semaphore.write_meta. apply confined_bind.
  - destruct (decide (Alt comicData ≠ EmptyString)); [|now apply confined_same].
    apply confined_write_field. now exists (item +:+ "-alt").
  - intros _. destruct (decide (Transcript comicData ≠ EmptyString));
      [|now apply confined_same].
    apply confined_write_field. now exists (item +:+ "-transcript").
Qed.

Lemma confined_write_meta_batched savePath item comicData :
  confined (below savePath) (Batched.write_meta E savePath item comicData).
Proof.
  unfold Batched.write_meta. apply confined_bind.
  - apply confined_write_field. now exists (item +:+ "-alt").
  - intros _. apply confined_write_field. now exists (item +:+ "-transcript").
Qed.

Lemma confined_worker_with write_meta dbPath item :
  (∀ savePath comicData, confined (below savePath) (write_meta savePath item comicData)) →
  confined (below (dbPath +:+ item +:+ "/")) (worker_with E write_meta dbPath item).
Proof.
  intros Hmeta. unfold worker_with, after_first_line.
  apply confined_bind; [now apply confined_same|]. intros _.
  apply confined_bind; [apply confined_http_Get|]. intros [body|].
  - destruct (json_decode E body) as [comicData|].
    + apply confined_bind; [apply confined_os_Mkdir, below_self|]. intros [e|].
      * now apply confined_same.
      * apply confined_bind; [apply Hmeta|]. intros _. apply confined_write_image.
    + apply confined_bind; [now apply confined_same|]. intros _.
      apply confined_bind; intros; now apply confined_same.
  - apply confined_bind; intros; now apply confined_same.
Qed.

Lemma confined_latestComicNum P : confined P (latestComicNum E).
Proof.
  unfold latestComicNum. apply confined_bind; [apply confined_http_Get|].
  intros [body|]; [destruct (json_decode E body)|]; now apply confined_same.
Qed.

Lemma confined_missingComics P N dbPath : confined P (missingComics E N dbPath).
Proof.
  apply confined_same. intros w. unfold missingComics.
  destruct (decide (N < 0 ∨ max_cap E < N)%Z); [reflexivity|]. now rewrite missingComics_loop_eq.
Qed.

End Confined.

Section ConfinedPool.
Context (body : string → M outcome) (cap : option nat) (Q : string → string → Prop).
Hypothesis body_confined : ∀ item, confined (Q item) (body item).

Lemma step_confined s s' :
  step body cap s s' →
  (workers s').*1 = (workers s).*1
  ∧ ∀ p, (∀ item, item ∈ (workers s).*1 → ¬ Q item p) →
         files (pworld s') !! p = files (pworld s) !! p.
Proof.
  assert (Hbody : ∀ k item r w' p,
            workers s !! k = Some (item, Running) → body item (pworld s) = (r, w') →
            (∀ item, item ∈ (workers s).*1 → ¬ Q item p) →
            files w' !! p = files (pworld s) !! p).
  { intros k item r w' p Hk Hb Hp.
    rewrite <- (body_confined item (pworld s) p), Hb; [reflexivity|].
    apply Hp. apply list_elem_of_fmap. exists (item, Running). split; [reflexivity|].
    eapply list_elem_of_lookup_2, Hk. }
  intros Hstep.
  inversion Hstep as [s0 k item He Hk Hc|s0 k item o w' He Hk Hb|s0 k item c w' He Hk Hb
                     |s0 k item w' He Hk Hb|s0 k item o He Hk Hc]; subst;
    cbn [workers pworld]; (split; [now apply (items_insert _ _ _ _ _ Hk)|]);
    intros p Hp; try reflexivity; eapply Hbody; eassumption.
Qed.

Lemma run_confined s s' :
  rtc (step body cap) s s' →
  ∀ p, (∀ item, item ∈ (workers s).*1 → ¬ Q item p) →
       files (pworld s') !! p = files (pworld s) !! p.
Proof.
  induction 1 as [s|s1 s2 s3 Hstep _ IH]; [reflexivity|].
  intros p Hp. destruct (step_confined _ _ Hstep) as [Hi Hf].
  rewrite IH, Hf by (try rewrite Hi; assumption). reflexivity.
Qed.

End ConfinedPool.

Lemma add_trailing_slash_cases p dbPath :
  Semaphore.add_trailing_slash p = Some dbPath → dbPath = p ∨ dbPath = p +:+ "/".
Proof.
  unfold Semaphore.add_trailing_slash.
  destruct (byte_at p (len p - 1)) as [c|]; [|discriminate].
  destruct (decide (c ≠ "/"%char)); intros [= <-]; auto.
Qed.

Section ConfinedMain.
Context (E : Env).

Lemma confined_ensure_root dbPath (err : option error) :
  confined (below dbPath)
    (if IsNotExist err
     then
       do printf (MsgCreating dbPath) then
       let* err := os_Mkdir E dbPath in
       match err with
       | Some _ => log_Fatalln err
       | None => ret tt
       end
     else ret tt).
Proof.
  destruct (IsNotExist err); [|now apply confined_same].
  apply confined_bind; [now apply confined_same|]. intros _.
  apply confined_bind; [apply confined_os_Mkdir, below_self|].
  intros [e|]; now apply confined_same.
Qed.

Lemma confined_semaphore_prologue rateLimit dbPath :
  confined (below dbPath) (Semaphore.main_prologue E rateLimit dbPath).
Proof.
  unfold Semaphore.main_prologue.
  destruct (Semaphore.add_trailing_slash dbPath) as [p|] eqn:Hp; [|now apply confined_same].
  apply (confined_weaken (below p)).
  { destruct (add_trailing_slash_cases _ _ Hp) as [->| ->]; [tauto|apply below_app]. }
  apply confined_bind; [apply confined_latestComicNum|]. intros [numComics [e|]].
  { now apply confined_same. }
  apply confined_bind; [apply confined_os_Stat|]. intros err.
  apply confined_bind; [apply confined_ensure_root|]. intros _.
  apply confined_bind; [apply confined_missingComics|]. intros missing.
  destruct (decide (length missing = 0)).
  - apply confined_bind; intros; now apply confined_same.
  - destruct (decide (rateLimit < 0)%Z); now apply confined_same.
Qed.

Lemma confined_batched_prologue :
  confined (below Batched.dbPath) (Batched.main_prologue E).
Proof.
  unfold Batched.main_prologue.
  apply confined_bind; [apply confined_latestComicNum|]. intros [numComics [e|]].
  { now apply confined_same. }
  apply confined_bind; [apply confined_os_Stat|]. intros err.
  apply confined_bind; [apply confined_ensure_root|]. intros _.
  apply confined_bind; [apply confined_missingComics|]. intros missing.
  destruct (decide (length missing = 0)).
  - apply confined_bind; intros; now apply confined_same.
  - apply confined_bind; [now apply confined_same|]. intros _.
    destruct (Batched.splitSlice missing 200); now apply confined_same.
Qed.

Lemma confined_result {A} P (m : M A) w r w' p :
  confined P m → m w = (r, w') → ¬ P p → files w' !! p = files w !! p.
Proof. intros Hm Hr Hp. specialize (Hm w p Hp). now rewrite Hr in Hm. Qed.

Lemma semaphore_pool_confined dbPath rateLimit dlList w0 s p :
  rtc (Semaphore.getComic_step E dbPath rateLimit) (init_pool dlList w0) s →
  (∀ item, item ∈ dlList → ¬ below (dbPath +:+ item +:+ "/") p) →
  files (pworld s) !! p = files w0 !! p.
Proof.
  intros Hrun Hp.
  apply (run_confined (Semaphore.worker E dbPath) _
           (λ item, below (dbPath +:+ item +:+ "/"))
           (λ item, confined_worker_with E _ dbPath item
                      (λ savePath comicData,
                         confined_write_meta_semaphore E savePath item comicData))
           _ _ Hrun).
  intros item Hin. apply Hp. unfold init_pool in Hin. cbn [workers] in Hin.
  rewrite <- list_fmap_compose in Hin. apply list_elem_of_fmap in Hin as (x & -> & Hx).
  exact Hx.
Qed.

Lemma batched_loop_confined dlList w0 st p :
  rtc (Batched.loop_step E) (Batched.loop_init dlList w0) st →
  ¬ below Batched.dbPath p →
  files (pworld (Batched.current st)) !! p = files w0 !! p.
Proof.
  intros Hrun Hp.
  apply (rtc_ind_r (R := Batched.loop_step E)
           (λ st, files (pworld (Batched.current st)) !! p = files w0 !! p)
           (Batched.loop_init dlList w0)); [reflexivity| |exact Hrun].
  intros st1 st2 _ Hstep IH.
  inversion Hstep as [bs s s' Hs|b bs s He Hf]; subst; cbn [Batched.current pworld] in *;
    [|exact IH].
  rewrite <- IH.
  destruct (step_confined (Batched.worker E) None
              (λ item, below (Batched.dbPath +:+ item +:+ "/"))
              (λ item, confined_worker_with E _ Batched.dbPath item
                         (λ savePath comicData,
                            confined_write_meta_batched E savePath item comicData))
              _ _ Hs) as [_ Hf].
  apply Hf. intros item _ Hb. apply Hp. eapply below_app, Hb.
Qed.

End ConfinedMain.

(** X16.  A download stays in the directory of its comic.  In either source
    file the goroutine body, however it ends, changes no entry of the
    archive but the directory of its item and entries whose path begins
    with that directory. *)
Theorem download_stays_in_directory (E : Env) (dbPath item : string) (w : world)
    (p : string) :
  ¬ below (dbPath +:+ item +:+ "/") p →
  files (Semaphore.worker E dbPath item w).2 !! p = files w !! p
  ∧ (dbPath = Batched.dbPath → files (Batched.worker E item w).2 !! p = files w !! p).
Proof.
  intros Hp. split; [|intros ->].
  - apply (confined_worker_with E _ dbPath item
             (λ savePath comicData,
                confined_write_meta_semaphore E savePath item comicData)), Hp.
  - apply (confined_worker_with E _ Batched.dbPath item
             (λ savePath comicData,
                confined_write_meta_batched E savePath item comicData)), Hp.
Qed.

(** The download of comic 1 leaves the directory of comic 2 as it was. *)
Lemma download_stays_in_directory_witness :
  files (Semaphore.worker demo_env "db/" "1"
           (World {["db/2" := Dir; "db/2/2-alt" := File "old"]} [])).2
    !! "db/2/2-alt"%string
  = Some (File "old").
Proof.
  rewrite (proj1 (download_stays_in_directory demo_env "db/" "1"
                    (World {["db/2" := Dir; "db/2/2-alt" := File "old"]} [])
                    "db/2/2-alt"%string
                    ltac:(intros [r Hr]%below_prefix; vm_compute in Hr;
                          discriminate))).
  reflexivity.
Defined.

(** X17.  [main] stays in the archive.  A run of [main], in either source
    file and however it ends, changes no entry but the archive root and
    entries whose path begins with the path of the archive. *)
Theorem main_stays_in_archive (E : Env) :
  (∀ rateLimit dbPath w r wf p,
     Semaphore.main_run E rateLimit dbPath w r wf →
     ¬ below dbPath p → files wf !! p = files w !! p)
  ∧ (∀ w r wf p,
       Batched.main_run E w r wf →
       ¬ below Batched.dbPath p → files wf !! p = files w !! p).
Proof.
  split.
  - intros rateLimit dbPath w r wf p Hrun Hp.
    pose proof (confined_semaphore_prologue E rateLimit dbPath) as Hpro.
    assert (Hpool : ∀ p' m w' s,
              Semaphore.main_prologue E rateLimit dbPath w = (Ok (Some (p', m)), w') →
              rtc (Semaphore.getComic_step E p' (Z.to_nat rateLimit)) (init_pool m w') s →
              files (pworld s) !! p = files w !! p).
    { intros p' m w' s H Hs.
      rewrite <- (confined_result _ _ _ _ _ _ Hpro H Hp).
      apply (semaphore_pool_confined _ _ _ _ _ _ _ Hs).
      intros item _ Hb. apply Hp.
      apply semaphore_prologue_Some in H as (Hnorm & _).
      apply below_app in Hb.
      destruct (add_trailing_slash_cases _ _ Hnorm) as [->| ->];
        [assumption|eapply below_app, Hb]. }
    destruct Hrun as [c w' H|w' H|w' H|p' m w' s H Hs|p' m w' s c H Hs|p' m w' s H Hs];
      cbn [files]; eauto using confined_result.
  - intros w r wf p Hrun Hp.
    pose proof (confined_batched_prologue E) as Hpro.
    destruct Hrun as [c w' H|w' H|w' H|dl w' s H Hl|dl w' bs s c H Hl];
      try (eapply confined_result; eassumption);
      rewrite <- (confined_result _ _ _ _ _ _ Hpro H Hp);
      apply (batched_loop_confined _ _ _ _ _ Hl Hp).
Qed.

(** A whole run over an archive beside which another entry lies. *)
Lemma main_stays_in_archive_witness :
  ∃ wf,
    Semaphore.main_run offline_env 1 "db" (World {["notes" := File "mine"]} []) (Ok tt) wf
    ∧ files wf !! "notes"%string = Some (File "mine").
Proof.
  pose (w0 := World {["notes" := File "mine"]} []).
  pose (w1 := (Semaphore.main_prologue offline_env 1 "db" w0).2).
  pose (w2 := (Semaphore.worker offline_env "db/" "1" w1).2).
  pose (s := Pool [("1"%string, Finished MetaTransportFailed)] 0 w2 None).
  assert (Hrun : Semaphore.main_run offline_env 1 "db" w0 (Ok tt)
                   (World (files (pworld s))
                      (trace (pworld s) ++ [EvPrint (MsgDownloaded (length ["1"%string]))]))).
  { apply (Semaphore.main_pool_done offline_env 1 "db" w0 "db/" ["1"%string] w1 s).
    - vm_compute. reflexivity.
    - eapply rtc_l.
      { apply (step_acquire _ _ (init_pool ["1"%string] w1) 0 "1"%string);
          [reflexivity|reflexivity|cbn; lia]. }
      eapply rtc_l.
      { eapply (step_body _ _ _ 0 "1"%string MetaTransportFailed w2);
          [reflexivity|reflexivity|]. vm_compute. reflexivity. }
      eapply rtc_l.
      { eapply (step_release _ _ _ 0 "1"%string MetaTransportFailed);
          [reflexivity|reflexivity|cbn; lia]. }
      apply rtc_refl.
    - reflexivity.
    - repeat constructor. }
  eexists. split; [exact Hrun|].
  rewrite (proj1 (main_stays_in_archive offline_env) _ _ _ _ _ "notes"%string Hrun).
  - reflexivity.
  - intros [r Hr]%below_prefix. vm_compute in Hr. discriminate.
Defined.

(** ** A comic directory that is already there *)

Lemma worker_with_existing E write_meta dbPath item w :
  is_Some (files w !! clean (dbPath +:+ item)) →
  files (worker_with E write_meta dbPath item w).2 = files w
  ∧ (meta_fails E item →
     (worker_with E write_meta dbPath item w).1 = Ok MetaTransportFailed
     ∨ (worker_with E write_meta dbPath item w).1 = Ok MetaDecodeFailed)
  ∧ (¬ meta_fails E item → (worker_with E write_meta dbPath item w).1 = Exit 1%Z).
Proof.
  intros [x Hx]. unfold meta_fails.
  remember (worker_with E write_meta dbPath item w) as r eqn:Hr.
  unfold worker_with, after_first_line in Hr.
  unfold bind at 1 in Hr. unfold printf, emit in Hr.
  unfold bind at 1 in Hr. unfold http_Get in Hr.
  destruct (http_get E (xkcdURL +:+ item +:+ "/" +:+ jsonFile)) as [body|];
    cbv beta iota in Hr.
  - destruct (json_decode E body) as [comicData|] eqn:Hdec.
    + unfold bind at 1 in Hr. unfold os_Mkdir, mkdir_fs in Hr. cbn [files trace] in Hr.
      rewrite savePath_clean, Hx in Hr.
      destruct (io_fault E OpMkdir (dbPath +:+ item +:+ "/")); subst r; cbn;
        (split_and!; [reflexivity| |reflexivity]);
        intros [Hf|(b & Hb & Hd)]; congruence.
    + subst r. cbn. split_and!; [reflexivity|now right|].
      intros Hno. exfalso. apply Hno. right. eauto.
  - subst r. cbn. split_and!; [reflexivity|now left|].
    intros Hno. exfalso. apply Hno. now left.
Qed.

(** X18.  A directory that is already there is left alone.  In either source
    file, when the body runs for an item whose directory (or any entry of
    that name) exists, for instance because it appeared after the scan, the
    archive is not changed: the body returns after a metadata failure, and
    otherwise [os.Mkdir] fails and the process ends with status 1. *)
Theorem existing_directory_untouched (E : Env) (dbPath item : string) (w : world) :
  is_Some (files w !! clean (dbPath +:+ item)) →
  (files (Semaphore.worker E dbPath item w).2 = files w
   ∧ (meta_fails E item →
      (Semaphore.worker E dbPath item w).1 = Ok MetaTransportFailed
      ∨ (Semaphore.worker E dbPath item w).1 = Ok MetaDecodeFailed)
   ∧ (¬ meta_fails E item → (Semaphore.worker E dbPath item w).1 = Exit 1%Z))
  ∧ (dbPath = Batched.dbPath →
     files (Batched.worker E item w).2 = files w
     ∧ (meta_fails E item →
        (Batched.worker E item w).1 = Ok MetaTransportFailed
        ∨ (Batched.worker E item w).1 = Ok MetaDecodeFailed)
     ∧ (¬ meta_fails E item → (Batched.worker E item w).1 = Exit 1%Z)).
Proof.
  intros Hx. split; [|intros ->]; now apply worker_with_existing.
Qed.

(** Comic 1 of the catalogue over an archive that has its directory, with a
    file in it. *)
Lemma existing_directory_untouched_witness :
  Semaphore.worker demo_env "db/" "1"
    (World {["db/1" := Dir; "db/1/1-alt" := File "old"]} [])
  = (Exit 1%Z,
     World {["db/1" := Dir; "db/1/1-alt" := File "old"]}
           [EvPrint (MsgFetching "1"); EvHttpGet "https://xkcd.com/1/info.0.json";
            EvMkdir "db/1/" (Some (ErrFs EEXIST)); EvLog (Some (ErrFs EEXIST))]).
Proof.
  pose proof (proj1 (existing_directory_untouched demo_env "db/" "1"
                       (World {["db/1" := Dir; "db/1/1-alt" := File "old"]} [])
                       ltac:(exists Dir; reflexivity))) as (Hf & _ & Hr).
  destruct (Semaphore.worker demo_env "db/" "1"
              (World {["db/1" := Dir; "db/1/1-alt" := File "old"]} []))
    as [r [fs tr]] eqn:Hrun.
  cbn [fst snd files] in Hf, Hr. rewrite Hf, Hr.
  - f_equal. f_equal. vm_compute in Hrun. now injection Hrun as _ _ <-.
  - intros [Hf'|(b & Hb & Hd)]; [discriminate Hf'|].
    vm_compute in Hb. injection Hb as <-. discriminate Hd.
Defined.
